(** * Split-NER: the tag-scheme span decoder and the entity-level scorer

    A shallow embedding of [splitner/evaluator_qa.py] (class [EvaluatorQA]):
    the two span decoders [get_spans] and [get_spans_for_2_tag_scheme], the
    scoring loop [calc_entity_metrics] and the constructor that ties them
    together, followed by the properties of the specification that concern
    them.  The development then covers the code around it:
    [bert_to_orig_token_mapping1] of [splitner/main_qa.py], the overlap
    filter, the tagging loop and the sentence split of [make_entry_context]
    in [splitner/utils/generate_bio.py], and [compress_with_head_mask] and
    [expand_with_head_mask] of the two model classes.

    Python integers are [Z], positions produced by [range] are [nat], lists
    are [list] read with stdpp's lookup [l !! i]; an out-of-range index raises
    [IndexError], which the model threads through a small error monad. *)

From Stdlib Require Import ZArith QArith String.
From stdpp Require Import base option list gmap strings.

Local Open Scope string_scope.
Local Open Scope Z_scope.
Local Open Scope list_scope.

(** ** Exceptions *)

Inductive exn : Type :=
| IndexError.

Inductive result (A : Type) : Type :=
| Ok (a : A)
| Raise (e : exn).

Arguments Ok {A} a.
Arguments Raise {A} e.

Global Instance result_ret : MRet result := λ A a, Ok a.

Global Instance result_bind : MBind result := λ A B k m,
  match m with
  | Ok a => k a
  | Raise e => Raise e
  end.

(** [xs[i]] for an index produced by [range]: never negative. *)
Definition index {A : Type} (xs : list A) (i : nat) : result A :=
  match xs !! i with
  | Some x => Ok x
  | None => Raise IndexError
  end.

(** ** Data model *)

(** Modelled from the spec: the class [Span] of [splitner/evaluator.py] is not
    part of the sources at hand.  It is built as
    [Span(context_index, start, end, tag)], its fields [end] and [tag] are
    read and written by the decoders, and "two spans are equal iff all four
    fields match exactly".  An instance is truthy, as a Python object is
    unless its class says otherwise. *)
Record Span : Type := mkSpan {
  span_context : nat;
  span_start : nat;
  span_end : nat;
  span_tag : string
}.

(** [span == other] *)
Definition span_eqb (a b : Span) : bool :=
  Nat.eqb (span_context a) (span_context b)
  && Nat.eqb (span_start a) (span_start b)
  && Nat.eqb (span_end a) (span_end b)
  && String.eqb (span_tag a) (span_tag b).

(** [span in spans] *)
Definition span_in (s : Span) (spans : list Span) : bool :=
  existsb (span_eqb s) spans.

(** [span.end = p] *)
Definition set_end (p : nat) (s : Span) : Span :=
  {| span_context := span_context s; span_start := span_start s;
     span_end := p; span_tag := span_tag s |}.

(** Modelled from the spec: the class [NerQADataset] of
    [splitner/dataset_qa.py] is not part of the sources at hand.  The
    evaluator reads [dataset.contexts[i].entity], the "entity-type label" of
    a context, "exactly one candidate entity type" each, and the keys of
    [dataset.tag_to_text_mapping]. *)
Record Context : Type := mkContext { entity : string }.

Record NerQADataset : Type := mkDataset {
  contexts : list Context;
  tag_to_text_mapping_keys : list string
}.

(** The decoder's local variables while it walks one context.  [prev_span]
    is a reference to an object that also sits in [context_spans]: it is kept
    as the position of that object in the list, so that an assignment through
    [prev_span] is seen in [context_spans]. *)
Record DecState : Type := mkDecState {
  context_spans : list Span;
  prev_span : option nat
}.

Definition init_state : DecState :=
  {| context_spans := []; prev_span := None |}.

(** The object [prev_span] refers to. *)
Definition deref (st : DecState) : option Span :=
  match prev_span st with
  | Some r => context_spans st !! r
  | None => None
  end.

(** [curr_span = Span(..); context_spans.append(curr_span)], giving the new
    list and the reference to the new object. *)
Definition append_span (s : Span) (st : DecState) : list Span * nat :=
  (context_spans st ++ [s], length (context_spans st)).

(** [prev_span.end = tok_index] *)
Definition assign_end (p : nat) (st : DecState) : list Span :=
  match prev_span st with
  | Some r => alter (set_end p) r (context_spans st)
  | None => context_spans st
  end.

(** Which branch of the decoder's [if]/[elif] chain a position took.  The
    labels are observations only; the decoded spans do not depend on them. *)
Inductive Branch : Type :=
| BrIgnored         (* gold holds -100: [prev_span = None; continue] *)
| BrBegin           (* B: a new one-token span, left open *)
| BrSingle          (* S: a new one-token span, not left open *)
| BrInsideGrow      (* I, types agree, num_labels == 3: the end moves *)
| BrInsideKeep      (* I, types agree, other schemes: nothing moves *)
| BrInsideMismatch  (* I, types differ: [prev_span = None] *)
| BrEndGrow         (* E, types agree: the end moves *)
| BrEndMismatch     (* E, types differ: [prev_span = None] *)
| BrNone            (* the final [else]: [prev_span = None] *)
| BrCoalesce        (* BO scheme, B with an open span of the same type *)
| BrBeginMismatch.  (* BO scheme, B with an open span of another type *)

(** The branches that drop the open span, or start another one, because the
    type resolved at the position differs from the type of the open span. *)
Definition is_mismatch (br : Branch) : bool :=
  match br with
  | BrInsideMismatch | BrEndMismatch | BrBeginMismatch => true
  | _ => false
  end.

Definition IGNORE : Z := -100.

Section Evaluator.

(** [NerQADataset.get_tag_index(tag, none_tag)] lives in
    [splitner/dataset_qa.py], which is not part of the sources at hand; the
    decoders only compare its results with the tags of the batch. *)
Variable get_tag_index : string → string → Z.

(** The truth value of a dataset object in [if self.dataset]. *)
Variable truthy : NerQADataset → bool.

(** The fields of [self]. *)
Variable num_labels : Z.
Variable none_tag : string.
Variable gold : list (list Z).
Variable dataset : option NerQADataset.

(** [self.dataset.contexts[context_index].entity if self.dataset else "TAG"] *)
Definition resolve_tag (context_index : nat) : result string :=
  match dataset with
  | Some d =>
      if truthy d
      then ctx ← index (contexts d) context_index; Ok (entity ctx)
      else Ok "TAG"
  | None => Ok "TAG"
  end.

(** [self.gold[context_index][tok_index]] *)
Definition gold_at (context_index tok_index : nat) : result Z :=
  row ← index gold context_index; index row tok_index.

Definition b_tag_index : Z := get_tag_index "B" none_tag.
Definition i_tag_index : Z := get_tag_index "I" none_tag.
Definition e_tag_index : Z := get_tag_index "E" none_tag.
Definition s_tag_index : Z := get_tag_index "S" none_tag.

(** The body of the inner loop of [get_spans], for the tag [v] found at
    [batch[context_index][tok_index]]. *)
Definition get_spans_step (context_index tok_index : nat) (v : Z)
    (st : DecState) : result (DecState * Branch) :=
  g ← gold_at context_index tok_index;
  if g =? IGNORE then
    Ok ({| context_spans := context_spans st; prev_span := None |}, BrIgnored)
  else if v =? b_tag_index then
    tag ← resolve_tag context_index;
    let '(spans, r) := append_span (mkSpan context_index tok_index tok_index tag) st in
    Ok ({| context_spans := spans; prev_span := Some r |}, BrBegin)
  else if v =? s_tag_index then
    tag ← resolve_tag context_index;
    let '(spans, _) := append_span (mkSpan context_index tok_index tok_index tag) st in
    Ok ({| context_spans := spans; prev_span := None |}, BrSingle)
  else
    match deref st with
    | Some prev =>
        if v =? i_tag_index then
          tag ← resolve_tag context_index;
          if String.eqb tag (span_tag prev) then
            if num_labels =? 3 then
              Ok ({| context_spans := assign_end tok_index st;
                     prev_span := prev_span st |}, BrInsideGrow)
            else Ok (st, BrInsideKeep)
          else
            Ok ({| context_spans := context_spans st; prev_span := None |},
                BrInsideMismatch)
        else if v =? e_tag_index then
          tag ← resolve_tag context_index;
          if String.eqb tag (span_tag prev) then
            Ok ({| context_spans := assign_end tok_index st;
                   prev_span := prev_span st |}, BrEndGrow)
          else
            Ok ({| context_spans := context_spans st; prev_span := None |},
                BrEndMismatch)
        else
          Ok ({| context_spans := context_spans st; prev_span := None |}, BrNone)
    | None =>
        Ok ({| context_spans := context_spans st; prev_span := None |}, BrNone)
    end.

(** The body of the inner loop of [get_spans_for_2_tag_scheme]. *)
Definition get_spans_2_step (context_index tok_index : nat) (v : Z)
    (st : DecState) : result (DecState * Branch) :=
  g ← gold_at context_index tok_index;
  if g =? IGNORE then
    Ok ({| context_spans := context_spans st; prev_span := None |}, BrIgnored)
  else if v =? b_tag_index then
    tag ← resolve_tag context_index;
    match deref st with
    | Some prev =>
        if String.eqb tag (span_tag prev) then
          Ok ({| context_spans := assign_end tok_index st;
                 prev_span := prev_span st |}, BrCoalesce)
        else
          let '(spans, r) := append_span (mkSpan context_index tok_index tok_index tag) st in
          Ok ({| context_spans := spans; prev_span := Some r |}, BrBeginMismatch)
    | None =>
        let '(spans, r) := append_span (mkSpan context_index tok_index tok_index tag) st in
        Ok ({| context_spans := spans; prev_span := Some r |}, BrBegin)
    end
  else
    Ok ({| context_spans := context_spans st; prev_span := None |}, BrNone).

Section Loops.

(** The two decoders share their loops and differ in the loop body. *)
Variable step : nat → nat → Z → DecState → result (DecState * Branch).

(** [for tok_index in range(len(batch[context_index]))], from position
    [tok_index] on, [row] being the tags not yet visited. *)
Fixpoint tok_loop (context_index : nat) (row : list Z) (tok_index : nat)
    (st : DecState) : result (DecState * list Branch) :=
  match row with
  | [] => Ok (st, [])
  | v :: row' =>
      '(st1, br) ← step context_index tok_index v st;
      '(st2, brs) ← tok_loop context_index row' (S tok_index) st1;
      Ok (st2, br :: brs)
  end.

(** [for context_index in range(len(batch))], from [context_index] on;
    each context yields its spans and the branches it went through. *)
Fixpoint ctx_loop (batch : list (list Z)) (context_index : nat)
    : result (list (list Span * list Branch)) :=
  match batch with
  | [] => Ok []
  | row :: batch' =>
      '(st, brs) ← tok_loop context_index row 0%nat init_state;
      rest ← ctx_loop batch' (S context_index);
      Ok ((context_spans st, brs) :: rest)
  end.

End Loops.

(** [get_spans(batch)] together with the branches taken. *)
Definition get_spans_traced (batch : list (list Z))
    : result (list (list Span * list Branch)) :=
  ctx_loop get_spans_step batch 0%nat.

Definition get_spans_for_2_tag_scheme_traced (batch : list (list Z))
    : result (list (list Span * list Branch)) :=
  ctx_loop get_spans_2_step batch 0%nat.

Definition get_spans (batch : list (list Z)) : result (list (list Span)) :=
  r ← get_spans_traced batch; Ok (map fst r).

Definition get_spans_for_2_tag_scheme (batch : list (list Z))
    : result (list (list Span)) :=
  r ← get_spans_for_2_tag_scheme_traced batch; Ok (map fst r).

(** The dispatch of [__init__]: the decoder used for both the gold and the
    predicted batch. *)
Definition decode_traced (batch : list (list Z))
    : result (list (list Span * list Branch)) :=
  if num_labels =? 2 then get_spans_for_2_tag_scheme_traced batch
  else get_spans_traced batch.

Definition decode (batch : list (list Z)) : result (list (list Span)) :=
  if num_labels =? 2 then get_spans_for_2_tag_scheme batch
  else get_spans batch.

End Evaluator.

(** The loop body that the dispatch of [__init__] selects. *)
Definition decode_step (get_tag_index : string → string → Z)
    (truthy : NerQADataset → bool) (num_labels : Z) (none_tag : string)
    (gold : list (list Z)) (dataset : option NerQADataset)
    : nat → nat → Z → DecState → result (DecState * Branch) :=
  if num_labels =? 2
  then get_spans_2_step get_tag_index truthy none_tag gold dataset
  else get_spans_step get_tag_index truthy num_labels none_tag gold dataset.

(** ** The metric accumulator *)

(** Modelled from the spec: the class [Metric] of [splitner/evaluator.py] is
    not part of the sources at hand.  It holds "per entity-type counters
    {true_positive, false_positive, false_negative}, plus a registry of all
    known entity-type labels", is "mutated only via add_tp/add_fp/add_fn",
    and its registry is "an ordered mapping from entity type to counters,
    created lazily" (write-on-first-use). *)
Record Counts : Type := mkCounts { tp : nat; fp : nat; fn : nat }.

Definition zero_counts : Counts := {| tp := 0; fp := 0; fn := 0 |}.

Definition Metric : Type := list (string * Counts).

Definition inc_tp (c : Counts) : Counts := {| tp := S (tp c); fp := fp c; fn := fn c |}.
Definition inc_fp (c : Counts) : Counts := {| tp := tp c; fp := S (fp c); fn := fn c |}.
Definition inc_fn (c : Counts) : Counts := {| tp := tp c; fp := fp c; fn := S (fn c) |}.

(** Apply [f] to the counters of [t], registering [t] at the end of the
    mapping when it is met for the first time. *)
Fixpoint bump (f : Counts → Counts) (t : string) (m : Metric) : Metric :=
  match m with
  | [] => [(t, f zero_counts)]
  | (k, c) :: m' =>
      if String.eqb k t then (k, f c) :: m' else (k, c) :: bump f t m'
  end.

(** [Metric(tags)] *)
Definition new_metric (tags : list string) : Metric :=
  fold_left (λ m t, bump id t m) tags [].

Definition add_tp (m : Metric) (span : Span) : Metric := bump inc_tp (span_tag span) m.
Definition add_fp (m : Metric) (span : Span) : Metric := bump inc_fp (span_tag span) m.
Definition add_fn (m : Metric) (span : Span) : Metric := bump inc_fn (span_tag span) m.

Fixpoint counts_of (m : Metric) (t : string) : Counts :=
  match m with
  | [] => zero_counts
  | (k, c) :: m' => if String.eqb k t then c else counts_of m' t
  end.

Definition ratio (num den : nat) : Q :=
  if Nat.eqb den 0 then 0%Q
  else (inject_Z (Z.of_nat num) / inject_Z (Z.of_nat den))%Q.

(** [tp / (tp + fp)], 0 when the denominator is 0. *)
Definition precision_of (c : Counts) : Q := ratio (tp c) (tp c + fp c).

(** [tp / (tp + fn)], 0 when the denominator is 0. *)
Definition recall_of (c : Counts) : Q := ratio (tp c) (tp c + fn c).

(** [2 p r / (p + r)], 0 when the denominator is 0. *)
Definition f1_of (c : Counts) : Q :=
  let p := precision_of c in
  let r := recall_of c in
  if Qeq_bool (p + r) 0 then 0%Q else (2 * p * r / (p + r))%Q.

Definition precision (m : Metric) (t : string) : Q := precision_of (counts_of m t).
Definition recall (m : Metric) (t : string) : Q := recall_of (counts_of m t).
Definition f1 (m : Metric) (t : string) : Q := f1_of (counts_of m t).

(** The counters summed over every registered type. *)
Definition add_counts (a b : Counts) : Counts :=
  {| tp := tp a + tp b; fp := fp a + fp b; fn := fn a + fn b |}.

Definition micro_counts (m : Metric) : Counts :=
  fold_right (λ kc acc, add_counts (snd kc) acc) zero_counts m.

Definition micro_avg_precision (m : Metric) : Q := precision_of (micro_counts m).
Definition micro_avg_recall (m : Metric) : Q := recall_of (micro_counts m).
Definition micro_avg_f1 (m : Metric) : Q := f1_of (micro_counts m).

(** The other candidate the spec rules out: the mean of the per-type F1. *)
Definition macro_avg_f1 (m : Metric) : Q :=
  (fold_right (λ kc acc, f1_of (snd kc) + acc) 0 m
   / inject_Z (Z.of_nat (length m)))%Q.

(** ** Scoring *)

(** The body of the loop of [calc_entity_metrics] for one pair of span
    lists. *)
Definition score_context (m : Metric) (gold_sent_spans predicted_sent_spans : list Span)
    : Metric :=
  let m1 :=
    fold_left (λ m span,
        if span_in span gold_sent_spans then add_tp m span else add_fp m span)
      predicted_sent_spans m in
  fold_left (λ m span,
      if negb (span_in span predicted_sent_spans) then add_fn m span else m)
    gold_sent_spans m1.

(** [calc_entity_metrics]: [zip] stops at the shorter of its two lists. *)
Definition calc_entity_metrics (tags : list string)
    (gold_entity_spans predicted_entity_spans : list (list Span)) : Metric :=
  fold_left (λ m gp, score_context m (fst gp) (snd gp))
    (zip gold_entity_spans predicted_entity_spans) (new_metric tags).

Record EvaluatorQA : Type := mkEvaluatorQA {
  gold_entity_spans : list (list Span);
  predicted_entity_spans : list (list Span);
  entity_metric : Metric
}.

(** [list(self.dataset.tag_to_text_mapping.keys()) if self.dataset else ["TAG"]] *)
Definition evaluator_tags (truthy : NerQADataset → bool)
    (dataset : option NerQADataset) : list string :=
  match dataset with
  | Some d => if truthy d then tag_to_text_mapping_keys d else ["TAG"]
  | None => ["TAG"]
  end.

(** [EvaluatorQA.__init__] *)
Definition new_EvaluatorQA (get_tag_index : string → string → Z)
    (truthy : NerQADataset → bool) (gold predicted : list (list Z))
    (num_labels : Z) (none_tag : string) (dataset : option NerQADataset)
    : result EvaluatorQA :=
  gs ← decode get_tag_index truthy num_labels none_tag gold dataset gold;
  ps ← decode get_tag_index truthy num_labels none_tag gold dataset predicted;
  Ok {| gold_entity_spans := gs;
        predicted_entity_spans := ps;
        entity_metric := calc_entity_metrics (evaluator_tags truthy dataset) gs ps |}.

(** [NerQAExecutor.compute_metrics] of [main_qa.py]: no dataset is handed to
    the evaluator, and the value under ["micro_f1"] is returned. *)
Definition compute_metrics (get_tag_index : string → string → Z)
    (truthy : NerQADataset → bool) (num_labels : Z) (none_tag : string)
    (label_ids predictions : list (list Z)) : result Q :=
  evaluator ← new_EvaluatorQA get_tag_index truthy label_ids predictions
                 num_labels none_tag None;
  Ok (micro_avg_f1 (entity_metric evaluator)).

(** ** Shapes *)

(** Every position of [row] exists in [gold[context_index]]. *)
Definition row_covered (gold : list (list Z)) (context_index : nat)
    (row : list Z) : bool :=
  match row with
  | [] => true
  | _ :: _ =>
      match gold !! context_index with
      | Some gold_row => Nat.leb (length row) (length gold_row)
      | None => false
      end
  end.

Fixpoint covers_from (gold batch : list (list Z)) (context_index : nat) : bool :=
  match batch with
  | [] => true
  | row :: batch' =>
      row_covered gold context_index row && covers_from gold batch' (S context_index)
  end.

(** Every position of [batch] is a position of [gold]. *)
Definition covers (gold batch : list (list Z)) : bool := covers_from gold batch 0.

(** The first [n] positions of context [context_index] exist in [gold] and
    none of them holds the ignore value. *)
Definition no_ignored (gold : list (list Z)) (context_index n : nat) : bool :=
  forallb (λ t,
      match gold !! context_index with
      | Some row =>
          match row !! t with
          | Some g => negb (g =? IGNORE)
          | None => false
          end
      | None => false
      end) (seq 0 n).

(** The entity type of each of the first [n] contexts can be looked up. *)
Definition resolves (truthy : NerQADataset → bool)
    (dataset : option NerQADataset) (n : nat) : bool :=
  forallb (λ c,
      match resolve_tag truthy dataset c with
      | Ok _ => true
      | Raise _ => false
      end) (seq 0 n).

(** ** A concrete index layout *)

(** Modelled from the spec: [NerQADataset.get_tag_index] is not part of the
    sources at hand; "each class resolves to an index via a scheme-aware
    lookup that also accounts for the none/ignore tag's position in the
    vocabulary".  The results below hold for every such lookup; where a
    closed instance is needed, the none tag sits at index 0 and B, I, E, S
    follow it. *)
Definition tag_layout (tag none_tag : string) : Z :=
  if String.eqb tag none_tag then 0
  else if String.eqb tag "B" then 1
  else if String.eqb tag "I" then 2
  else if String.eqb tag "E" then 3
  else if String.eqb tag "S" then 4
  else 0.

Definition always_truthy (d : NerQADataset) : bool := true.

(** ** What a step can do to the state, and what a walk preserves *)

Section Effects.

Variable truthy : NerQADataset → bool.
Variable gold : list (list Z).
Variable dataset : option NerQADataset.

(** Nothing is appended or moved; the open span is kept or dropped. *)
Definition eff_keep (st st' : DecState) : Prop :=
  context_spans st' = context_spans st
  ∧ (prev_span st' = None ∨ prev_span st' = prev_span st).

(** A one-token span of the context's type is appended at a position that
    is not ignored. *)
Definition eff_new (c t : nat) (st st' : DecState) : Prop :=
  ∃ tag g,
    gold_at gold c t = Ok g ∧ g ≠ IGNORE ∧ resolve_tag truthy dataset c = Ok tag
    ∧ context_spans st' = context_spans st ++ [mkSpan c t t tag]
    ∧ (prev_span st' = None ∨ prev_span st' = Some (length (context_spans st))).

(** The end of the open span moves to a position that is not ignored. *)
Definition eff_grow (c t : nat) (st st' : DecState) : Prop :=
  ∃ r prev g,
    gold_at gold c t = Ok g ∧ g ≠ IGNORE
    ∧ prev_span st = Some r ∧ context_spans st !! r = Some prev
    ∧ context_spans st' = alter (set_end t) r (context_spans st)
    ∧ prev_span st' = Some r.

Definition step_effect (c t : nat) (st st' : DecState) : Prop :=
  eff_keep st st' ∨ eff_new c t st st' ∨ eff_grow c t st st'.

End Effects.

(** Each span ends before the next one starts. *)
Definition ordered (spans : list Span) : Prop :=
  ∀ i j si sj, (i < j)%nat → spans !! i = Some si → spans !! j = Some sj →
    (span_end si < span_start sj)%nat.

(** Before position [t] is visited: the open span, if any, is the span
    appended last; the spans are ordered; each lies wholly before [t]. *)
Definition decoder_inv (t : nat) (st : DecState) : Prop :=
  (∀ r, prev_span st = Some r → S r = length (context_spans st))
  ∧ ordered (context_spans st)
  ∧ (∀ s, s ∈ context_spans st →
       (span_start s ≤ span_end s)%nat ∧ (span_end s < t)%nat).

(** Every span of a walk over context [c] belongs to [c] and carries the type
    resolved for [c]. *)
Definition typed_inv (truthy : NerQADataset → bool)
    (dataset : option NerQADataset) (c : nat) (st : DecState) : Prop :=
  ∀ s, s ∈ context_spans st →
    span_context s = c ∧ resolve_tag truthy dataset c = Ok (span_tag s).

(** No span of the state starts or ends at position [p]. *)
Definition avoids (p : nat) (st : DecState) : Prop :=
  ∀ s, s ∈ context_spans st → span_start s ≠ p ∧ span_end s ≠ p.

(** ** Scoring, in the words of the specification

    "For each context, for each predicted span: if it is present (by value
    equality) in that context's gold span set, count as true positive for its
    entity type; otherwise false positive for its type.  For each gold span
    not present in the predicted span set for that context, false negative
    for its type."  The contexts are taken in pairs, gold with predicted. *)

Global Instance tag_eq_dec : EqDecision string := String.string_dec.

Global Instance span_eq_dec : EqDecision Span.
Proof. solve_decision. Defined.

Definition true_positives (t : string) (gold_spans predicted_spans : list (list Span))
    : nat :=
  sum_list_with
    (λ gp, length (filter (λ s, span_tag s = t ∧ s ∈ fst gp) (snd gp)))
    (zip gold_spans predicted_spans).

Definition false_positives (t : string) (gold_spans predicted_spans : list (list Span))
    : nat :=
  sum_list_with
    (λ gp, length (filter (λ s, span_tag s = t ∧ s ∉ fst gp) (snd gp)))
    (zip gold_spans predicted_spans).

Definition false_negatives (t : string) (gold_spans predicted_spans : list (list Span))
    : nat :=
  sum_list_with
    (λ gp, length (filter (λ s, span_tag s = t ∧ s ∉ snd gp) (fst gp)))
    (zip gold_spans predicted_spans).

(** The predicted spans of type [t], over the paired contexts. *)
Definition predicted_of_type (t : string) (gold_spans predicted_spans : list (list Span))
    : nat :=
  sum_list_with
    (λ gp, length (filter (λ s, span_tag s = t) (snd gp)))
    (zip gold_spans predicted_spans).

(** [n] calls of one accumulator method with the same span. *)
Definition repeat_call (f : Metric → Span → Metric) (n : nat) (span : Span)
    (m : Metric) : Metric :=
  Nat.iter n (λ m, f m span) m.

(** The accumulator of the spec's example: two types with
    (tp, fp, fn) = (8, 2, 0) and (2, 0, 8). *)
Definition two_type_metric : Metric :=
  let a := mkSpan 0 0 0 "A" in
  let b := mkSpan 0 0 0 "B" in
  repeat_call add_fn 8 b
    (repeat_call add_tp 2 b
       (repeat_call add_fp 2 a
          (repeat_call add_tp 8 a (new_metric ["A"; "B"])))).

(** ** The tags behind a decoded span *)

Section Tags.

Variable get_tag_index : string → string → Z.
Variable truthy : NerQADataset → bool.
Variable num_labels : Z.
Variable none_tag : string.
Variable gold : list (list Z).
Variable dataset : option NerQADataset.

(** The gold array has position [t] of context [c], and it is not ignored. *)
Definition scorable (c t : nat) : Prop :=
  ∃ g, gold_at gold c t = Ok g ∧ g ≠ IGNORE.

(** The tags at which the selected decoder appends a span: B, and S where
    [get_spans] is in charge. *)
Definition start_tag (v : Z) : Prop :=
  v = b_tag_index get_tag_index none_tag
  ∨ (num_labels ≠ 2 ∧ v = s_tag_index get_tag_index none_tag).

(** The tags at which the selected decoder can move the end of the open
    span: B under the 2-tag scheme; an I or an E that is neither B nor S
    otherwise. *)
Definition interior_tag (v : Z) : Prop :=
  (num_labels = 2 ∧ v = b_tag_index get_tag_index none_tag)
  ∨ (num_labels ≠ 2
     ∧ v ≠ b_tag_index get_tag_index none_tag
     ∧ v ≠ s_tag_index get_tag_index none_tag
     ∧ (v = i_tag_index get_tag_index none_tag
        ∨ v = e_tag_index get_tag_index none_tag)).

(** What a step does, by the tag it meets. *)
Definition det_ignored (c t : nat) (st st' : DecState) : Prop :=
  gold_at gold c t = Ok IGNORE
  ∧ context_spans st' = context_spans st ∧ prev_span st' = None.

Definition det_close (c t : nat) (v : Z) (st st' : DecState) : Prop :=
  scorable c t ∧ ¬ start_tag v
  ∧ context_spans st' = context_spans st ∧ prev_span st' = None.

Definition det_keep (c t : nat) (v : Z) (st st' : DecState) : Prop :=
  scorable c t ∧ num_labels ≠ 2 ∧ num_labels ≠ 3 ∧ interior_tag v
  ∧ is_Some (prev_span st) ∧ st' = st.

Definition det_new (c t : nat) (v : Z) (st st' : DecState) : Prop :=
  ∃ tag,
    scorable c t ∧ start_tag v ∧ resolve_tag truthy dataset c = Ok tag
    ∧ context_spans st' = context_spans st ++ [mkSpan c t t tag]
    ∧ ((v = b_tag_index get_tag_index none_tag
        ∧ prev_span st' = Some (length (context_spans st)))
       ∨ (v ≠ b_tag_index get_tag_index none_tag ∧ prev_span st' = None)).

Definition det_grow (c t : nat) (v : Z) (st st' : DecState) : Prop :=
  ∃ r prev,
    scorable c t ∧ interior_tag v
    ∧ prev_span st = Some r ∧ context_spans st !! r = Some prev
    ∧ context_spans st' = alter (set_end t) r (context_spans st)
    ∧ prev_span st' = Some r.

Definition step_detail (c t : nat) (v : Z) (st st' : DecState) : Prop :=
  det_ignored c t st st' ∨ det_close c t v st st' ∨ det_keep c t v st st'
  ∨ det_new c t v st st' ∨ det_grow c t v st st'.

(** What holds of the spans while the walk over [row] stands before
    position [t]. *)
Definition span_shape (c : nat) (row : list Z) (s : Span) : Prop :=
  (∃ v, row !! span_start s = Some v ∧ start_tag v)
  ∧ (∀ p, (span_start s ≤ p ≤ span_end s)%nat → scorable c p)
  ∧ (∀ p v, (span_start s < p ≤ span_end s)%nat → row !! p = Some v →
       interior_tag v)
  ∧ (∀ v, row !! span_start s = Some v →
       v ≠ b_tag_index get_tag_index none_tag → span_end s = span_start s).

Definition open_shape (c : nat) (row : list Z) (t : nat) (st : DecState) : Prop :=
  ∀ r prev, prev_span st = Some r → context_spans st !! r = Some prev →
    row !! span_start prev = Some (b_tag_index get_tag_index none_tag)
    ∧ (∀ p, (span_start prev ≤ p < t)%nat → scorable c p)
    ∧ (∀ p v, (span_start prev < p < t)%nat → row !! p = Some v →
         interior_tag v)
    ∧ (num_labels = 2 → S (span_end prev) = t).

Definition complete (c : nat) (row : list Z) (t : nat) (st : DecState) : Prop :=
  ∀ p v, (p < t)%nat → scorable c p → row !! p = Some v → start_tag v →
    ∃ s, s ∈ context_spans st
         ∧ (span_start s ≤ p ≤ span_end s)%nat
         ∧ (num_labels ≠ 2 → span_start s = p).

Definition walk_inv (c : nat) (row : list Z) (t : nat) (st : DecState) : Prop :=
  decoder_inv t st
  ∧ (∀ s, s ∈ context_spans st → span_shape c row s)
  ∧ open_shape c row t st
  ∧ complete c row t st.

End Tags.

(** The spans of type [t] in a list of per-context span lists. *)
Definition spans_of_type (t : string) (spans : list (list Span)) : nat :=
  sum_list_with (λ g, length (filter (λ s, span_tag s = t) g)) spans.

(** A span list keeps what an earlier one held: position by position the
    same start, context and type, an end that is no smaller, and the very
    same span everywhere but at the last position of the earlier list. *)
Definition extends_spans (earlier later : list Span) : Prop :=
  ∀ i s1, earlier !! i = Some s1 →
    ∃ s2, later !! i = Some s2
      ∧ span_context s2 = span_context s1
      ∧ span_start s2 = span_start s1
      ∧ span_tag s2 = span_tag s1
      ∧ (span_end s1 ≤ span_end s2)%nat
      ∧ (S i < length earlier → s2 = s1)%nat.

(** ** Mapping sub-word predictions back to the tokens of a sentence *)

(** Modelled from the spec: the classes behind [dataset.contexts] are not
    part of the sources at hand.  A context is "a token sequence paired with
    exactly one candidate entity type", with an "ordered sequence of tokens
    (sub-word units with offsets into original tokens)" and "an entity-type
    label".  [bert_to_orig_token_mapping1] reads [tok.text] and [tok.tags]
    of the tokens of [context.sentence], [bt.token_type] and
    [bt.token.offset] of the sub-word tokens in [context.bert_tokens], and
    [context.entity]. *)
Record Token : Type := mkToken {
  text : string;
  tags : list string
}.

Record BertToken : Type := mkBertToken {
  token_type : Z;
  token_offset : Z
}.

Record QAContext : Type := mkQAContext {
  sentence_tokens : list Token;
  bert_tokens : list BertToken;
  context_entity : string
}.

(** One line of the output, the list [[tok.text, gold_tag, predicted_tag]]. *)
Record OutRow : Type := mkOutRow {
  row_text : string;
  row_gold : string;
  row_pred : string
}.

(** [row[2] = tag_assignment] *)
Definition set_pred (tag_assignment : string) (row : OutRow) : OutRow :=
  {| row_text := row_text row; row_gold := row_gold row;
     row_pred := tag_assignment |}.

(** [" ".join([tok.text for tok in context.sentence.tokens])] *)
Definition sentence_text (context : QAContext) : string :=
  String.concat " " (map text (sentence_tokens context)).

Section Mapping.

Variable get_tag_index : string → string → Z.

(** [self.additional_args.pad_tag] and [self.additional_args.none_tag] *)
Variable pad_tag : string.
Variable none_tag : string.

(** [len(dataset)], [dataset.contexts] and the predictions. *)
Variable len_dataset : nat.
Variable contexts : list QAContext.
Variable model_predictions : list (list Z).

(** The tag written for the prediction [v] of a sub-word token. *)
Definition tag_assignment (entity : string) (v : Z) : string :=
  if (v =? get_tag_index "B" none_tag) || (v =? get_tag_index "S" none_tag)
  then String.append "B-" entity
  else if (v =? get_tag_index "I" none_tag) || (v =? get_tag_index "E" none_tag)
  then String.append "I-" entity
  else none_tag.

(** The fresh entry of a sentence: one row per token, with the first gold
    tag of the token and the pad tag as prediction. *)
Fixpoint make_entry (tokens : list Token) : result (list OutRow) :=
  match tokens with
  | [] => Ok []
  | tok :: tokens' =>
      gold_tag ← index (tags tok) 0%nat;
      entry ← make_entry tokens';
      Ok ({| row_text := text tok; row_gold := gold_tag; row_pred := pad_tag |}
          :: entry)
  end.

(** [x not in [pad_tag, none_tag]] *)
Definition assigned (predicted : string) : bool :=
  negb (String.eqb predicted pad_tag || String.eqb predicted none_tag).

(** The body of the loop over the sub-word tokens, on the entry of the
    sentence and the pointer [ptr]. *)
Definition assign_step (context : QAContext) (prediction : list Z) (j : nat)
    (acc : list OutRow * nat) : result (list OutRow * nat) :=
  let '(entry, ptr) := acc in
  bt ← index (bert_tokens context) j;
  if token_type bt =? 0 then Ok (entry, ptr)
  else if negb (token_offset bt =? Z.of_nat ptr) then Ok (entry, ptr)
  else
    row ← index entry ptr;
    if assigned (row_pred row) then Ok (entry, S ptr)
    else
      v ← index prediction j;
      Ok (<[ptr := set_pred (tag_assignment (context_entity context) v) row]> entry,
          S ptr).

Fixpoint assign_loop (context : QAContext) (prediction : list Z) (js : list nat)
    (acc : list OutRow * nat) : result (list OutRow * nat) :=
  match js with
  | [] => Ok acc
  | j :: js' =>
      acc' ← assign_step context prediction j acc;
      assign_loop context prediction js' acc'
  end.

(** The body of the loop over [range(len(dataset))]. *)
Definition context_step (i : nat) (data_dict : gmap string (list OutRow))
    : result (gmap string (list OutRow)) :=
  context ← index contexts i;
  let text_sentence := sentence_text context in
  prediction ← index model_predictions i;
  entry ← match data_dict !! text_sentence with
          | Some entry => Ok entry
          | None => make_entry (sentence_tokens context)
          end;
  let r := Nat.min (length prediction) (length (bert_tokens context)) in
  '(entry', _) ← assign_loop context prediction (seq 0 r) (entry, 0%nat);
  Ok (<[text_sentence := entry']> data_dict).

Fixpoint context_loop (indices : list nat) (data_dict : gmap string (list OutRow))
    : result (gmap string (list OutRow)) :=
  match indices with
  | [] => Ok data_dict
  | i :: indices' =>
      data_dict' ← context_step i data_dict;
      context_loop indices' data_dict'
  end.

(** The last loop: each sentence is moved out of the dictionary the first
    time one of its contexts comes by. *)
Fixpoint collect (ctxs : list QAContext) (data_dict : gmap string (list OutRow))
    (data : list (list OutRow)) : list (list OutRow) :=
  match ctxs with
  | [] => data
  | context :: ctxs' =>
      let text_sentence := sentence_text context in
      match data_dict !! text_sentence with
      | Some entry => collect ctxs' (delete text_sentence data_dict) (data ++ [entry])
      | None => collect ctxs' data_dict data
      end
  end.

Definition bert_to_orig_token_mapping1 : result (list (list OutRow)) :=
  data_dict ← context_loop (seq 0 len_dataset) ∅;
  Ok (collect contexts data_dict []).

End Mapping.

(** The text of the sentence an entry stands for. *)
Definition entry_text (entry : list OutRow) : string :=
  String.concat " " (map row_text entry).

(** An entry mirrors the tokens of a sentence: row by row the text of the
    token and its first tag. *)
Definition mirrors (entry : list OutRow) (tokens : list Token) : Prop :=
  map row_text entry = map text tokens
  ∧ map (λ row, Some (row_gold row)) entry = map (λ tok, tags tok !! 0%nat) tokens.

(** The predicted tags that can stand in an entry of the sentence [key]: the
    pad tag, the none tag, or B- or I- followed by the entity type of a
    context of that sentence. *)
Definition pred_ok (pad_tag none_tag : string) (contexts : list QAContext)
    (key : string) (predicted : string) : Prop :=
  predicted = pad_tag ∨ predicted = none_tag
  ∨ ∃ context, context ∈ contexts ∧ sentence_text context = key
      ∧ (predicted = String.append "B-" (context_entity context)
         ∨ predicted = String.append "I-" (context_entity context)).

Definition entry_ok (pad_tag none_tag : string) (contexts : list QAContext)
    (key : string) (entry : list OutRow) : Prop :=
  (∃ context, context ∈ contexts ∧ sentence_text context = key
     ∧ mirrors entry (sentence_tokens context))
  ∧ Forall (λ row, pred_ok pad_tag none_tag contexts key (row_pred row)) entry.

Definition dict_ok (pad_tag none_tag : string) (contexts : list QAContext)
    (data_dict : gmap string (list OutRow)) : Prop :=
  ∀ key entry, data_dict !! key = Some entry →
    entry_ok pad_tag none_tag contexts key entry.

(** An entry keeps the rows of an earlier one that already hold an entity
    tag. *)
Definition keeps_assigned (pad_tag none_tag : string)
    (earlier later : list OutRow) : Prop :=
  length later = length earlier
  ∧ ∀ k row, earlier !! k = Some row →
      assigned pad_tag none_tag (row_pred row) = true → later !! k = Some row.

(** A small data set for closed instances: one sentence asked about two
    entity types, and a second sentence. *)
Definition sample_tokens : list Token :=
  [mkToken "John" ["B-PER"]; mkToken "runs" ["O"]].

Definition sample_bert_tokens : list BertToken :=
  [mkBertToken 0 0; mkBertToken 1 0; mkBertToken 1 0; mkBertToken 1 1;
   mkBertToken 0 0].

Definition sample_contexts : list QAContext :=
  [mkQAContext sample_tokens sample_bert_tokens "PER";
   mkQAContext sample_tokens sample_bert_tokens "LOC";
   mkQAContext [mkToken "Hi" ["O"]] [mkBertToken 0 0; mkBertToken 1 0] "PER"].

Definition sample_predictions : list (list Z) :=
  [[0; 1; 2; 0; 0]; [0; 1; 0; 1; 0]; [0; 0]].

(** ** Corpus conversion ([utils/generate_bio.py]) *)

(** An annotation, the list [[tag, start, end, phrase]] that
    [read_annotations] builds; [start] and [end] come out of [int(..)]. *)
Record Annotation : Type := mkAnnotation {
  ann_tag : string;
  ann_start : Z;
  ann_end : Z;
  ann_phrase : string
}.

(** The first loop over [tags] of [make_entry_context]: an annotation is
    kept when it starts no earlier than the last kept one ended, and counted
    as an error otherwise.  The message printed for an error reads
    [non_overlap_tags[-1]], which raises on an empty list. *)
Definition non_overlap_step (acc : list Annotation * Z * nat) (tag : Annotation)
    : result (list Annotation * Z * nat) :=
  let '(non_overlap_tags, start, error_cnt) := acc in
  if start <=? ann_start tag then
    Ok (non_overlap_tags ++ [tag], ann_end tag, error_cnt)
  else
    match last non_overlap_tags with
    | Some _ => Ok (non_overlap_tags, start, S error_cnt)
    | None => Raise IndexError
    end.

Fixpoint non_overlap_loop (tags : list Annotation) (acc : list Annotation * Z * nat)
    : result (list Annotation * Z * nat) :=
  match tags with
  | [] => Ok acc
  | tag :: tags' =>
      acc' ← non_overlap_step acc tag;
      non_overlap_loop tags' acc'
  end.

(** The kept annotations and the number of errors. *)
Definition non_overlap (tags : list Annotation) : result (list Annotation * nat) :=
  '(non_overlap_tags, _, error_cnt) ← non_overlap_loop tags ([], 0, 0%nat);
  Ok (non_overlap_tags, error_cnt).

(** Each annotation starts no earlier than [start], and no earlier than the
    one before it ended. *)
Fixpoint chained (start : Z) (tags : list Annotation) : Prop :=
  match tags with
  | [] => True
  | tag :: tags' => start ≤ ann_start tag ∧ chained (ann_end tag) tags'
  end.

(** The local variables of the last loop of [make_entry_context]. *)
Record SplitState : Type := mkSplitState {
  split_sentences : list (list Token);
  split_start : nat;
  do_split : bool
}.

(** The body of the loop over [range(len(final_tokens))], for the token
    [tok = final_tokens[i]]; [final_tokens[start: i + 1]] is the slice from
    [start] up to and including [i]. *)
Definition split_step (final_tokens : list Token) (i : nat) (tok : Token)
    (st : SplitState) : SplitState :=
  let do_split1 :=
    if 300 <=? Z.of_nat i - Z.of_nat (split_start st) then true else do_split st in
  if do_split1 && String.eqb (text tok) "." then
    {| split_sentences :=
         split_sentences st
         ++ [take (S i - split_start st) (drop (split_start st) final_tokens)];
       split_start := S i;
       do_split := false |}
  else
    {| split_sentences := split_sentences st;
       split_start := split_start st;
       do_split := do_split1 |}.

Fixpoint split_loop (final_tokens rest : list Token) (i : nat) (st : SplitState)
    : SplitState :=
  match rest with
  | [] => st
  | tok :: rest' => split_loop final_tokens rest' (S i) (split_step final_tokens i tok st)
  end.

(** The sentences [make_entry_context] returns for [final_tokens]: a sentence
    is closed at the first full stop met once it holds 300 tokens, and what
    is left at the end makes the last sentence. *)
Definition split_into_sentences (final_tokens : list Token) : list (list Token) :=
  let st :=
    split_loop final_tokens final_tokens 0
      {| split_sentences := []; split_start := 0; do_split := false |} in
  if Nat.ltb (split_start st) (length final_tokens)
  then split_sentences st ++ [drop (split_start st) final_tokens]
  else split_sentences st.

(** What holds of the state before position [i] is visited. *)
Definition split_inv (final_tokens : list Token) (i : nat) (st : SplitState) : Prop :=
  (split_start st ≤ i)%nat
  ∧ concat (split_sentences st) = take (split_start st) final_tokens
  ∧ (do_split st = true ↔ (300 < i - split_start st)%nat)
  ∧ (∀ j tok, (split_start st + 300 ≤ j < i)%nat → final_tokens !! j = Some tok →
       text tok ≠ ".")
  ∧ Forall (λ s, (300 < length s)%nat
                 ∧ (∃ tok, last s = Some tok ∧ text tok = ".")
                 ∧ ∀ j tok, s !! j = Some tok → text tok = "." →
                     (300 ≤ j)%nat → S j = length s)
      (split_sentences st).

(** Where a chain that starts at [start] ends. *)
Fixpoint chain_end (start : Z) (tags : list Annotation) : Z :=
  match tags with
  | [] => start
  | tag :: tags' => chain_end (ann_end tag) tags'
  end.

(** The value of [tok.tags] in [make_entry_context]: the list a token is
    built with, [Token(tok, ["O"])], or the string the tagging loop assigns
    to it. *)
Inductive TagsValue : Type :=
| TagList (l : list string)
| TagStr (s : string).

(** An element of [token_with_pos], the pair [(Token(text, tags), (start,
    end))]; [tok[1][0]] is [pos_start] and [tok[1][1]] is [pos_end]. *)
Record PosToken : Type := mkPosToken {
  pos_text : string;
  pos_tags : TagsValue;
  pos_start : Z;
  pos_end : Z
}.

(** [tok[0].tags = s] *)
Definition set_tags (s : string) (tok : PosToken) : PosToken :=
  {| pos_text := pos_text tok; pos_tags := TagStr s;
     pos_start := pos_start tok; pos_end := pos_end tok |}.

(** The body of the loop over [token_with_pos] up to the test of the end
    position: the token as it is left, and [found_start]. *)
Definition tag_token (tag : Annotation) (found_start : bool) (tok : PosToken)
    : PosToken * bool :=
  if pos_start tok =? ann_start tag then
    (set_tags (String.append "B-" (ann_tag tag)) tok, true)
  else if found_start && (ann_start tag <? pos_start tok)
          && (pos_end tok <=? ann_end tag) then
    (set_tags (String.append "I-" (ann_tag tag)) tok, found_start)
  else (tok, found_start).

(** The loop over [token_with_pos] for one annotation; it is left at the
    first token that ends where the annotation ends.  The result holds the
    tokens, [found_start] and [found_end]. *)
Fixpoint tag_tokens (tag : Annotation) (token_with_pos : list PosToken)
    (found_start : bool) : list PosToken * bool * bool :=
  match token_with_pos with
  | [] => ([], found_start, false)
  | tok :: rest =>
      let '(tok', found_start') := tag_token tag found_start tok in
      if pos_end tok =? ann_end tag then (tok' :: rest, found_start', true)
      else
        let '(rest', found_start'', found_end) :=
          tag_tokens tag rest found_start' in
        (tok' :: rest', found_start'', found_end)
  end.

(** The body of the loop over [non_overlap_tags]. *)
Definition assign_tags_step (acc : list PosToken * nat) (tag : Annotation)
    : list PosToken * nat :=
  let '(token_with_pos, error_cnt) := acc in
  let '(token_with_pos', found_start, found_end) :=
    tag_tokens tag token_with_pos false in
  (token_with_pos',
   if negb (found_start && found_end) then S error_cnt else error_cnt).

Definition assign_tags (non_overlap_tags : list Annotation)
    (token_with_pos : list PosToken) (error_cnt : nat) : list PosToken * nat :=
  foldl assign_tags_step (token_with_pos, error_cnt) non_overlap_tags.

(** Two tokens that differ in their tags at most. *)
Definition same_token (tok tok' : PosToken) : Prop :=
  pos_text tok' = pos_text tok ∧ pos_start tok' = pos_start tok
  ∧ pos_end tok' = pos_end tok.

(** The tokens follow one another from [lo] on and none is empty, as the
    pieces of a split text do. *)
Fixpoint sorted_from (lo : Z) (token_with_pos : list PosToken) : Prop :=
  match token_with_pos with
  | [] => True
  | tok :: rest =>
      lo ≤ pos_start tok ∧ pos_start tok < pos_end tok
      ∧ sorted_from (pos_end tok) rest
  end.

(** Some token starts where the annotation starts; some token ends where it
    ends. *)
Definition has_start (tag : Annotation) (token_with_pos : list PosToken) : bool :=
  existsb (λ tok, pos_start tok =? ann_start tag) token_with_pos.

Definition has_end (tag : Annotation) (token_with_pos : list PosToken) : bool :=
  existsb (λ tok, pos_end tok =? ann_end tag) token_with_pos.

(** An annotation both ends of which fall on token boundaries. *)
Definition aligned (token_with_pos : list PosToken) (tag : Annotation) : bool :=
  has_start tag token_with_pos && has_end tag token_with_pos.

(** What the annotation [tag] has done to a token [tok] that now reads
    [tok']: tagged it as the beginning or as the inside of the annotation. *)
Definition touched_by (tag : Annotation) (tok tok' : PosToken) : Prop :=
  (pos_tags tok' = TagStr (String.append "B-" (ann_tag tag))
   ∧ pos_start tok = ann_start tag)
  ∨ (pos_tags tok' = TagStr (String.append "I-" (ann_tag tag))
     ∧ ann_start tag < pos_start tok ∧ pos_end tok ≤ ann_end tag).

(** A token seen by all the annotations in turn, when [starts tag] tells
    whether some token starts where [tag] does. *)
Definition tag_through (starts : Annotation → bool) (anns : list Annotation)
    (tok : PosToken) : PosToken :=
  foldl (λ tok tag, (tag_token tag (starts tag) tok).1) tok anns.

(** Four tokens with their positions in ["John Smith runs."] and two
    annotations, the second of which starts inside a token. *)
Definition sample_token_with_pos : list PosToken :=
  [mkPosToken "John" (TagList ["O"]) 0 4;
   mkPosToken "Smith" (TagList ["O"]) 5 10;
   mkPosToken "runs" (TagList ["O"]) 11 15;
   mkPosToken "." (TagList ["O"]) 15 16].

Definition sample_annotations : list Annotation :=
  [mkAnnotation "PER" 0 10 "John Smith"; mkAnnotation "ACT" 12 15 "uns"].

(** ** Head masks ([model_crf.py], [model_roberta.py])

    [compress_with_head_mask] and [expand_with_head_mask] are the same in
    both model classes.  A tensor is the list of its rows; an entry of type
    [A] is a number or, for a tensor of three dimensions, the vector
    [x[i, j]].  The entries of the head mask are integers. *)

Section HeadMask.
Context {A : Type}.

(** [torch.full(x.shape, fill_value=pad_value, ...)]; for a tensor of three
    dimensions [pad_value] stands for the vector filled with it. *)
Definition full (x : list (list A)) (pad_value : A) : list (list A) :=
  (λ row, replicate (length row) pad_value) <$> x.

(** [row[k]] for an index that may be negative and then counts from the
    end. *)
Definition item (row : list A) (k : Z) : option A :=
  let k' := if k <? 0 then k + Z.of_nat (length row) else k in
  if k' <? 0 then None else row !! Z.to_nat k'.

(** [x[i, k]] *)
Definition tensor_get (x : list (list A)) (i : nat) (k : Z) : result A :=
  match x !! i with
  | None => Raise IndexError
  | Some row =>
      match item row k with
      | Some v => Ok v
      | None => Raise IndexError
      end
  end.

(** [new_x[i, k] = v], for [i] and [k] that are not negative. *)
Definition tensor_set (new_x : list (list A)) (i k : nat) (v : A)
    : result (list (list A)) :=
  match new_x !! i with
  | None => Raise IndexError
  | Some row =>
      if decide (k < length row)%nat then Ok (<[i := <[k := v]> row]> new_x)
      else Raise IndexError
  end.

(** The body of the loop over [j] of [compress_with_head_mask], for
    [m = head_mask[i, j]]. *)
Definition compress_step (x : list (list A)) (i j : nat) (m : Z)
    (st : list (list A) * nat) : result (list (list A) * nat) :=
  let '(new_x, k) := st in
  if m =? 1 then
    v ← tensor_get x i (Z.of_nat j);
    new_x' ← tensor_set new_x i k v;
    Ok (new_x', S k)
  else Ok (new_x, k).

Fixpoint compress_row_loop (x : list (list A)) (i : nat) (mask_row : list Z)
    (j : nat) (st : list (list A) * nat) : result (list (list A) * nat) :=
  match mask_row with
  | [] => Ok st
  | m :: mask_row' =>
      st' ← compress_step x i j m st;
      compress_row_loop x i mask_row' (S j) st'
  end.

Fixpoint compress_loop (x : list (list A)) (head_mask : list (list Z)) (i : nat)
    (new_x : list (list A)) : result (list (list A)) :=
  match head_mask with
  | [] => Ok new_x
  | mask_row :: head_mask' =>
      '(new_x', _) ← compress_row_loop x i mask_row 0 (new_x, 0%nat);
      compress_loop x head_mask' (S i) new_x'
  end.

Definition compress_with_head_mask (use_head_mask : bool)
    (head_mask : list (list Z)) (x : list (list A)) (pad_value : A)
    : result (list (list A)) :=
  if negb use_head_mask then Ok x
  else compress_loop x head_mask 0 (full x pad_value).

(** The body of the loop over [j] of [expand_with_head_mask]. *)
Definition expand_step (x : list (list A)) (i j : nat) (m : Z)
    (st : list (list A) * Z) : result (list (list A) * Z) :=
  let '(new_x, k) := st in
  let k := if m =? 1 then k + 1 else k in
  v ← tensor_get x i k;
  new_x' ← tensor_set new_x i j v;
  Ok (new_x', k).

Fixpoint expand_row_loop (x : list (list A)) (i : nat) (mask_row : list Z)
    (j : nat) (st : list (list A) * Z) : result (list (list A) * Z) :=
  match mask_row with
  | [] => Ok st
  | m :: mask_row' =>
      st' ← expand_step x i j m st;
      expand_row_loop x i mask_row' (S j) st'
  end.

Fixpoint expand_loop (x : list (list A)) (head_mask : list (list Z)) (i : nat)
    (new_x : list (list A)) : result (list (list A)) :=
  match head_mask with
  | [] => Ok new_x
  | mask_row :: head_mask' =>
      '(new_x', _) ← expand_row_loop x i mask_row 0 (new_x, -1);
      expand_loop x head_mask' (S i) new_x'
  end.

Definition expand_with_head_mask (use_head_mask : bool)
    (head_mask : list (list Z)) (x : list (list A)) (pad_value : A)
    : result (list (list A)) :=
  if negb use_head_mask then Ok x
  else expand_loop x head_mask 0 (full x pad_value).

(** The entries of [row] at the positions where [mask_row] holds 1. *)
Fixpoint head_values (mask_row : list Z) (row : list A) : list A :=
  match mask_row, row with
  | m :: mask_row', v :: row' =>
      if m =? 1 then v :: head_values mask_row' row'
      else head_values mask_row' row'
  | _, _ => []
  end.

(** The head entries moved to the front, the rest of the row padded. *)
Definition compress_row (pad_value : A) (mask_row : list Z) (row : list A)
    : list A :=
  head_values mask_row row
  ++ replicate (length row - length (head_values mask_row row)) pad_value.

(** The rows of [x] compressed, as far as the mask has rows. *)
Fixpoint compress_rows (pad_value : A) (head_mask : list (list Z))
    (x : list (list A)) : list (list A) :=
  match x with
  | [] => []
  | row :: x' =>
      match head_mask with
      | [] => replicate (length row) pad_value :: compress_rows pad_value [] x'
      | mask_row :: head_mask' =>
          compress_row pad_value mask_row row
          :: compress_rows pad_value head_mask' x'
      end
  end.

(** What the loop of [expand_with_head_mask] writes for a mask row when it
    has counted up to [k]. *)
Fixpoint expand_values (pad_value : A) (row : list A) (k : Z)
    (mask_row : list Z) : list A :=
  match mask_row with
  | [] => []
  | m :: mask_row' =>
      let k' := if m =? 1 then k + 1 else k in
      default pad_value (item row k') :: expand_values pad_value row k' mask_row'
  end.

Definition expand_row (pad_value : A) (mask_row : list Z) (row : list A)
    : list A :=
  expand_values pad_value row (-1) mask_row
  ++ replicate (length row - length mask_row) pad_value.

Fixpoint expand_rows (pad_value : A) (head_mask : list (list Z))
    (x : list (list A)) : list (list A) :=
  match x with
  | [] => []
  | row :: x' =>
      match head_mask with
      | [] => replicate (length row) pad_value :: expand_rows pad_value [] x'
      | mask_row :: head_mask' =>
          expand_row pad_value mask_row row
          :: expand_rows pad_value head_mask' x'
      end
  end.

End HeadMask.

(** The entry at row [i] and column [j], if the tensor has one. *)
Definition entry {B : Type} (x : list (list B)) (i j : nat) : option B :=
  x !! i ≫= (.!! j).

(** How many entries of a mask row are 1. *)
Fixpoint count_heads (mask_row : list Z) : nat :=
  match mask_row with
  | [] => 0%nat
  | m :: mask_row' =>
      ((if (m =? 1)%Z then 1 else 0) + count_heads mask_row')%nat
  end.

(** All 1s of a mask row that starts at column [j] lie left of column [n]. *)
Fixpoint ones_within (n j : nat) (mask_row : list Z) : bool :=
  match mask_row with
  | [] => true
  | m :: mask_row' =>
      (negb (m =? 1) || Nat.ltb j n) && ones_within n (S j) mask_row'
  end.

(** The length of row [i]; a tensor has no entry in a row it lacks. *)
Definition row_length {B : Type} (x : list (list B)) (i : nat) : nat :=
  from_option length 0%nat (x !! i).

(** All 1s of the mask rows, the first of which is row [i], lie within [x]. *)
Fixpoint mask_within {B : Type} (x : list (list B)) (i : nat)
    (head_mask : list (list Z)) : bool :=
  match head_mask with
  | [] => true
  | mask_row :: head_mask' =>
      ones_within (row_length x i) 0 mask_row && mask_within x (S i) head_mask'
  end.

(** A mask row that starts at column [j] ends by column [n]. *)
Definition row_fits (n j : nat) (mask_row : list Z) : bool :=
  match mask_row with
  | [] => true
  | _ => Nat.leb (j + length mask_row) n
  end.

(** All positions of the mask rows, the first of which is row [i], lie
    within [x]. *)
Fixpoint mask_fits {B : Type} (x : list (list B)) (i : nat)
    (head_mask : list (list Z)) : bool :=
  match head_mask with
  | [] => true
  | mask_row :: head_mask' =>
      row_fits (row_length x i) 0 mask_row && mask_fits x (S i) head_mask'
  end.

(** Two tensors of the same shape: as many rows, of the same lengths. *)
Definition same_shape {B C : Type} (m : list (list B)) (x : list (list C)) : Prop :=
  length <$> m = length <$> x.

(** * Properties *)

(** ** The error monad *)

Lemma bind_Ok {A B : Type} (m : result A) (k : A → result B) (b : B) :
  m ≫= k = Ok b → ∃ a, m = Ok a ∧ k a = Ok b.
Proof. destruct m as [a|e]; simpl; [eauto | discriminate]. Qed.

Lemma bind_Ok_l {A B : Type} (m : result A) (k : A → result B) (a : A) :
  m = Ok a → m ≫= k = k a.
Proof. by intros ->. Qed.

Lemma result_exn {A : Type} (m : result A) :
  (∃ a, m = Ok a) ∨ m = Raise IndexError.
Proof. destruct m as [a|[]]; eauto. Qed.

Lemma index_Ok {A : Type} (xs : list A) (i : nat) (x : A) :
  index xs i = Ok x ↔ xs !! i = Some x.
Proof. unfold index. destruct (xs !! i); split; congruence. Qed.

Lemma gold_at_Ok (gold : list (list Z)) (c t : nat) (g : Z) :
  gold_at gold c t = Ok g ↔ ∃ row, gold !! c = Some row ∧ row !! t = Some g.
Proof.
  unfold gold_at. split.
  - intros H. apply bind_Ok in H as (row & Hrow & Hg).
    exists row. by rewrite <- !index_Ok.
  - intros (row & Hrow & Hg). apply index_Ok in Hrow, Hg. by rewrite Hrow.
Qed.

(** ** Value equality of spans *)

Lemma span_eqb_eq (a b : Span) : span_eqb a b = true ↔ a = b.
Proof.
  unfold span_eqb. destruct a, b; simpl.
  rewrite !andb_true_iff, !Nat.eqb_eq, String.eqb_eq.
  split; [intros [[[-> ->] ->] ->]; done | intros [= -> -> -> ->]; done].
Qed.

Lemma span_in_elem_of (s : Span) (spans : list Span) :
  span_in s spans = true ↔ s ∈ spans.
Proof.
  unfold span_in. rewrite existsb_exists. split.
  - intros (x & Hin & Heq). apply span_eqb_eq in Heq as ->.
    by apply list_elem_of_In.
  - intros Hin. exists s. split; [by apply list_elem_of_In | by apply span_eqb_eq].
Qed.

(** ** What one step of either decoder can do to the state *)

Section StepEffect.

Variable get_tag_index : string → string → Z.
Variable truthy : NerQADataset → bool.
Variable num_labels : Z.
Variable none_tag : string.
Variable gold : list (list Z).
Variable dataset : option NerQADataset.

Lemma deref_Some (st : DecState) (prev : Span) :
  deref st = Some prev →
  ∃ r, prev_span st = Some r ∧ context_spans st !! r = Some prev.
Proof. unfold deref. destruct (prev_span st) as [r|]; [eauto | discriminate]. Qed.

Lemma get_spans_step_effect (c t : nat) (v : Z) (st st' : DecState) (br : Branch) :
  get_spans_step get_tag_index truthy num_labels none_tag gold dataset c t v st
    = Ok (st', br) →
  step_effect truthy gold dataset c t st st'.
Proof.
  unfold get_spans_step, step_effect. intros H.
  apply bind_Ok in H as (g & Hg & H).
  destruct (g =? IGNORE) eqn:Eg.
  { injection H as <- <-. left. split; simpl; auto. }
  apply Z.eqb_neq in Eg.
  destruct (v =? b_tag_index _ _).
  { apply bind_Ok in H as (tag & Htag & H). simpl in H. injection H as <- <-.
    right; left. exists tag, g. simpl. auto 10. }
  destruct (v =? s_tag_index _ _).
  { apply bind_Ok in H as (tag & Htag & H). simpl in H. injection H as <- <-.
    right; left. exists tag, g. simpl. auto 10. }
  destruct (deref st) as [prev|] eqn:Ed.
  2:{ injection H as <- <-. left. split; simpl; auto. }
  apply deref_Some in Ed as (r & Hr & Hprev).
  destruct (v =? i_tag_index _ _).
  { apply bind_Ok in H as (tag & Htag & H).
    destruct (String.eqb tag (span_tag prev)).
    - destruct (num_labels =? 3).
      + injection H as <- <-. right; right. exists r, prev, g.
        unfold assign_end. rewrite Hr. simpl. auto 10.
      + injection H as <- <-. left. split; auto.
    - injection H as <- <-. left. split; simpl; auto. }
  destruct (v =? e_tag_index _ _).
  { apply bind_Ok in H as (tag & Htag & H).
    destruct (String.eqb tag (span_tag prev)).
    - injection H as <- <-. right; right. exists r, prev, g.
      unfold assign_end. rewrite Hr. simpl. auto 10.
    - injection H as <- <-. left. split; simpl; auto. }
  injection H as <- <-. left. split; simpl; auto.
Qed.

Lemma get_spans_2_step_effect (c t : nat) (v : Z) (st st' : DecState) (br : Branch) :
  get_spans_2_step get_tag_index truthy none_tag gold dataset c t v st
    = Ok (st', br) →
  step_effect truthy gold dataset c t st st'.
Proof.
  unfold get_spans_2_step, step_effect. intros H.
  apply bind_Ok in H as (g & Hg & H).
  destruct (g =? IGNORE) eqn:Eg.
  { injection H as <- <-. left. split; simpl; auto. }
  apply Z.eqb_neq in Eg.
  destruct (v =? b_tag_index _ _).
  2:{ injection H as <- <-. left. split; simpl; auto. }
  apply bind_Ok in H as (tag & Htag & H).
  destruct (deref st) as [prev|] eqn:Ed.
  2:{ simpl in H. injection H as <- <-.
      right; left. exists tag, g. simpl. auto 10. }
  apply deref_Some in Ed as (r & Hr & Hprev).
  destruct (String.eqb tag (span_tag prev)).
  - injection H as <- <-. right; right. exists r, prev, g.
    unfold assign_end. rewrite Hr. simpl. auto 10.
  - simpl in H. injection H as <- <-.
    right; left. exists tag, g. simpl. auto 10.
Qed.

Lemma decode_step_effect (c t : nat) (v : Z) (st st' : DecState) (br : Branch) :
  decode_step get_tag_index truthy num_labels none_tag gold dataset c t v st
    = Ok (st', br) →
  step_effect truthy gold dataset c t st st'.
Proof.
  unfold decode_step. destruct (num_labels =? 2).
  - apply get_spans_2_step_effect.
  - apply get_spans_step_effect.
Qed.

End StepEffect.

(** ** The loops *)

Section LoopFacts.

Variable step : nat → nat → Z → DecState → result (DecState * Branch).

(** A property of the state that every step preserves holds when the walk
    over a context ends, and every branch taken on the way satisfies what
    the steps guarantee of their branch. *)
Lemma tok_loop_invariant (c : nat) (I : nat → DecState → Prop) (P : Branch → Prop) :
  (∀ t v st st' br,
      I t st → step c t v st = Ok (st', br) → I (S t) st' ∧ P br) →
  ∀ row t st st' brs,
    I t st → tok_loop step c row t st = Ok (st', brs) →
    I (t + length row)%nat st' ∧ Forall P brs.
Proof.
  intros Hstep row. induction row as [|v row IH]; intros t st st' brs HI H.
  - injection H as <- <-. rewrite Nat.add_0_r. auto.
  - simpl in H. apply bind_Ok in H as ([st1 br] & H1 & H).
    apply bind_Ok in H as ([st2 brs2] & H2 & H). injection H as <- <-.
    destruct (Hstep _ _ _ _ _ HI H1) as [HI1 HP].
    destruct (IH _ _ _ _ HI1 H2) as [HI2 HPs].
    simpl. replace (t + S (length row))%nat with (S t + length row)%nat by lia.
    auto.
Qed.

Lemma tok_loop_length (c : nat) (row : list Z) (t : nat) (st st' : DecState)
    (brs : list Branch) :
  tok_loop step c row t st = Ok (st', brs) → length brs = length row.
Proof.
  revert t st st' brs. induction row as [|v row IH]; intros t st st' brs H.
  - by injection H as <- <-.
  - simpl in H. apply bind_Ok in H as ([st1 br] & H1 & H).
    apply bind_Ok in H as ([st2 brs2] & H2 & H). injection H as <- <-.
    simpl. f_equal. eauto.
Qed.

(** The result for context [c0 + k] is the walk over row [k]. *)
Lemma ctx_loop_lookup (batch : list (list Z)) (c0 : nat)
    (out : list (list Span * list Branch)) :
  ctx_loop step batch c0 = Ok out →
  length out = length batch
  ∧ ∀ k spans brs, out !! k = Some (spans, brs) →
      ∃ row st, batch !! k = Some row
        ∧ tok_loop step (c0 + k) row 0%nat init_state = Ok (st, brs)
        ∧ spans = context_spans st.
Proof.
  revert c0 out. induction batch as [|row batch IH]; intros c0 out H.
  - injection H as <-. split; [done|]. intros k ? ? Hk. by destruct k.
  - simpl in H. apply bind_Ok in H as ([st brs] & H1 & H).
    apply bind_Ok in H as (rest & H2 & H). injection H as <-.
    destruct (IH _ _ H2) as [Hlen Hrest]. split; [simpl; by f_equal|].
    intros [|k] spans brs' Hk.
    + injection Hk as <- <-. exists row, st. rewrite Nat.add_0_r. auto.
    + simpl in Hk. destruct (Hrest _ _ _ Hk) as (row' & st' & ? & ? & ?).
      exists row', st'. replace (c0 + S k)%nat with (S c0 + k)%nat by lia. auto.
Qed.

End LoopFacts.

Section DecodeFacts.

Variable get_tag_index : string → string → Z.
Variable truthy : NerQADataset → bool.
Variable num_labels : Z.
Variable none_tag : string.
Variable gold : list (list Z).
Variable dataset : option NerQADataset.

Let step := decode_step get_tag_index truthy num_labels none_tag gold dataset.

Lemma decode_traced_unfold (batch : list (list Z)) :
  decode_traced get_tag_index truthy num_labels none_tag gold dataset batch
  = ctx_loop step batch 0%nat.
Proof.
  unfold decode_traced, step, decode_step, get_spans_traced,
    get_spans_for_2_tag_scheme_traced.
  by destruct (num_labels =? 2).
Qed.

Lemma decode_unfold (batch : list (list Z)) :
  decode get_tag_index truthy num_labels none_tag gold dataset batch
  = r ← decode_traced get_tag_index truthy num_labels none_tag gold dataset batch;
    Ok (map fst r).
Proof.
  unfold decode, decode_traced, get_spans, get_spans_for_2_tag_scheme.
  by destruct (num_labels =? 2).
Qed.

(** The spans decoded for context [c] are those of a walk over row [c]. *)
Lemma decode_lookup (batch : list (list Z)) (out : list (list Span)) (c : nat)
    (spans : list Span) :
  decode get_tag_index truthy num_labels none_tag gold dataset batch = Ok out →
  out !! c = Some spans →
  ∃ row st brs, batch !! c = Some row
    ∧ tok_loop step c row 0%nat init_state = Ok (st, brs)
    ∧ spans = context_spans st.
Proof.
  rewrite decode_unfold, decode_traced_unfold. intros H Hc.
  apply bind_Ok in H as (r & Hr & H). injection H as <-.
  rewrite list_lookup_fmap in Hc.
  destruct (r !! c) as [[spans' brs]|] eqn:E; [|discriminate].
  injection Hc as <-.
  destruct (ctx_loop_lookup _ _ _ _ Hr) as [_ Hl].
  destruct (Hl _ _ _ E) as (row & st & ? & ? & ?). eauto 10.
Qed.

Lemma decode_traced_lookup (batch : list (list Z))
    (out : list (list Span * list Branch)) (c : nat)
    (spans : list Span) (brs : list Branch) :
  decode_traced get_tag_index truthy num_labels none_tag gold dataset batch = Ok out →
  out !! c = Some (spans, brs) →
  ∃ row st, batch !! c = Some row
    ∧ tok_loop step c row 0%nat init_state = Ok (st, brs)
    ∧ spans = context_spans st.
Proof.
  rewrite decode_traced_unfold. intros H Hc.
  destruct (ctx_loop_lookup _ _ _ _ H) as [_ Hl]. exact (Hl _ _ _ Hc).
Qed.

Lemma decode_length (batch : list (list Z)) (out : list (list Span)) :
  decode get_tag_index truthy num_labels none_tag gold dataset batch = Ok out →
  length out = length batch.
Proof.
  rewrite decode_unfold, decode_traced_unfold. intros H.
  apply bind_Ok in H as (r & Hr & H). injection H as <-.
  rewrite length_map. by destruct (ctx_loop_lookup _ _ _ _ Hr).
Qed.

End DecodeFacts.

(** ** Invariants of a walk over one context *)

Lemma decoder_inv_init : decoder_inv 0 init_state.
Proof.
  repeat split; simpl.
  - discriminate.
  - intros i j si sj _ Hi. by rewrite lookup_nil in Hi.
  - by apply elem_of_nil in H.
  - by apply elem_of_nil in H.
Qed.

Section Invariants.

Variable gold : list (list Z).
Variable truthy : NerQADataset → bool.
Variable dataset : option NerQADataset.

Lemma step_effect_inv (c t : nat) (st st' : DecState) :
  decoder_inv t st → step_effect truthy gold dataset c t st st' →
  decoder_inv (S t) st'.
Proof.
  intros (Hlast & Hord & Hbnd) [Heff|[Heff|Heff]].
  - destruct Heff as [Hs Hp]. unfold decoder_inv. rewrite Hs.
    split; [|split; [done|]].
    + intros r Hr. destruct Hp as [Hp|Hp]; [congruence|]. apply Hlast. congruence.
    + intros s Hin. destruct (Hbnd s Hin). lia.
  - destruct Heff as (tag & g & _ & _ & _ & Hs & Hp).
    unfold decoder_inv. rewrite Hs. split; [|split].
    + intros r Hr. rewrite length_app. simpl.
      destruct Hp as [Hp|Hp]; [congruence|]. rewrite Hp in Hr.
      injection Hr as <-. lia.
    + intros i j si sj Hij Hi Hj.
      assert (j < length (context_spans st ++ [mkSpan c t t tag]))%nat as Hjl
        by (eapply lookup_lt_Some; eauto).
      rewrite length_app in Hjl. simpl in Hjl.
      rewrite lookup_app_l in Hi by lia.
      destruct (decide (j = length (context_spans st))) as [->|Hne].
      * rewrite list_lookup_middle in Hj by done. injection Hj as <-. simpl.
        apply Hbnd. apply list_elem_of_lookup. eauto.
      * rewrite lookup_app_l in Hj by lia. eauto.
    + intros s Hin. apply elem_of_app in Hin as [Hin|Hin].
      * destruct (Hbnd s Hin). lia.
      * apply list_elem_of_singleton in Hin as ->. simpl. lia.
  - destruct Heff as (r & prev & g & _ & _ & Hr & Hprev & Hs & Hp).
    pose proof (Hlast r Hr) as Hrl.
    unfold decoder_inv. rewrite Hs, Hp. split; [|split].
    + intros r' [= <-]. by rewrite length_alter.
    + intros i j si sj Hij Hi Hj.
      assert (j < length (context_spans st))%nat as Hjl.
      { apply lookup_lt_Some in Hj. by rewrite length_alter in Hj. }
      rewrite list_lookup_alter_ne in Hi by lia.
      rewrite list_lookup_alter in Hj. case_decide as E.
      * subst j. rewrite Hprev in Hj. injection Hj as <-. simpl. eauto.
      * eauto.
    + intros s Hin. apply list_elem_of_lookup in Hin as [i Hi].
      rewrite list_lookup_alter in Hi. case_decide as E.
      * subst i. rewrite Hprev in Hi. injection Hi as <-. simpl.
        assert (prev ∈ context_spans st) as Hin
          by (apply list_elem_of_lookup; eauto).
        destruct (Hbnd prev Hin). lia.
      * assert (s ∈ context_spans st) as Hin
          by (apply list_elem_of_lookup; eauto).
        destruct (Hbnd s Hin). lia.
Qed.

End Invariants.

Section Walks.

Variable get_tag_index : string → string → Z.
Variable truthy : NerQADataset → bool.
Variable num_labels : Z.
Variable none_tag : string.
Variable gold : list (list Z).
Variable dataset : option NerQADataset.

Let step := decode_step get_tag_index truthy num_labels none_tag gold dataset.

(** Under the invariant the reference [prev_span] never dangles: it is set
    exactly when there is an object behind it. *)
Lemma decoder_inv_deref (t : nat) (st : DecState) :
  decoder_inv t st → (is_Some (prev_span st) ↔ is_Some (deref st)).
Proof.
  intros (Hlast & _ & _). unfold deref.
  destruct (prev_span st) as [r|] eqn:Hr.
  - split; [|eauto]. intros _. apply lookup_lt_is_Some_2.
    specialize (Hlast r eq_refl). lia.
  - split; intros [? ?]; discriminate.
Qed.

Lemma walk_decoder_inv (c : nat) (row : list Z) (st : DecState) (brs : list Branch) :
  tok_loop step c row 0%nat init_state = Ok (st, brs) →
  decoder_inv (length row) st.
Proof.
  intros H.
  apply (tok_loop_invariant step c decoder_inv (λ _, True)) in H as [H _];
    [done| |apply decoder_inv_init].
  intros t v st0 st' br HI Hs. split; [|done].
  eapply step_effect_inv; [done|]. eapply decode_step_effect, Hs.
Qed.

Lemma step_effect_avoids (c t p : nat) (st st' : DecState) :
  gold_at gold c p = Ok IGNORE →
  avoids p st → step_effect truthy gold dataset c t st st' → avoids p st'.
Proof.
  intros Hp Hav [Heff|[Heff|Heff]]; unfold avoids.
  - destruct Heff as [-> _]. done.
  - destruct Heff as (tag & g & Hg & Hne & _ & -> & _).
    intros s Hin. apply elem_of_app in Hin as [Hin|Hin]; [by apply Hav|].
    apply list_elem_of_singleton in Hin as ->. simpl.
    assert (t ≠ p) by (intros ->; congruence). done.
  - destruct Heff as (r & prev & g & Hg & Hne & Hr & Hprev & -> & _).
    assert (t ≠ p) by (intros ->; congruence).
    intros s Hin. apply list_elem_of_lookup in Hin as [i Hi].
    rewrite list_lookup_alter in Hi. case_decide as E.
    + subst i. rewrite Hprev in Hi. injection Hi as <-. simpl.
      split; [|done]. apply Hav. apply list_elem_of_lookup. eauto.
    + apply Hav. apply list_elem_of_lookup. eauto.
Qed.

Lemma walk_avoids (c p : nat) (row : list Z) (st : DecState) (brs : list Branch) :
  gold_at gold c p = Ok IGNORE →
  tok_loop step c row 0%nat init_state = Ok (st, brs) →
  avoids p st.
Proof.
  intros Hp H.
  apply (tok_loop_invariant step c (λ _, avoids p) (λ _, True)) in H as [H _];
    [done| |].
  - intros t v st0 st' br HI Hs. split; [|done].
    eapply step_effect_avoids; [done..|]. eapply decode_step_effect, Hs.
  - intros s Hin. by apply elem_of_nil in Hin.
Qed.

Lemma step_effect_typed (c t : nat) (st st' : DecState) :
  typed_inv truthy dataset c st → step_effect truthy gold dataset c t st st' →
  typed_inv truthy dataset c st'.
Proof.
  intros Hty [Heff|[Heff|Heff]]; unfold typed_inv.
  - destruct Heff as [-> _]. done.
  - destruct Heff as (tag & g & _ & _ & Htag & -> & _).
    intros s Hin. apply elem_of_app in Hin as [Hin|Hin]; [by apply Hty|].
    by apply list_elem_of_singleton in Hin as ->.
  - destruct Heff as (r & prev & g & _ & _ & Hr & Hprev & -> & _).
    intros s Hin. apply list_elem_of_lookup in Hin as [i Hi].
    rewrite list_lookup_alter in Hi. case_decide as E.
    + subst i. rewrite Hprev in Hi. injection Hi as <-. simpl.
      apply Hty. apply list_elem_of_lookup. eauto.
    + apply Hty. apply list_elem_of_lookup. eauto.
Qed.

Lemma typed_inv_open (c : nat) (st : DecState) (prev : Span) (tag : string) :
  typed_inv truthy dataset c st → deref st = Some prev →
  resolve_tag truthy dataset c = Ok tag →
  String.eqb tag (span_tag prev) = true.
Proof.
  intros Hty Hd Htag. apply deref_Some in Hd as (r & _ & Hprev).
  destruct (Hty prev) as [_ Hres]; [apply list_elem_of_lookup; eauto|].
  rewrite Htag in Hres. injection Hres as ->. apply String.eqb_refl.
Qed.

Lemma get_spans_step_no_mismatch (c t : nat) (v : Z) (st st' : DecState) (br : Branch) :
  typed_inv truthy dataset c st →
  get_spans_step get_tag_index truthy num_labels none_tag gold dataset c t v st
    = Ok (st', br) →
  is_mismatch br = false.
Proof.
  intros Hty H. unfold get_spans_step in H.
  apply bind_Ok in H as (g & Hg & H).
  destruct (g =? IGNORE); [by injection H as <- <-|].
  destruct (v =? b_tag_index _ _).
  { apply bind_Ok in H as (tag & Htag & H). simpl in H. by injection H as <- <-. }
  destruct (v =? s_tag_index _ _).
  { apply bind_Ok in H as (tag & Htag & H). simpl in H. by injection H as <- <-. }
  destruct (deref st) as [prev|] eqn:Ed; [|by injection H as <- <-].
  destruct (v =? i_tag_index _ _).
  { apply bind_Ok in H as (tag & Htag & H).
    rewrite (typed_inv_open _ _ _ _ Hty Ed Htag) in H.
    destruct (num_labels =? 3); by injection H as <- <-. }
  destruct (v =? e_tag_index _ _).
  { apply bind_Ok in H as (tag & Htag & H).
    rewrite (typed_inv_open _ _ _ _ Hty Ed Htag) in H.
    by injection H as <- <-. }
  by injection H as <- <-.
Qed.

Lemma get_spans_2_step_no_mismatch (c t : nat) (v : Z) (st st' : DecState)
    (br : Branch) :
  typed_inv truthy dataset c st →
  get_spans_2_step get_tag_index truthy none_tag gold dataset c t v st
    = Ok (st', br) →
  is_mismatch br = false.
Proof.
  intros Hty H. unfold get_spans_2_step in H.
  apply bind_Ok in H as (g & Hg & H).
  destruct (g =? IGNORE); [by injection H as <- <-|].
  destruct (v =? b_tag_index _ _); [|by injection H as <- <-].
  apply bind_Ok in H as (tag & Htag & H).
  destruct (deref st) as [prev|] eqn:Ed.
  - rewrite (typed_inv_open _ _ _ _ Hty Ed Htag) in H. by injection H as <- <-.
  - simpl in H. by injection H as <- <-.
Qed.

Lemma walk_typed (c : nat) (row : list Z) (st : DecState) (brs : list Branch) :
  tok_loop step c row 0%nat init_state = Ok (st, brs) →
  typed_inv truthy dataset c st ∧ Forall (λ br, is_mismatch br = false) brs.
Proof.
  intros H.
  apply (tok_loop_invariant step c (λ _, typed_inv truthy dataset c)
           (λ br, is_mismatch br = false)) in H; [done| |].
  - intros t v st0 st' br HI Hs. split.
    + eapply step_effect_typed; [done|]. eapply decode_step_effect, Hs.
    + unfold step, decode_step in Hs. destruct (num_labels =? 2).
      * eapply get_spans_2_step_no_mismatch; eauto.
      * eapply get_spans_step_no_mismatch; eauto.
  - intros s Hin. by apply elem_of_nil in Hin.
Qed.

End Walks.

(** ** The branches of the loop bodies, one by one *)

Section Branches.

Variable get_tag_index : string → string → Z.
Variable truthy : NerQADataset → bool.
Variable num_labels : Z.
Variable none_tag : string.
Variable gold : list (list Z).
Variable dataset : option NerQADataset.

Let B := b_tag_index get_tag_index none_tag.
Let I := i_tag_index get_tag_index none_tag.
Let E := e_tag_index get_tag_index none_tag.
Let S' := s_tag_index get_tag_index none_tag.
Let step_n := get_spans_step get_tag_index truthy num_labels none_tag gold dataset.
Let step_2 := get_spans_2_step get_tag_index truthy none_tag gold dataset.

Variables (c t : nat) (st : DecState).

Ltac open_step Hg Hne :=
  unfold step_n, step_2, get_spans_step, get_spans_2_step;
  rewrite Hg; simpl;
  rewrite (proj2 (Z.eqb_neq _ _) Hne).

Lemma step_n_ignored (v : Z) :
  gold_at gold c t = Ok IGNORE →
  step_n c t v st
  = Ok ({| context_spans := context_spans st; prev_span := None |}, BrIgnored).
Proof. intros Hg. unfold step_n, get_spans_step. by rewrite Hg. Qed.

Lemma step_2_ignored (v : Z) :
  gold_at gold c t = Ok IGNORE →
  step_2 c t v st
  = Ok ({| context_spans := context_spans st; prev_span := None |}, BrIgnored).
Proof. intros Hg. unfold step_2, get_spans_2_step. by rewrite Hg. Qed.

Variable g : Z.
Hypothesis Hg : gold_at gold c t = Ok g.
Hypothesis Hne : g ≠ IGNORE.

Lemma step_n_begin (tag : string) :
  resolve_tag truthy dataset c = Ok tag →
  step_n c t B st
  = Ok ({| context_spans := context_spans st ++ [mkSpan c t t tag];
           prev_span := Some (length (context_spans st)) |}, BrBegin).
Proof.
  intros Htag. open_step Hg Hne.
  fold B. by rewrite Z.eqb_refl, Htag.
Qed.

Lemma step_n_single (tag : string) :
  S' ≠ B → resolve_tag truthy dataset c = Ok tag →
  step_n c t S' st
  = Ok ({| context_spans := context_spans st ++ [mkSpan c t t tag];
           prev_span := None |}, BrSingle).
Proof.
  intros HB Htag. open_step Hg Hne.
  fold B S'. by rewrite (proj2 (Z.eqb_neq _ _) HB), Z.eqb_refl, Htag.
Qed.

Lemma step_n_inside_grow (r : nat) (prev : Span) :
  I ≠ B → I ≠ S' → num_labels = 3 →
  prev_span st = Some r → context_spans st !! r = Some prev →
  resolve_tag truthy dataset c = Ok (span_tag prev) →
  step_n c t I st
  = Ok ({| context_spans := alter (set_end t) r (context_spans st);
           prev_span := Some r |}, BrInsideGrow).
Proof.
  intros HB HS -> Hr Hprev Htag. open_step Hg Hne.
  fold B S' I. rewrite (proj2 (Z.eqb_neq _ _) HB), (proj2 (Z.eqb_neq _ _) HS).
  unfold deref, assign_end. rewrite Hr, Hprev, Z.eqb_refl, Htag. simpl.
  by rewrite String.eqb_refl.
Qed.

Lemma step_n_inside_keep (prev : Span) :
  I ≠ B → I ≠ S' → num_labels ≠ 3 →
  deref st = Some prev →
  resolve_tag truthy dataset c = Ok (span_tag prev) →
  step_n c t I st = Ok (st, BrInsideKeep).
Proof.
  intros HB HS Hnl Hprev Htag. open_step Hg Hne.
  fold B S' I. rewrite (proj2 (Z.eqb_neq _ _) HB), (proj2 (Z.eqb_neq _ _) HS).
  rewrite Hprev, Z.eqb_refl, Htag. simpl.
  by rewrite String.eqb_refl, (proj2 (Z.eqb_neq _ _) Hnl).
Qed.

Lemma step_n_end_grow (r : nat) (prev : Span) :
  E ≠ B → E ≠ S' → E ≠ I →
  prev_span st = Some r → context_spans st !! r = Some prev →
  resolve_tag truthy dataset c = Ok (span_tag prev) →
  step_n c t E st
  = Ok ({| context_spans := alter (set_end t) r (context_spans st);
           prev_span := Some r |}, BrEndGrow).
Proof.
  intros HB HS HI Hr Hprev Htag. open_step Hg Hne.
  fold B S' I E.
  rewrite (proj2 (Z.eqb_neq _ _) HB), (proj2 (Z.eqb_neq _ _) HS).
  unfold deref, assign_end. rewrite Hr, Hprev.
  rewrite (proj2 (Z.eqb_neq _ _) HI), Z.eqb_refl, Htag. simpl.
  by rewrite String.eqb_refl.
Qed.

(** With no open span, an I or an E falls through to the final [else]. *)
Lemma step_n_orphan (v : Z) :
  v ≠ B → v ≠ S' → prev_span st = None →
  step_n c t v st
  = Ok ({| context_spans := context_spans st; prev_span := None |}, BrNone).
Proof.
  intros HB HS Hp. open_step Hg Hne.
  fold B S'. rewrite (proj2 (Z.eqb_neq _ _) HB), (proj2 (Z.eqb_neq _ _) HS).
  unfold deref. by rewrite Hp.
Qed.

Lemma step_n_none (v : Z) :
  v ≠ B → v ≠ I → v ≠ E → v ≠ S' →
  step_n c t v st
  = Ok ({| context_spans := context_spans st; prev_span := None |}, BrNone).
Proof.
  intros HB HI HE HS. open_step Hg Hne.
  fold B S' I E. rewrite (proj2 (Z.eqb_neq _ _) HB), (proj2 (Z.eqb_neq _ _) HS).
  rewrite (proj2 (Z.eqb_neq _ _) HI), (proj2 (Z.eqb_neq _ _) HE).
  by destruct (deref st).
Qed.

Lemma step_2_coalesce (r : nat) (prev : Span) :
  prev_span st = Some r → context_spans st !! r = Some prev →
  resolve_tag truthy dataset c = Ok (span_tag prev) →
  step_2 c t B st
  = Ok ({| context_spans := alter (set_end t) r (context_spans st);
           prev_span := Some r |}, BrCoalesce).
Proof.
  intros Hr Hprev Htag. open_step Hg Hne.
  fold B. rewrite Z.eqb_refl, Htag. simpl.
  unfold deref, assign_end. by rewrite Hr, Hprev, String.eqb_refl.
Qed.

Lemma step_2_begin (tag : string) :
  prev_span st = None → resolve_tag truthy dataset c = Ok tag →
  step_2 c t B st
  = Ok ({| context_spans := context_spans st ++ [mkSpan c t t tag];
           prev_span := Some (length (context_spans st)) |}, BrBegin).
Proof.
  intros Hp Htag. open_step Hg Hne.
  fold B. rewrite Z.eqb_refl, Htag. simpl. unfold deref. by rewrite Hp.
Qed.

Lemma step_2_none (v : Z) :
  v ≠ B →
  step_2 c t v st
  = Ok ({| context_spans := context_spans st; prev_span := None |}, BrNone).
Proof.
  intros HB. open_step Hg Hne. fold B. by rewrite (proj2 (Z.eqb_neq _ _) HB).
Qed.

End Branches.

Lemma no_ignored_at (gold : list (list Z)) (c n t : nat) :
  no_ignored gold c n = true → (t < n)%nat →
  ∃ g, gold_at gold c t = Ok g ∧ g ≠ IGNORE.
Proof.
  unfold no_ignored. rewrite forallb_forall. intros H Ht.
  specialize (H t). rewrite in_seq in H. specialize (H ltac:(lia)).
  destruct (gold !! c) as [row|] eqn:Hrow; [|discriminate].
  destruct (row !! t) as [g|] eqn:Hgt; [|discriminate].
  exists g. split.
  - apply gold_at_Ok. eauto.
  - intros ->. discriminate.
Qed.

(** * The claims *)

(** C7.  For every batch and every context, under either decoder, the spans
    decoded for the context are ordered and do not overlap: a span appended
    earlier ends strictly before a span appended later starts, and each span
    starts no later than it ends. *)
Theorem decoded_spans_ordered (get_tag_index : string → string → Z)
    (truthy : NerQADataset → bool) (num_labels : Z) (none_tag : string)
    (gold : list (list Z)) (dataset : option NerQADataset)
    (batch : list (list Z)) (out : list (list Span)) (c : nat) (spans : list Span)
    (i j : nat) (si sj : Span) :
  decode get_tag_index truthy num_labels none_tag gold dataset batch = Ok out →
  out !! c = Some spans →
  (i < j)%nat → spans !! i = Some si → spans !! j = Some sj →
  (span_start si ≤ span_end si)%nat
  ∧ (span_end si < span_start sj)%nat
  ∧ (span_start sj ≤ span_end sj)%nat.
Proof.
  intros Hdec Hc Hij Hi Hj.
  destruct (decode_lookup _ _ _ _ _ _ _ _ _ _ Hdec Hc) as (row & st & brs & _ & Hw & ->).
  apply walk_decoder_inv in Hw as (_ & Hord & Hbnd).
  assert (si ∈ context_spans st) as Hsi by (apply list_elem_of_lookup; eauto).
  assert (sj ∈ context_spans st) as Hsj by (apply list_elem_of_lookup; eauto).
  destruct (Hbnd _ Hsi), (Hbnd _ Hsj). repeat split; eauto.
Qed.

Lemma decoded_spans_ordered_witness :
  decode tag_layout always_truthy 2 "O" [[1; 1; 0; 1]] None [[1; 1; 0; 1]]
  = Ok [[mkSpan 0 0 1 "TAG"; mkSpan 0 3 3 "TAG"]]
  ∧ (0 ≤ 1)%nat ∧ (1 < 3)%nat ∧ (3 ≤ 3)%nat.
Proof.
  split; [reflexivity|].
  exact (decoded_spans_ordered tag_layout always_truthy 2 "O" [[1; 1; 0; 1]] None
           [[1; 1; 0; 1]] [[mkSpan 0 0 1 "TAG"; mkSpan 0 3 3 "TAG"]] 0
           [mkSpan 0 0 1 "TAG"; mkSpan 0 3 3 "TAG"] 0 1
           (mkSpan 0 0 1 "TAG") (mkSpan 0 3 3 "TAG")
           eq_refl eq_refl (le_n 1) eq_refl eq_refl).
Defined.

(** C2.  Where the gold array holds -100 at position [p] of context [c], both
    loop bodies set [prev_span] to [None] and leave the spans as they are,
    whatever the tag of the batch at [p]; and no span decoded for context [c]
    from any batch (the gold one or the predicted one) starts or ends at
    [p]. *)
Theorem ignored_position_never_a_boundary (get_tag_index : string → string → Z)
    (truthy : NerQADataset → bool) (num_labels : Z) (none_tag : string)
    (gold : list (list Z)) (dataset : option NerQADataset) (c p : nat) :
  gold_at gold c p = Ok IGNORE →
  (∀ v st,
      get_spans_step get_tag_index truthy num_labels none_tag gold dataset c p v st
      = Ok ({| context_spans := context_spans st; prev_span := None |}, BrIgnored)
      ∧ get_spans_2_step get_tag_index truthy none_tag gold dataset c p v st
        = Ok ({| context_spans := context_spans st; prev_span := None |}, BrIgnored))
  ∧ (∀ batch out spans s,
      decode get_tag_index truthy num_labels none_tag gold dataset batch = Ok out →
      out !! c = Some spans → s ∈ spans →
      span_start s ≠ p ∧ span_end s ≠ p).
Proof.
  intros Hp. split.
  - intros v st. split; [by apply step_n_ignored | by apply step_2_ignored].
  - intros batch out spans s Hdec Hc Hin.
    destruct (decode_lookup _ _ _ _ _ _ _ _ _ _ Hdec Hc)
      as (row & st & brs & _ & Hw & ->).
    eapply walk_avoids in Hw; [|done]. by apply Hw.
Qed.

Lemma ignored_position_never_a_boundary_witness :
  decode tag_layout always_truthy 3 "O" [[1; -100; 2; 0]] None [[1; 1; 2; 2]]
  = Ok [[mkSpan 0 0 0 "TAG"]]
  ∧ span_start (mkSpan 0 0 0 "TAG") ≠ 1%nat ∧ span_end (mkSpan 0 0 0 "TAG") ≠ 1%nat.
Proof.
  split; [reflexivity|].
  exact (proj2 (ignored_position_never_a_boundary tag_layout always_truthy 3 "O"
                  [[1; -100; 2; 0]] None 0 1 eq_refl)
           [[1; 1; 2; 2]] [[mkSpan 0 0 0 "TAG"]] [mkSpan 0 0 0 "TAG"]
           (mkSpan 0 0 0 "TAG") eq_refl eq_refl (list_elem_of_here _ _)).
Defined.

(** C10.  Within one decode call, every span appended for context [c] belongs
    to [c] and carries the type resolved for [c]
    ([dataset.contexts[c].entity], or ["TAG"]); and no position of the
    context takes a branch whose condition is that the resolved type differs
    from the type of the open span. *)
Theorem one_type_per_context (get_tag_index : string → string → Z)
    (truthy : NerQADataset → bool) (num_labels : Z) (none_tag : string)
    (gold : list (list Z)) (dataset : option NerQADataset)
    (batch : list (list Z)) (out : list (list Span * list Branch)) (c : nat)
    (spans : list Span) (brs : list Branch) :
  decode_traced get_tag_index truthy num_labels none_tag gold dataset batch = Ok out →
  out !! c = Some (spans, brs) →
  (∀ s, s ∈ spans →
     span_context s = c ∧ resolve_tag truthy dataset c = Ok (span_tag s))
  ∧ (∀ br, br ∈ brs →
       br ≠ BrInsideMismatch ∧ br ≠ BrEndMismatch ∧ br ≠ BrBeginMismatch).
Proof.
  intros Hdec Hc.
  destruct (decode_traced_lookup _ _ _ _ _ _ _ _ _ _ _ Hdec Hc) as (row & st & _ & Hw & ->).
  apply walk_typed in Hw as [Hty Hbr]. split; [exact Hty|].
  intros br Hin. rewrite Forall_forall in Hbr. specialize (Hbr br Hin).
  by destruct br.
Qed.

Lemma one_type_per_context_witness :
  decode_traced tag_layout always_truthy 4 "O" [[1; 2; 3; 0]]
    (Some (mkDataset [mkContext "DISEASE"] ["DISEASE"])) [[1; 2; 3; 2]]
  = Ok [([mkSpan 0 0 2 "DISEASE"], [BrBegin; BrInsideKeep; BrEndGrow; BrInsideKeep])]
  ∧ span_context (mkSpan 0 0 2 "DISEASE") = 0%nat
  ∧ resolve_tag always_truthy (Some (mkDataset [mkContext "DISEASE"] ["DISEASE"])) 0
    = Ok "DISEASE".
Proof.
  split; [reflexivity|].
  exact (proj1 (one_type_per_context tag_layout always_truthy 4 "O" [[1; 2; 3; 0]]
                  (Some (mkDataset [mkContext "DISEASE"] ["DISEASE"])) [[1; 2; 3; 2]]
                  [([mkSpan 0 0 2 "DISEASE"],
                    [BrBegin; BrInsideKeep; BrEndGrow; BrInsideKeep])] 0
                  [mkSpan 0 0 2 "DISEASE"]
                  [BrBegin; BrInsideKeep; BrEndGrow; BrInsideKeep]
                  eq_refl eq_refl)
           (mkSpan 0 0 2 "DISEASE") (list_elem_of_here _ _)).
Defined.

(** C8.  At a position that is not ignored, a tag that is none of the indices
    the decoder compares with (B, I, E and S in [get_spans], whatever
    [num_labels] is; B alone in [get_spans_for_2_tag_scheme]) takes the final
    [else]: [prev_span] becomes [None], the spans are left as they are, and
    the step returns normally.  This covers the none tag and any integer
    that is none of these indices.  An index that the scheme in use does not
    define is not treated as none when it is the index of E or of S:
    [get_spans] never looks at [num_labels] before it compares with them, so
    the index of E moves the end of an open span of the context's type and
    keeps it open, and the index of S emits a span of one token, under BIO
    ([num_labels] 3) as under any other [num_labels]. *)
Theorem only_uncompared_tags_close_span (get_tag_index : string → string → Z)
    (truthy : NerQADataset → bool) (num_labels : Z) (none_tag : string)
    (gold : list (list Z)) (dataset : option NerQADataset)
    (c t : nat) (g : Z) (st : DecState) :
  gold_at gold c t = Ok g → g ≠ IGNORE →
  (∀ v : Z,
     v ≠ b_tag_index get_tag_index none_tag →
     v ≠ i_tag_index get_tag_index none_tag →
     v ≠ e_tag_index get_tag_index none_tag →
     v ≠ s_tag_index get_tag_index none_tag →
     get_spans_step get_tag_index truthy num_labels none_tag gold dataset c t v st
     = Ok ({| context_spans := context_spans st; prev_span := None |}, BrNone))
  ∧ (∀ v : Z,
       v ≠ b_tag_index get_tag_index none_tag →
       get_spans_2_step get_tag_index truthy none_tag gold dataset c t v st
       = Ok ({| context_spans := context_spans st; prev_span := None |}, BrNone))
  ∧ (∀ (r : nat) (prev : Span),
       e_tag_index get_tag_index none_tag ≠ b_tag_index get_tag_index none_tag →
       e_tag_index get_tag_index none_tag ≠ s_tag_index get_tag_index none_tag →
       e_tag_index get_tag_index none_tag ≠ i_tag_index get_tag_index none_tag →
       prev_span st = Some r → context_spans st !! r = Some prev →
       resolve_tag truthy dataset c = Ok (span_tag prev) →
       get_spans_step get_tag_index truthy num_labels none_tag gold dataset c t
         (e_tag_index get_tag_index none_tag) st
       = Ok ({| context_spans := alter (set_end t) r (context_spans st);
                prev_span := Some r |}, BrEndGrow))
  ∧ (∀ tag : string,
       s_tag_index get_tag_index none_tag ≠ b_tag_index get_tag_index none_tag →
       resolve_tag truthy dataset c = Ok tag →
       get_spans_step get_tag_index truthy num_labels none_tag gold dataset c t
         (s_tag_index get_tag_index none_tag) st
       = Ok ({| context_spans := context_spans st ++ [mkSpan c t t tag];
                prev_span := None |}, BrSingle)).
Proof.
  intros Hg Hne. split; [|split; [|split]].
  - intros v HB HI HE HS. by eapply step_n_none.
  - intros v HB. by eapply step_2_none.
  - intros r prev HB HS HI Hr Hprev Htag. by eapply step_n_end_grow.
  - intros tag HB Htag. by eapply step_n_single.
Qed.

Lemma only_uncompared_tags_close_span_witness :
  get_spans_step tag_layout always_truthy 3 "O" [[1; 2; 7]] None 0 2 7
    {| context_spans := [mkSpan 0 0 1 "TAG"]; prev_span := Some 0%nat |}
  = Ok ({| context_spans := [mkSpan 0 0 1 "TAG"]; prev_span := None |}, BrNone).
Proof.
  refine (proj1 (only_uncompared_tags_close_span tag_layout always_truthy 3 "O"
                   [[1; 2; 7]] None 0 2 7
                   {| context_spans := [mkSpan 0 0 1 "TAG"];
                      prev_span := Some 0%nat |}
                   eq_refl _) 7 _ _ _ _); discriminate.
Defined.

(** C8, as the spec words it, fails: under BIO ([num_labels] 3), with the
    none tag, B and I at indices 0, 1 and 2, the indices 3 and 4 lie outside
    the classes of the scheme and are yet not treated as none.  At an open
    span the tag 3, the index of E, does not close it: the tags [B, 3, O]
    decode to the span (0,1).  The tag 4, the index of S, emits a span: the
    tags [O, 4, O] decode to the span (1,1). *)
Lemma out_of_scheme_tag_counterexample :
  (¬ ∀ (v : Z) (st : DecState),
       v ≠ tag_layout "B" "O" → v ≠ tag_layout "I" "O" →
       get_spans_step tag_layout always_truthy 3 "O" [[1; 3; 0]] None 0 1 v st
       = Ok ({| context_spans := context_spans st; prev_span := None |}, BrNone))
  ∧ decode tag_layout always_truthy 3 "O" [[1; 3; 0]] None [[1; 3; 0]]
    = Ok [[mkSpan 0 0 1 "TAG"]]
  ∧ decode tag_layout always_truthy 3 "O" [[0; 4; 0]] None [[0; 4; 0]]
    = Ok [[mkSpan 0 1 1 "TAG"]].
Proof.
  split; [|split; reflexivity].
  intros H.
  specialize (H 3 {| context_spans := [mkSpan 0 0 0 "TAG"];
                     prev_span := Some 0%nat |}).
  vm_compute in H. specialize (H ltac:(discriminate) ltac:(discriminate)).
  discriminate.
Qed.

Section Schemes.

Variable get_tag_index : string → string → Z.
Variable truthy : NerQADataset → bool.
Variable none_tag : string.
Variable dataset : option NerQADataset.

Let B := b_tag_index get_tag_index none_tag.
Let I := i_tag_index get_tag_index none_tag.
Let E := e_tag_index get_tag_index none_tag.
Let S' := s_tag_index get_tag_index none_tag.

(** The index of the none tag: any integer that is none of the four above. *)
Variable O : Z.

Ltac side := first [eassumption | reflexivity | simpl; eassumption | discriminate].

Lemma distinct_indices :
  NoDup [B; I; E; S'; O] →
  I ≠ B ∧ I ≠ S' ∧ E ≠ B ∧ E ≠ S' ∧ E ≠ I
  ∧ O ≠ B ∧ O ≠ I ∧ O ≠ E ∧ O ≠ S'.
Proof.
  intros distinct.
  repeat match goal with
         | H : NoDup (_ :: _) |- _ => apply NoDup_cons in H as [? H]
         end.
  repeat match goal with
         | H : _ ∉ _ :: _ |- _ => apply not_elem_of_cons in H as [? H]
         end.
  repeat split; congruence.
Qed.

Ltac positions Hno n :=
  match n with
  | 0%nat => idtac
  | S ?k =>
      let g := fresh "g" in
      let Hg := fresh "Hg" in
      let Hn := fresh "Hn" in
      destruct (no_ignored_at _ _ _ k Hno ltac:(lia)) as (g & Hg & Hn);
      positions Hno k
  end.

(** C5.  Under the 3-class BIO scheme, an I at position [t] while a span of
    the context's resolved type is open moves the end of that span to [t];
    and the tags [B, I, I, O] of a context with no ignored position decode
    to the single span (0,2). *)
Theorem bio_inside_extends (tag : string) :
  NoDup [B; I; E; S'; O] →
  resolve_tag truthy dataset 0 = Ok tag →
  (∀ gold c t g st r prev,
      gold_at gold c t = Ok g → g ≠ IGNORE →
      prev_span st = Some r → context_spans st !! r = Some prev →
      resolve_tag truthy dataset c = Ok (span_tag prev) →
      decode_step get_tag_index truthy 3 none_tag gold dataset c t I st
      = Ok ({| context_spans := alter (set_end t) r (context_spans st);
               prev_span := Some r |}, BrInsideGrow))
  ∧ (∀ gold,
      no_ignored gold 0 4 = true →
      decode get_tag_index truthy 3 none_tag gold dataset [[B; I; I; O]]
      = Ok [[mkSpan 0 0 2 tag]]).
Proof.
  intros distinct Htag.
  destruct (distinct_indices distinct) as (? & ? & ? & ? & ? & ? & ? & ? & ?).
  unfold B, I, E, S' in *. split.
  - intros gold c t g st r prev Hg Hne Hr Hprev Hres.
    unfold decode_step. simpl. by eapply step_n_inside_grow.
  - intros gold Hno. positions Hno 4%nat.
    unfold decode. simpl (3 =? 2).
    unfold get_spans, get_spans_traced. cbn [ctx_loop tok_loop].
    erewrite step_n_begin by side. cbn.
    erewrite step_n_inside_grow by side. cbn.
    erewrite step_n_inside_grow by side. cbn.
    erewrite step_n_none by side. reflexivity.
Qed.

(** C4.  Under the 2-class BO scheme, a B at position [t] while a span of the
    context's resolved type is open moves the end of that span to [t]; under
    every other scheme a B appends a fresh one-token span, open span or not;
    and under BO the tags [B, B, O, B] of a context with no ignored position
    decode to the two spans (0,1) and (3,3). *)
Theorem bo_adjacent_b_coalesce (tag : string) :
  O ≠ B →
  resolve_tag truthy dataset 0 = Ok tag →
  (∀ gold c t g st r prev,
      gold_at gold c t = Ok g → g ≠ IGNORE →
      prev_span st = Some r → context_spans st !! r = Some prev →
      resolve_tag truthy dataset c = Ok (span_tag prev) →
      decode_step get_tag_index truthy 2 none_tag gold dataset c t B st
      = Ok ({| context_spans := alter (set_end t) r (context_spans st);
               prev_span := Some r |}, BrCoalesce))
  ∧ (∀ num_labels gold c t g st tag',
      num_labels ≠ 2 →
      gold_at gold c t = Ok g → g ≠ IGNORE →
      resolve_tag truthy dataset c = Ok tag' →
      decode_step get_tag_index truthy num_labels none_tag gold dataset c t B st
      = Ok ({| context_spans := context_spans st ++ [mkSpan c t t tag'];
               prev_span := Some (length (context_spans st)) |}, BrBegin))
  ∧ (∀ gold,
      no_ignored gold 0 4 = true →
      decode get_tag_index truthy 2 none_tag gold dataset [[B; B; O; B]]
      = Ok [[mkSpan 0 0 1 tag; mkSpan 0 3 3 tag]]).
Proof.
  intros HO Htag. unfold B in *. split; [|split].
  - intros gold c t g st r prev Hg Hne Hr Hprev Hres.
    unfold decode_step. simpl. by eapply step_2_coalesce.
  - intros num_labels gold c t g st tag' Hnl Hg Hne Hres.
    unfold decode_step. rewrite (proj2 (Z.eqb_neq _ _) Hnl).
    by eapply step_n_begin.
  - intros gold Hno. positions Hno 4%nat.
    unfold decode. simpl (2 =? 2).
    unfold get_spans_for_2_tag_scheme, get_spans_for_2_tag_scheme_traced.
    cbn [ctx_loop tok_loop].
    erewrite step_2_begin by side. cbn.
    erewrite step_2_coalesce by side. cbn.
    erewrite step_2_none by side. cbn.
    erewrite step_2_begin by side. reflexivity.
Qed.

(** C1, as the code has it.  Under the 4-class BIOE scheme, for a context
    with no ignored position, the tags [B, I, E, O] decode to the single span
    (0,2); the tags [B, I, O] decode to the single span (0,0): an I does not
    move the end under this scheme, so without an E the span stays where the
    B put it. *)
Theorem bioe_boundary_fixed_by_e (tag : string) :
  NoDup [B; I; E; S'; O] →
  resolve_tag truthy dataset 0 = Ok tag →
  (∀ gold,
      no_ignored gold 0 4 = true →
      decode get_tag_index truthy 4 none_tag gold dataset [[B; I; E; O]]
      = Ok [[mkSpan 0 0 2 tag]])
  ∧ (∀ gold,
      no_ignored gold 0 3 = true →
      decode get_tag_index truthy 4 none_tag gold dataset [[B; I; O]]
      = Ok [[mkSpan 0 0 0 tag]]).
Proof.
  intros distinct Htag.
  destruct (distinct_indices distinct) as (? & ? & ? & ? & ? & ? & ? & ? & ?).
  unfold B, I, E, S' in *. split.
  - intros gold Hno. positions Hno 4%nat.
    unfold decode. simpl (4 =? 2).
    unfold get_spans, get_spans_traced. cbn [ctx_loop tok_loop].
    erewrite step_n_begin by side. cbn.
    erewrite step_n_inside_keep by side. cbn.
    erewrite step_n_end_grow by side. cbn.
    erewrite step_n_none by side. reflexivity.
  - intros gold Hno. positions Hno 3%nat.
    unfold decode. simpl (4 =? 2).
    unfold get_spans, get_spans_traced. cbn [ctx_loop tok_loop].
    erewrite step_n_begin by side. cbn.
    erewrite step_n_inside_keep by side. cbn.
    erewrite step_n_none by side. reflexivity.
Qed.

End Schemes.

Lemma layout_distinct :
  NoDup [b_tag_index tag_layout "O"; i_tag_index tag_layout "O";
         e_tag_index tag_layout "O"; s_tag_index tag_layout "O"; 0].
Proof. refine (bool_decide_unpack _ _). vm_compute. exact Logic.I. Defined.

Lemma bio_inside_extends_witness :
  decode tag_layout always_truthy 3 "O" [[1; 2; 2; 0]] None [[1; 2; 2; 0]]
  = Ok [[mkSpan 0 0 2 "TAG"]].
Proof.
  exact (proj2 (bio_inside_extends tag_layout always_truthy "O" None 0 "TAG"
                  layout_distinct eq_refl) [[1; 2; 2; 0]] eq_refl).
Defined.

Lemma bo_adjacent_b_coalesce_witness :
  decode tag_layout always_truthy 2 "O" [[1; 1; 0; 1]] None [[1; 1; 0; 1]]
  = Ok [[mkSpan 0 0 1 "TAG"; mkSpan 0 3 3 "TAG"]].
Proof.
  refine (proj2 (proj2 (bo_adjacent_b_coalesce tag_layout always_truthy "O" None 0
                          "TAG" _ eq_refl)) [[1; 1; 0; 1]] eq_refl).
  discriminate.
Defined.

Lemma bioe_boundary_fixed_by_e_witness :
  decode tag_layout always_truthy 4 "O" [[1; 2; 3; 0]] None [[1; 2; 3; 0]]
  = Ok [[mkSpan 0 0 2 "TAG"]]
  ∧ decode tag_layout always_truthy 4 "O" [[1; 2; 0]] None [[1; 2; 0]]
    = Ok [[mkSpan 0 0 0 "TAG"]].
Proof.
  destruct (bioe_boundary_fixed_by_e tag_layout always_truthy "O" None 0 "TAG"
              layout_distinct eq_refl) as [H4 H3].
  split; [exact (H4 [[1; 2; 3; 0]] eq_refl) | exact (H3 [[1; 2; 0]] eq_refl)].
Defined.

(** C1, as the spec words it, fails: with B, I and the none tag at indices 1,
    2 and 0, the tags [B, I, O] under the 4-class scheme do not decode to a
    span with boundaries (0,1). *)
Lemma bioe_missing_end_counterexample :
  ¬ ∃ s, decode tag_layout always_truthy 4 "O" [[1; 2; 0]] None [[1; 2; 0]]
         = Ok [[s]]
         ∧ span_start s = 0%nat ∧ span_end s = 1%nat.
Proof. intros (s & Hdec & _ & Hend). vm_compute in Hdec. by injection Hdec as <-. Qed.

(** ** The accumulator and the scoring loop *)

Lemma counts_of_bump (f : Counts → Counts) (k : string) (m : Metric) (t : string) :
  counts_of (bump f k m) t
  = if String.eqb k t then f (counts_of m t) else counts_of m t.
Proof.
  induction m as [|[k' c] m IH]; simpl.
  - by destruct (String.eqb k t).
  - destruct (String.eqb_spec k' k) as [->|Hk]; simpl.
    + by destruct (String.eqb k t).
    + rewrite IH. destruct (String.eqb_spec k' t) as [->|Ht]; [|done].
      destruct (String.eqb_spec k t) as [->|]; [done|done].
Qed.

Lemma counts_of_new_metric (tags : list string) (t : string) :
  counts_of (new_metric tags) t = zero_counts.
Proof.
  unfold new_metric.
  assert (∀ m, counts_of m t = zero_counts →
               counts_of (fold_left (λ m t, bump id t m) tags m) t = zero_counts)
    as H; [|by apply H].
  induction tags as [|k tags IH]; intros m Hm; simpl; [done|].
  apply IH. rewrite counts_of_bump, Hm. by destruct (String.eqb k t).
Qed.

Lemma add_counts_zero (c : Counts) : add_counts c zero_counts = c.
Proof. destruct c. unfold add_counts. simpl. f_equal; lia. Qed.

Lemma score_predicted (t : string) (gs ps : list Span) (m : Metric) :
  counts_of
    (fold_left (λ m span, if span_in span gs then add_tp m span else add_fp m span)
       ps m) t
  = add_counts (counts_of m t)
      {| tp := length (filter (λ s, span_tag s = t ∧ s ∈ gs) ps);
         fp := length (filter (λ s, span_tag s = t ∧ s ∉ gs) ps);
         fn := 0 |}.
Proof.
  revert m. induction ps as [|s ps IH]; intros m; simpl.
  - symmetry. apply add_counts_zero.
  - rewrite IH. rewrite !filter_cons.
    destruct (span_in s gs) eqn:Hin.
    + apply span_in_elem_of in Hin. unfold add_tp. rewrite counts_of_bump.
      destruct (String.eqb_spec (span_tag s) t) as [Ht|Ht].
      * rewrite decide_True by done. rewrite decide_False by tauto.
        destruct (counts_of m t). unfold add_counts. simpl. f_equal; lia.
      * rewrite !decide_False by tauto. done.
    + assert (s ∉ gs) as Hnin.
      { intros H. apply span_in_elem_of in H. congruence. }
      unfold add_fp. rewrite counts_of_bump.
      destruct (String.eqb_spec (span_tag s) t) as [Ht|Ht].
      * rewrite decide_False by tauto. rewrite decide_True by done.
        destruct (counts_of m t). unfold add_counts. simpl. f_equal; lia.
      * rewrite !decide_False by tauto. done.
Qed.

Lemma score_gold (t : string) (gs ps : list Span) (m : Metric) :
  counts_of
    (fold_left (λ m span, if negb (span_in span ps) then add_fn m span else m) gs m) t
  = add_counts (counts_of m t)
      {| tp := 0; fp := 0;
         fn := length (filter (λ s, span_tag s = t ∧ s ∉ ps) gs) |}.
Proof.
  revert m. induction gs as [|s gs IH]; intros m; simpl.
  - symmetry. apply add_counts_zero.
  - rewrite IH. rewrite filter_cons.
    destruct (span_in s ps) eqn:Hin; simpl.
    + apply span_in_elem_of in Hin. rewrite decide_False by tauto. done.
    + assert (s ∉ ps) as Hnin.
      { intros H. apply span_in_elem_of in H. congruence. }
      unfold add_fn. rewrite counts_of_bump.
      destruct (String.eqb_spec (span_tag s) t) as [Ht|Ht].
      * rewrite decide_True by done.
        destruct (counts_of m t). unfold add_counts. simpl. f_equal; lia.
      * rewrite decide_False by tauto. done.
Qed.

Lemma score_context_counts (t : string) (gs ps : list Span) (m : Metric) :
  counts_of (score_context m gs ps) t
  = add_counts (counts_of m t)
      {| tp := length (filter (λ s, span_tag s = t ∧ s ∈ gs) ps);
         fp := length (filter (λ s, span_tag s = t ∧ s ∉ gs) ps);
         fn := length (filter (λ s, span_tag s = t ∧ s ∉ ps) gs) |}.
Proof.
  unfold score_context. rewrite score_gold, score_predicted.
  destruct (counts_of m t). unfold add_counts. simpl. f_equal; lia.
Qed.

Lemma score_pairs_counts (t : string) (pairs : list (list Span * list Span))
    (m : Metric) :
  counts_of (fold_left (λ m gp, score_context m (fst gp) (snd gp)) pairs m) t
  = add_counts (counts_of m t)
      {| tp := sum_list_with
                 (λ gp, length (filter (λ s, span_tag s = t ∧ s ∈ fst gp) (snd gp)))
                 pairs;
         fp := sum_list_with
                 (λ gp, length (filter (λ s, span_tag s = t ∧ s ∉ fst gp) (snd gp)))
                 pairs;
         fn := sum_list_with
                 (λ gp, length (filter (λ s, span_tag s = t ∧ s ∉ snd gp) (fst gp)))
                 pairs |}.
Proof.
  revert m. induction pairs as [|[gs ps] pairs IH]; intros m; simpl.
  - symmetry. apply add_counts_zero.
  - rewrite IH, score_context_counts.
    destruct (counts_of m t). unfold add_counts. simpl. f_equal; lia.
Qed.

Lemma filter_split_length (t : string) (gs ps : list Span) :
  (length (filter (λ s, span_tag s = t ∧ s ∈ gs) ps)
   + length (filter (λ s, span_tag s = t ∧ s ∉ gs) ps))%nat
  = length (filter (λ s, span_tag s = t) ps).
Proof.
  induction ps as [|s ps IH]; [done|]. rewrite !filter_cons.
  destruct (decide (span_tag s = t)) as [Ht|Ht].
  - destruct (decide (s ∈ gs)) as [Hin|Hin].
    + rewrite decide_True by done. rewrite decide_False by tauto. simpl. lia.
    + rewrite decide_False by tauto. rewrite decide_True by done. simpl. lia.
  - rewrite !decide_False by tauto. done.
Qed.

(** C6.  After scoring, the counters of every entity type [t] are: as true
    positives, the predicted spans of type [t] that are value-equal to a span
    of the gold list of their context; as false positives, the other
    predicted spans of type [t]; as false negatives, the gold spans of type
    [t] with no value-equal span in the predicted list of their context.
    Every predicted span is thus counted once, as one or the other: the true
    and false positives of [t] add up to the predicted spans of type [t]. *)
Theorem exact_match_scoring (tags : list string)
    (gold_spans predicted_spans : list (list Span)) (t : string) :
  counts_of (calc_entity_metrics tags gold_spans predicted_spans) t
  = {| tp := true_positives t gold_spans predicted_spans;
       fp := false_positives t gold_spans predicted_spans;
       fn := false_negatives t gold_spans predicted_spans |}
  ∧ (true_positives t gold_spans predicted_spans
     + false_positives t gold_spans predicted_spans)%nat
    = predicted_of_type t gold_spans predicted_spans.
Proof.
  split.
  - unfold calc_entity_metrics. rewrite score_pairs_counts, counts_of_new_metric.
    unfold true_positives, false_positives, false_negatives, add_counts. simpl.
    done.
  - unfold true_positives, false_positives, predicted_of_type.
    induction (zip gold_spans predicted_spans) as [|[gs ps] pairs IH]; [done|].
    simpl. rewrite <- IH, <- (filter_split_length t gs ps). lia.
Qed.

(** The two cases of the spec's exact-match example. *)
Example exact_match_example :
  let m := calc_entity_metrics ["TAG"] [[mkSpan 0 0 2 "DISEASE"]]
             [[mkSpan 0 0 2 "DISEASE"]] in
  counts_of m "DISEASE" = {| tp := 1; fp := 0; fn := 0 |}
  ∧ (precision m "DISEASE" == 1)%Q ∧ (recall m "DISEASE" == 1)%Q
  ∧ (f1 m "DISEASE" == 1)%Q.
Proof. vm_compute. repeat split; congruence. Qed.

Example off_by_one_example :
  let m := calc_entity_metrics ["TAG"] [[mkSpan 0 0 2 "DISEASE"]]
             [[mkSpan 0 0 1 "DISEASE"]] in
  counts_of m "DISEASE" = {| tp := 0; fp := 1; fn := 1 |}
  ∧ (precision m "DISEASE" == 0)%Q ∧ (recall m "DISEASE" == 0)%Q
  ∧ (f1 m "DISEASE" == 0)%Q.
Proof. vm_compute. repeat split; congruence. Qed.

(** ** The micro-average *)

Lemma micro_counts_sums (m : Metric) :
  micro_counts m
  = {| tp := sum_list_with (λ kc, tp (snd kc)) m;
       fp := sum_list_with (λ kc, fp (snd kc)) m;
       fn := sum_list_with (λ kc, fn (snd kc)) m |}.
Proof.
  induction m as [|[k c] m IH]; [done|].
  unfold micro_counts in *. simpl. rewrite IH. done.
Qed.

(** C9.  The micro-average pools the counters first: its precision, recall
    and F1 are the three formulas applied to the sums of tp, fp and fn over
    the registered types.  For two types with (tp, fp, fn) = (8, 2, 0) and
    (2, 0, 8) the sums are (10, 2, 8), the precision is 10/12, the recall
    10/18 and the F1 2/3, within a thousandth of 0.667; the per-type F1 are
    8/9 and 1/3, and their mean is another number. *)
Theorem micro_average_pools_counts :
  (∀ m : Metric,
      let pooled :=
        {| tp := sum_list_with (λ kc, tp (snd kc)) m;
           fp := sum_list_with (λ kc, fp (snd kc)) m;
           fn := sum_list_with (λ kc, fn (snd kc)) m |} in
      micro_avg_precision m = ratio (tp pooled) (tp pooled + fp pooled)
      ∧ micro_avg_recall m = ratio (tp pooled) (tp pooled + fn pooled)
      ∧ micro_avg_f1 m = f1_of pooled)
  ∧ counts_of two_type_metric "A" = {| tp := 8; fp := 2; fn := 0 |}
  ∧ counts_of two_type_metric "B" = {| tp := 2; fp := 0; fn := 8 |}
  ∧ micro_counts two_type_metric = {| tp := 10; fp := 2; fn := 8 |}
  ∧ (micro_avg_precision two_type_metric == 10 # 12)%Q
  ∧ (micro_avg_recall two_type_metric == 10 # 18)%Q
  ∧ (micro_avg_f1 two_type_metric == 2 # 3)%Q
  ∧ (666 # 1000 < micro_avg_f1 two_type_metric)%Q
  ∧ (micro_avg_f1 two_type_metric < 668 # 1000)%Q
  ∧ (f1 two_type_metric "A" == 8 # 9)%Q
  ∧ (f1 two_type_metric "B" == 1 # 3)%Q
  ∧ ¬ (micro_avg_f1 two_type_metric == macro_avg_f1 two_type_metric)%Q.
Proof.
  split.
  - intros m pooled. unfold micro_avg_precision, micro_avg_recall, micro_avg_f1.
    rewrite micro_counts_sums. fold pooled. done.
  - vm_compute. repeat split; congruence.
Qed.

(** ** When decoding raises *)

Section Definedness.

Variable get_tag_index : string → string → Z.
Variable truthy : NerQADataset → bool.
Variable num_labels : Z.
Variable none_tag : string.
Variable gold : list (list Z).
Variable dataset : option NerQADataset.

Let step := decode_step get_tag_index truthy num_labels none_tag gold dataset.

(** A step returns as soon as the gold array has the position and the type
    of the context can be looked up. *)
Lemma decode_step_defined (c t : nat) (v g : Z) (tag : string) (st : DecState) :
  gold_at gold c t = Ok g → resolve_tag truthy dataset c = Ok tag →
  ∃ st' br, step c t v st = Ok (st', br).
Proof.
  intros Hg Htag. unfold step, decode_step.
  destruct (num_labels =? 2).
  - unfold get_spans_2_step. rewrite Hg. simpl.
    destruct (g =? IGNORE); [eauto|].
    destruct (v =? _); [|eauto]. rewrite Htag. simpl.
    destruct (deref st) as [prev|]; [|simpl; eauto].
    destruct (String.eqb _ _); simpl; eauto.
  - unfold get_spans_step. rewrite Hg. simpl.
    destruct (g =? IGNORE); [eauto|].
    destruct (v =? b_tag_index _ _); [rewrite Htag; simpl; eauto|].
    destruct (v =? s_tag_index _ _); [rewrite Htag; simpl; eauto|].
    destruct (deref st) as [prev|]; [|eauto].
    destruct (v =? i_tag_index _ _).
    { rewrite Htag. simpl. destruct (String.eqb _ _); [|eauto].
      destruct (num_labels =? 3); eauto. }
    destruct (v =? e_tag_index _ _); [|eauto].
    rewrite Htag. simpl. destruct (String.eqb _ _); eauto.
Qed.

(** A step that returns has found the position in the gold array. *)
Lemma decode_step_gold (c t : nat) (v : Z) (st st' : DecState) (br : Branch) :
  step c t v st = Ok (st', br) → ∃ g, gold_at gold c t = Ok g.
Proof.
  unfold step, decode_step, get_spans_2_step, get_spans_step. intros H.
  destruct (num_labels =? 2); apply bind_Ok in H as (g & Hg & _); eauto.
Qed.

Lemma tok_loop_defined (c : nat) (tag : string) (row : list Z) (t : nat)
    (st : DecState) :
  resolve_tag truthy dataset c = Ok tag →
  (∀ k, (k < length row)%nat → ∃ g, gold_at gold c (t + k) = Ok g) →
  ∃ st' brs, tok_loop step c row t st = Ok (st', brs).
Proof.
  intros Htag. revert t st. induction row as [|v row IH]; intros t st Hgold.
  - simpl. eauto.
  - destruct (Hgold 0%nat) as [g Hg]; [simpl; lia|]. rewrite Nat.add_0_r in Hg.
    destruct (decode_step_defined c t v g tag st Hg Htag) as (st1 & br & Hs).
    destruct (IH (S t) st1) as (st2 & brs & Hl).
    { intros k Hk. destruct (Hgold (S k)) as [g' Hg']; [simpl; lia|].
      exists g'. by replace (S t + k)%nat with (t + S k)%nat by lia. }
    exists st2, (br :: brs). simpl. fold step. rewrite Hs. simpl. by rewrite Hl.
Qed.

Lemma tok_loop_gold (c : nat) (row : list Z) (t : nat) (st st' : DecState)
    (brs : list Branch) :
  tok_loop step c row t st = Ok (st', brs) →
  ∀ k, (k < length row)%nat → ∃ g, gold_at gold c (t + k) = Ok g.
Proof.
  revert t st st' brs. induction row as [|v row IH]; intros t st st' brs H k Hk.
  - simpl in Hk. lia.
  - simpl in H. apply bind_Ok in H as ([st1 br] & H1 & H).
    apply bind_Ok in H as ([st2 brs2] & H2 & _).
    destruct k as [|k].
    + rewrite Nat.add_0_r. eapply decode_step_gold, H1.
    + replace (t + S k)%nat with (S t + k)%nat by lia.
      eapply IH; [exact H2|]. simpl in Hk. lia.
Qed.

Lemma row_covered_gold (c : nat) (row : list Z) :
  row_covered gold c row = true
  ↔ ∀ k, (k < length row)%nat → ∃ g, gold_at gold c k = Ok g.
Proof.
  unfold row_covered. destruct row as [|v row].
  { split; [|done]. intros _ k Hk. simpl in Hk. lia. }
  split.
  - destruct (gold !! c) as [gold_row|] eqn:Hrow; [|discriminate].
    intros Hle k Hk. apply Nat.leb_le in Hle.
    destruct (lookup_lt_is_Some_2 gold_row k) as [g Hg]; [lia|].
    exists g. apply gold_at_Ok. eauto.
  - intros H.
    destruct (H (length row)) as [g Hg]; [simpl; lia|].
    apply gold_at_Ok in Hg as (gold_row & -> & Hg).
    apply Nat.leb_le. apply lookup_lt_Some in Hg. simpl. lia.
Qed.

Lemma row_covered_in_gold (c : nat) (row : list Z) :
  row_covered gold c row = true → row = [] ∨ (c < length gold)%nat.
Proof.
  unfold row_covered. destruct row as [|v row]; [auto|].
  destruct (gold !! c) eqn:Hrow; [|discriminate].
  intros _. right. eapply lookup_lt_Some, Hrow.
Qed.

Lemma resolves_at (n c : nat) :
  resolves truthy dataset n = true → (c < n)%nat →
  ∃ tag, resolve_tag truthy dataset c = Ok tag.
Proof.
  unfold resolves. rewrite forallb_forall. intros H Hc.
  specialize (H c). rewrite in_seq in H. specialize (H ltac:(lia)).
  destruct (resolve_tag truthy dataset c); [eauto|discriminate].
Qed.

Lemma ctx_loop_defined (batch : list (list Z)) (c0 : nat) :
  resolves truthy dataset (length gold) = true →
  covers_from gold batch c0 = true →
  ∃ out, ctx_loop step batch c0 = Ok out.
Proof.
  intros Hres. revert c0. induction batch as [|row batch IH]; intros c0 Hcov.
  - simpl. eauto.
  - simpl in Hcov. apply andb_true_iff in Hcov as [Hrow Hcov].
    destruct (IH _ Hcov) as [rest Hrest].
    assert (∃ st brs, tok_loop step c0 row 0%nat init_state = Ok (st, brs))
      as (st & brs & Hl).
    { destruct (row_covered_in_gold _ _ Hrow) as [->|Hin]; [simpl; eauto|].
      destruct (resolves_at _ _ Hres Hin) as [tag Htag].
      eapply tok_loop_defined; [done|]. simpl. by apply row_covered_gold. }
    simpl. rewrite Hl. simpl. rewrite Hrest. simpl. eauto.
Qed.

Lemma ctx_loop_covers (batch : list (list Z)) (c0 : nat)
    (out : list (list Span * list Branch)) :
  ctx_loop step batch c0 = Ok out → covers_from gold batch c0 = true.
Proof.
  revert c0 out. induction batch as [|row batch IH]; intros c0 out H; [done|].
  simpl in H. apply bind_Ok in H as ([st brs] & H1 & H).
  apply bind_Ok in H as (rest & H2 & _).
  simpl. apply andb_true_iff. split; [|eauto].
  apply row_covered_gold. intros k Hk.
  exact (tok_loop_gold _ _ _ _ _ _ H1 k Hk).
Qed.

(** Decoding returns exactly when every position of the batch is a position
    of the gold array, entity types permitting. *)
Lemma decode_defined (batch : list (list Z)) :
  resolves truthy dataset (length gold) = true →
  covers gold batch = true →
  ∃ out, decode get_tag_index truthy num_labels none_tag gold dataset batch = Ok out.
Proof.
  intros Hres Hcov. rewrite decode_unfold, decode_traced_unfold.
  destruct (ctx_loop_defined batch 0 Hres Hcov) as [out Hout].
  fold step. rewrite Hout. simpl. eauto.
Qed.

Lemma decode_covers (batch : list (list Z)) (out : list (list Span)) :
  decode get_tag_index truthy num_labels none_tag gold dataset batch = Ok out →
  covers gold batch = true.
Proof.
  rewrite decode_unfold, decode_traced_unfold. intros H.
  apply bind_Ok in H as (r & Hr & _). eapply ctx_loop_covers, Hr.
Qed.

End Definedness.

Lemma covers_from_suffix (gold batch : list (list Z)) (c0 : nat) :
  (∀ k row, batch !! k = Some row → gold !! (c0 + k)%nat = Some row) →
  covers_from gold batch c0 = true.
Proof.
  revert c0. induction batch as [|row batch IH]; intros c0 H; [done|].
  simpl. apply andb_true_iff. split.
  - unfold row_covered. destruct row as [|v row]; [done|].
    specialize (H 0%nat _ eq_refl). rewrite Nat.add_0_r in H. rewrite H.
    apply Nat.leb_le. lia.
  - apply IH. intros k row' Hk.
    replace (S c0 + k)%nat with (c0 + S k)%nat by lia. by apply H.
Qed.

Lemma covers_refl (gold : list (list Z)) : covers gold gold = true.
Proof. apply covers_from_suffix. by intros k row Hk. Qed.

Lemma zip_take_l {A B : Type} (xs : list A) (ys : list B) :
  zip xs ys = zip (take (length ys) xs) ys.
Proof.
  revert ys. induction xs as [|x xs IH]; intros [|y ys]; simpl; try done.
  by rewrite <- IH.
Qed.

(** C3, as the code has it.  The evaluator checks no shape.  When some
    position of the predicted batch is missing from the gold array (a context
    too many, or a context longer than its gold one), building the evaluator
    raises [IndexError].  Otherwise, the entity types of the gold contexts
    permitting, it returns normally, whether or not the shapes agree: one
    span list is decoded per gold context and one per predicted context, and
    the metric is that of the gold lists cut down to the number of predicted
    contexts. *)
Theorem evaluator_checks_no_shape (get_tag_index : string → string → Z)
    (truthy : NerQADataset → bool) (gold predicted : list (list Z))
    (num_labels : Z) (none_tag : string) (dataset : option NerQADataset) :
  (covers gold predicted = false →
   new_EvaluatorQA get_tag_index truthy gold predicted num_labels none_tag dataset
   = Raise IndexError)
  ∧ (covers gold predicted = true →
     resolves truthy dataset (length gold) = true →
     ∃ gs ps,
       length gs = length gold ∧ length ps = length predicted
       ∧ new_EvaluatorQA get_tag_index truthy gold predicted num_labels none_tag
           dataset
         = Ok {| gold_entity_spans := gs;
                 predicted_entity_spans := ps;
                 entity_metric :=
                   calc_entity_metrics (evaluator_tags truthy dataset)
                     (take (length predicted) gs) ps |}).
Proof.
  split.
  - intros Hcov.
    destruct (result_exn (new_EvaluatorQA get_tag_index truthy gold predicted
                            num_labels none_tag dataset)) as [[ev Hev]|H]; [|done].
    unfold new_EvaluatorQA in Hev.
    apply bind_Ok in Hev as (gs & _ & Hev).
    apply bind_Ok in Hev as (ps & Hps & _).
    apply decode_covers in Hps. congruence.
  - intros Hcov Hres.
    destruct (decode_defined get_tag_index truthy num_labels none_tag gold dataset
                gold Hres (covers_refl gold)) as [gs Hgs].
    destruct (decode_defined get_tag_index truthy num_labels none_tag gold dataset
                predicted Hres Hcov) as [ps Hps].
    exists gs, ps.
    pose proof (decode_length _ _ _ _ _ _ _ _ Hgs) as Hlg.
    pose proof (decode_length _ _ _ _ _ _ _ _ Hps) as Hlp.
    split; [done|]. split; [done|].
    unfold new_EvaluatorQA. rewrite Hgs. simpl. rewrite Hps. simpl.
    do 2 f_equal. unfold calc_entity_metrics.
    by rewrite (zip_take_l gs ps), Hlp.
Qed.

Lemma evaluator_checks_no_shape_witness :
  new_EvaluatorQA tag_layout always_truthy [[1; 0]] [[1; 0]; [1]] 2 "O" None
  = Raise IndexError.
Proof.
  exact (proj1 (evaluator_checks_no_shape tag_layout always_truthy [[1; 0]]
                  [[1; 0]; [1]] 2 "O" None) eq_refl).
Defined.

(** C3, as the spec words it, fails: gold has two contexts and predicted has
    one, yet the evaluator returns normally; the span of the second gold
    context is decoded but never scored, so the counters read one true
    positive and no false negative. *)
Lemma shape_mismatch_counterexample :
  length [[1; 0]; [1; 0]] ≠ length [[1; 0]]
  ∧ ∃ ev,
      new_EvaluatorQA tag_layout always_truthy [[1; 0]; [1; 0]] [[1; 0]] 2 "O" None
      = Ok ev
      ∧ gold_entity_spans ev = [[mkSpan 0 0 0 "TAG"]; [mkSpan 1 0 0 "TAG"]]
      ∧ predicted_entity_spans ev = [[mkSpan 0 0 0 "TAG"]]
      ∧ counts_of (entity_metric ev) "TAG" = {| tp := 1; fp := 0; fn := 0 |}.
Proof.
  split; [discriminate|].
  eexists. split; [reflexivity|]. by vm_compute.
Qed.

(** * Further properties of the decoders *)

Section StepDetail.

Variable get_tag_index : string → string → Z.
Variable truthy : NerQADataset → bool.
Variable num_labels : Z.
Variable none_tag : string.
Variable gold : list (list Z).
Variable dataset : option NerQADataset.

Let step := decode_step get_tag_index truthy num_labels none_tag gold dataset.
Let detail := step_detail get_tag_index truthy num_labels none_tag gold dataset.

Lemma decode_step_detail (c t : nat) (v : Z) (st st' : DecState) (br : Branch) :
  step c t v st = Ok (st', br) → detail c t v st st'.
Proof.
  unfold step, detail, decode_step, step_detail. intros H.
  destruct (Z.eqb_spec num_labels 2) as [Hnl|Hnl].
  - unfold get_spans_2_step in H.
    apply bind_Ok in H as (g & Hg & H).
    destruct (Z.eqb_spec g IGNORE) as [->|Hne].
    { injection H as <- <-. left. by repeat split. }
    assert (scorable gold c t) as Hsc by (by exists g).
    destruct (Z.eqb_spec v (b_tag_index get_tag_index none_tag)) as [Hv|Hv].
    2:{ injection H as <- <-. right; left. repeat split; [done| |done..].
        intros [?|[? _]]; done. }
    apply bind_Ok in H as (tag & Htag & H).
    assert (start_tag get_tag_index num_labels none_tag v) as Hst by (by left).
    destruct (deref st) as [prev|] eqn:Ed.
    + apply deref_Some in Ed as (r & Hr & Hprev).
      destruct (String.eqb tag (span_tag prev)).
      * injection H as <- <-. do 4 right. exists r, prev.
        unfold assign_end. rewrite Hr. simpl.
        repeat split; [done| |done..]. by left.
      * simpl in H. injection H as <- <-. do 3 right; left. exists tag.
        simpl. repeat split; [done..|]. by left.
    + simpl in H. injection H as <- <-. do 3 right; left. exists tag.
      simpl. repeat split; [done..|]. by left.
  - unfold get_spans_step in H.
    apply bind_Ok in H as (g & Hg & H).
    destruct (Z.eqb_spec g IGNORE) as [->|Hne].
    { injection H as <- <-. left. by repeat split. }
    assert (scorable gold c t) as Hsc by (by exists g).
    destruct (Z.eqb_spec v (b_tag_index get_tag_index none_tag)) as [Hv|Hv].
    { apply bind_Ok in H as (tag & Htag & H). simpl in H. injection H as <- <-.
      do 3 right; left. exists tag. simpl.
      repeat split; [done|by left|done..|]. by left. }
    destruct (Z.eqb_spec v (s_tag_index get_tag_index none_tag)) as [Hs|Hs].
    { apply bind_Ok in H as (tag & Htag & H). simpl in H. injection H as <- <-.
      do 3 right; left. exists tag. simpl.
      repeat split; [done|by right|done..|]. by right. }
    assert (¬ start_tag get_tag_index num_labels none_tag v) as Hnst.
    { intros [?|[_ ?]]; done. }
    assert (det_close get_tag_index num_labels none_tag gold c t v st
              {| context_spans := context_spans st; prev_span := None |}) as Hclose.
    { by repeat split. }
    destruct (deref st) as [prev|] eqn:Ed.
    2:{ injection H as <- <-. right; left. done. }
    apply deref_Some in Ed as (r & Hr & Hprev).
    destruct (Z.eqb_spec v (i_tag_index get_tag_index none_tag)) as [Hi|Hi].
    { apply bind_Ok in H as (tag & Htag & H).
      assert (interior_tag get_tag_index num_labels none_tag v) as Hin.
      { right. repeat split; [done..|]. by left. }
      destruct (String.eqb tag (span_tag prev)).
      - destruct (Z.eqb_spec num_labels 3) as [H3|H3].
        + injection H as <- <-. do 4 right. exists r, prev.
          unfold assign_end. rewrite Hr. simpl. by repeat split.
        + injection H as <- <-. do 2 right; left. by repeat split.
      - injection H as <- <-. right; left. done. }
    destruct (Z.eqb_spec v (e_tag_index get_tag_index none_tag)) as [He|He].
    { apply bind_Ok in H as (tag & Htag & H).
      assert (interior_tag get_tag_index num_labels none_tag v) as Hin.
      { right. repeat split; [done..|]. by right. }
      destruct (String.eqb tag (span_tag prev)).
      - injection H as <- <-. do 4 right. exists r, prev.
        unfold assign_end. rewrite Hr. simpl. by repeat split.
      - injection H as <- <-. right; left. done. }
    injection H as <- <-. right; left. done.
Qed.

(** The steps of a walk from the start of [row] meet the tags of [row]. *)
Lemma tok_loop_row_invariant (c : nat) (row : list Z) (J : nat → DecState → Prop) :
  (∀ t v st st' br,
      row !! t = Some v → J t st → step c t v st = Ok (st', br) → J (S t) st') →
  J 0%nat init_state →
  ∀ st brs, tok_loop step c row 0%nat init_state = Ok (st, brs) →
    J (length row) st.
Proof.
  intros Hstep H0.
  assert (∀ rest t st st' brs,
             (∀ k v, rest !! k = Some v → row !! (t + k)%nat = Some v) →
             J t st → tok_loop step c rest t st = Ok (st', brs) →
             J (t + length rest)%nat st') as Hgen.
  { induction rest as [|v rest IH]; intros t st st' brs Hrow HJ H.
    - injection H as <- <-. by rewrite Nat.add_0_r.
    - simpl in H. apply bind_Ok in H as ([st1 br] & H1 & H).
      apply bind_Ok in H as ([st2 brs2] & H2 & H). injection H as <- <-.
      simpl. replace (t + S (length rest))%nat with (S t + length rest)%nat by lia.
      eapply IH; [|eapply Hstep; [|exact HJ|exact H1]|exact H2].
      + intros k v' Hk. replace (S t + k)%nat with (t + S k)%nat by lia.
        by apply Hrow.
      + specialize (Hrow 0%nat v eq_refl). by rewrite Nat.add_0_r in Hrow. }
  intros st brs H. apply (Hgen row 0%nat init_state st brs); auto.
Qed.

End StepDetail.

Section WalkShape.

Variable get_tag_index : string → string → Z.
Variable truthy : NerQADataset → bool.
Variable num_labels : Z.
Variable none_tag : string.
Variable gold : list (list Z).
Variable dataset : option NerQADataset.

Let step := decode_step get_tag_index truthy num_labels none_tag gold dataset.
Let inv := walk_inv get_tag_index num_labels none_tag gold.
Let B := b_tag_index get_tag_index none_tag.

Lemma start_interior_excl (v : Z) :
  num_labels ≠ 2 →
  start_tag get_tag_index num_labels none_tag v →
  interior_tag get_tag_index num_labels none_tag v → False.
Proof. intros Hn [?|[_ ?]] [[? _]|(_ & ? & ? & _)]; done. Qed.

Lemma walk_inv_init (c : nat) (row : list Z) : inv c row 0%nat init_state.
Proof.
  split; [apply decoder_inv_init|]. split; [|split].
  - intros s Hin. by apply elem_of_nil in Hin.
  - intros r prev Hr. discriminate.
  - intros p v Hp. lia.
Qed.

Lemma walk_inv_step (c : nat) (row : list Z) (t : nat) (v : Z)
    (st st' : DecState) (br : Branch) :
  row !! t = Some v → inv c row t st → step c t v st = Ok (st', br) →
  inv c row (S t) st'.
Proof.
  intros Hv (Hdi & Hsh & Hop & Hco) Hs.
  assert (decoder_inv (S t) st') as Hdi'.
  { eapply step_effect_inv; [done|]. eapply decode_step_effect, Hs. }
  split; [done|]. clear Hdi'.
  destruct Hdi as (Hlast & Hord & Hbnd).
  destruct (decode_step_detail _ _ _ _ _ _ _ _ _ _ _ _ Hs) as [D|[D|[D|[D|D]]]].
  - destruct D as (Hg & Hsp & Hp). split; [|split].
    + intros s Hin. rewrite Hsp in Hin. by apply Hsh.
    + intros r prev Hr. rewrite Hp in Hr. discriminate.
    + intros p v' Hpt Hsc Hrow Hst. rewrite Hsp.
      destruct (decide (p = t)) as [->|Hne]; [|apply (Hco p v'); [lia|done..]].
      destruct Hsc as (g & Hg' & Hne). congruence.
  - destruct D as (Hsc & Hnst & Hsp & Hp). split; [|split].
    + intros s Hin. rewrite Hsp in Hin. by apply Hsh.
    + intros r prev Hr. rewrite Hp in Hr. discriminate.
    + intros p v' Hpt Hscp Hrow Hst. rewrite Hsp.
      destruct (decide (p = t)) as [->|Hne]; [|apply (Hco p v'); [lia|done..]].
      rewrite Hv in Hrow. injection Hrow as <-. done.
  - destruct D as (Hsc & Hn2 & Hn3 & Hin & Hsome & ->). split; [|split].
    + done.
    + intros r prev Hr Hprev.
      destruct (Hop r prev Hr Hprev) as (HB & Hrange & Hint & H2).
      assert (prev ∈ context_spans st) as Hmem
        by (apply list_elem_of_lookup; eauto).
      destruct (Hbnd prev Hmem) as [Hse Het].
      split; [done|]. split; [|split; [|done]].
      * intros p Hp. destruct (decide (p = t)) as [->|Hne]; [done|].
        apply Hrange. lia.
      * intros p v' Hp Hrow. destruct (decide (p = t)) as [->|Hne].
        -- rewrite Hv in Hrow. by injection Hrow as <-.
        -- apply (Hint p v'); [lia|done].
    + intros p v' Hpt Hscp Hrow Hst.
      destruct (decide (p = t)) as [->|Hne]; [|apply (Hco p v'); [lia|done..]].
      rewrite Hv in Hrow. injection Hrow as <-.
      destruct (start_interior_excl v Hn2 Hst Hin).
  - destruct D as (tag & Hsc & Hst & Htag & Hsp & Hp). split; [|split].
    + intros s Hin. rewrite Hsp in Hin. apply elem_of_app in Hin as [Hin|Hin].
      { by apply Hsh. }
      apply list_elem_of_singleton in Hin as ->. split; [|split; [|split]]; simpl.
      * eauto.
      * intros p Hpp. by replace p with t by lia.
      * intros p v' Hpp. lia.
      * done.
    + intros r prev Hr Hprev. rewrite Hsp in Hprev.
      destruct Hp as [[HvB Hp]|[_ Hp]]; [|congruence].
      rewrite Hp in Hr. injection Hr as <-.
      rewrite list_lookup_middle in Hprev by done. injection Hprev as <-. simpl.
      split; [by rewrite <- HvB|]. split; [|split]; [| |done].
      * intros p Hp'. by replace p with t by lia.
      * intros p v' Hp'. lia.
    + intros p v' Hpt Hscp Hrow Hstp. rewrite Hsp.
      destruct (decide (p = t)) as [->|Hne].
      * exists (mkSpan c t t tag). split; [|simpl; split; [lia|done]].
        apply elem_of_app. right. by apply list_elem_of_singleton.
      * destruct (Hco p v') as (s & Hin & Hcov & Hstart); [lia|done..|].
        exists s. split; [|done]. apply elem_of_app. by left.
  - destruct D as (r & prev & Hsc & Hin & Hr & Hprev & Hsp & Hp).
    destruct (Hop r prev Hr Hprev) as (HB & Hrange & Hint & H2).
    assert (prev ∈ context_spans st) as Hmem
      by (apply list_elem_of_lookup; eauto).
    destruct (Hbnd prev Hmem) as [Hse Het].
    assert (span_shape get_tag_index num_labels none_tag gold c row
              (set_end t prev)) as Hgrown.
    { split; [|split; [|split]]; simpl.
      - exists B. split; [done|by left].
      - intros p Hpp. destruct (decide (p = t)) as [->|Hne]; [done|].
        apply Hrange. lia.
      - intros p v' Hpp Hrow. destruct (decide (p = t)) as [->|Hne].
        + rewrite Hv in Hrow. by injection Hrow as <-.
        + apply (Hint p v'); [lia|done].
      - intros v' Hrow Hne. rewrite HB in Hrow. by injection Hrow as <-. }
    split; [|split].
    + intros s Hmem'. rewrite Hsp in Hmem'.
      apply list_elem_of_lookup in Hmem' as [i Hi].
      rewrite list_lookup_alter in Hi. case_decide as E.
      * subst i. rewrite Hprev in Hi. by injection Hi as <-.
      * apply Hsh. apply list_elem_of_lookup. eauto.
    + intros r' prev' Hr' Hprev'. rewrite Hp in Hr'. injection Hr' as <-.
      rewrite Hsp, list_lookup_alter_eq, Hprev in Hprev'. injection Hprev' as <-.
      simpl. split; [done|]. split; [|split; [|done]].
      * intros p Hpp. destruct (decide (p = t)) as [->|Hne]; [done|].
        apply Hrange. lia.
      * intros p v' Hpp Hrow. destruct (decide (p = t)) as [->|Hne].
        -- rewrite Hv in Hrow. by injection Hrow as <-.
        -- apply (Hint p v'); [lia|done].
    + intros p v' Hpt Hscp Hrow Hstp. rewrite Hsp.
      assert (set_end t prev ∈ alter (set_end t) r (context_spans st)) as Hnew.
      { apply list_elem_of_lookup. exists r.
        by rewrite list_lookup_alter_eq, Hprev. }
      destruct (decide (p = t)) as [->|Hne].
      * rewrite Hv in Hrow. injection Hrow as <-.
        destruct (decide (num_labels = 2)) as [Hn2|Hn2].
        -- exists (set_end t prev). split; [done|]. simpl. split; [lia|done].
        -- destruct (start_interior_excl v Hn2 Hstp Hin).
      * destruct (Hco p v') as (s & Hs' & Hcov & Hstart); [lia|done..|].
        apply list_elem_of_lookup in Hs' as [i Hi].
        destruct (decide (i = r)) as [->|Hir].
        -- rewrite Hprev in Hi. injection Hi as <-.
           exists (set_end t prev). split; [done|]. simpl. split; [lia|done].
        -- exists s. split; [|done]. apply list_elem_of_lookup. exists i.
           by rewrite list_lookup_alter_ne.
Qed.

Lemma walk_inv_end (c : nat) (row : list Z) (st : DecState) (brs : list Branch) :
  tok_loop step c row 0%nat init_state = Ok (st, brs) →
  inv c row (length row) st.
Proof.
  intros H.
  eapply (tok_loop_row_invariant _ _ _ _ _ _ c row (inv c row)); [| |exact H].
  - intros t v st0 st' br. apply walk_inv_step.
  - apply walk_inv_init.
Qed.

End WalkShape.

Lemma decode_walk_inv (get_tag_index : string → string → Z)
    (truthy : NerQADataset → bool) (num_labels : Z) (none_tag : string)
    (gold : list (list Z)) (dataset : option NerQADataset)
    (batch : list (list Z)) (out : list (list Span)) (c : nat) (row : list Z)
    (spans : list Span) :
  decode get_tag_index truthy num_labels none_tag gold dataset batch = Ok out →
  batch !! c = Some row → out !! c = Some spans →
  ∃ st, spans = context_spans st
    ∧ walk_inv get_tag_index num_labels none_tag gold c row (length row) st
    ∧ typed_inv truthy dataset c st.
Proof.
  intros Hdec Hrow Hc.
  destruct (decode_lookup _ _ _ _ _ _ _ _ _ _ Hdec Hc)
    as (row' & st & brs & Hrow' & Hw & ->).
  rewrite Hrow in Hrow'. injection Hrow' as <-.
  exists st. split; [done|]. split.
  - eapply walk_inv_end, Hw.
  - eapply walk_typed, Hw.
Qed.

(** X1.  A decoded span carries the index of its context and lies within the
    tag sequence it was decoded from. *)
Theorem decoded_span_within_row (get_tag_index : string → string → Z)
    (truthy : NerQADataset → bool) (num_labels : Z) (none_tag : string)
    (gold : list (list Z)) (dataset : option NerQADataset)
    (batch : list (list Z)) (out : list (list Span)) (c : nat) (row : list Z)
    (spans : list Span) (s : Span) :
  decode get_tag_index truthy num_labels none_tag gold dataset batch = Ok out →
  batch !! c = Some row → out !! c = Some spans → s ∈ spans →
  span_context s = c ∧ (span_start s ≤ span_end s < length row)%nat.
Proof.
  intros Hdec Hrow Hc Hin.
  destruct (decode_walk_inv _ _ _ _ _ _ _ _ _ _ _ Hdec Hrow Hc)
    as (st & -> & ((_ & _ & Hbnd) & _) & Hty).
  split; [by apply Hty | by apply Hbnd].
Qed.

Lemma decoded_span_within_row_witness :
  span_context (mkSpan 1 1 2 "TAG") = 1%nat
  ∧ (span_start (mkSpan 1 1 2 "TAG") ≤ span_end (mkSpan 1 1 2 "TAG") < 4)%nat.
Proof.
  exact (decoded_span_within_row tag_layout always_truthy 3 "O"
           [[0; 0]; [0; 1; 2; 0]] None [[0; 0]; [0; 1; 2; 0]]
           [[]; [mkSpan 1 1 2 "TAG"]] 1 [0; 1; 2; 0] [mkSpan 1 1 2 "TAG"]
           (mkSpan 1 1 2 "TAG") eq_refl eq_refl eq_refl (list_elem_of_here _ _)).
Defined.

(** X2.  No position from the start to the end of a decoded span is ignored:
    the gold array holds a value other than -100 at each of them, so a span
    never reaches across an ignored position. *)
Theorem decoded_span_holds_no_ignored_position
    (get_tag_index : string → string → Z)
    (truthy : NerQADataset → bool) (num_labels : Z) (none_tag : string)
    (gold : list (list Z)) (dataset : option NerQADataset)
    (batch : list (list Z)) (out : list (list Span)) (c : nat) (row : list Z)
    (spans : list Span) (s : Span) (p : nat) :
  decode get_tag_index truthy num_labels none_tag gold dataset batch = Ok out →
  batch !! c = Some row → out !! c = Some spans → s ∈ spans →
  (span_start s ≤ p ≤ span_end s)%nat →
  ∃ g, gold_at gold c p = Ok g ∧ g ≠ IGNORE.
Proof.
  intros Hdec Hrow Hc Hin Hp.
  destruct (decode_walk_inv _ _ _ _ _ _ _ _ _ _ _ Hdec Hrow Hc)
    as (st & -> & (_ & Hsh & _) & _).
  destruct (Hsh s Hin) as (_ & Hrange & _). by apply Hrange.
Qed.

Lemma decoded_span_holds_no_ignored_position_witness :
  decode tag_layout always_truthy 4 "O" [[1; 2; -100; 3]] None [[1; 2; 2; 3]]
  = Ok [[mkSpan 0 0 0 "TAG"]]
  ∧ ∃ g, gold_at [[1; 2; -100; 3]] 0 0 = Ok g ∧ g ≠ IGNORE.
Proof.
  split; [reflexivity|].
  refine (decoded_span_holds_no_ignored_position tag_layout always_truthy 4 "O"
            [[1; 2; -100; 3]] None [[1; 2; 2; 3]] [[mkSpan 0 0 0 "TAG"]] 0
            [1; 2; 2; 3] [mkSpan 0 0 0 "TAG"] (mkSpan 0 0 0 "TAG") 0
            eq_refl eq_refl eq_refl (list_elem_of_here _ _) _).
  simpl. lia.
Defined.

(** X3.  A decoded span starts at a B tag (or, where [get_spans] decodes, at
    an S tag), and every later position up to its end holds a tag that moves
    or keeps an open span: B under the 2-tag scheme, otherwise an I or an E
    that is neither B nor S. *)
Theorem decoded_span_tags (get_tag_index : string → string → Z)
    (truthy : NerQADataset → bool) (num_labels : Z) (none_tag : string)
    (gold : list (list Z)) (dataset : option NerQADataset)
    (batch : list (list Z)) (out : list (list Span)) (c : nat) (row : list Z)
    (spans : list Span) (s : Span) :
  decode get_tag_index truthy num_labels none_tag gold dataset batch = Ok out →
  batch !! c = Some row → out !! c = Some spans → s ∈ spans →
  (∃ v, row !! span_start s = Some v
        ∧ (v = b_tag_index get_tag_index none_tag
           ∨ (num_labels ≠ 2 ∧ v = s_tag_index get_tag_index none_tag)))
  ∧ (∀ p v, (span_start s < p ≤ span_end s)%nat → row !! p = Some v →
       (num_labels = 2 ∧ v = b_tag_index get_tag_index none_tag)
       ∨ (num_labels ≠ 2
          ∧ v ≠ b_tag_index get_tag_index none_tag
          ∧ v ≠ s_tag_index get_tag_index none_tag
          ∧ (v = i_tag_index get_tag_index none_tag
             ∨ v = e_tag_index get_tag_index none_tag))).
Proof.
  intros Hdec Hrow Hc Hin.
  destruct (decode_walk_inv _ _ _ _ _ _ _ _ _ _ _ Hdec Hrow Hc)
    as (st & -> & (_ & Hsh & _) & _).
  destruct (Hsh s Hin) as (Hstart & _ & Hint & _). split; [exact Hstart|].
  intros p v Hp Hv. exact (Hint p v Hp Hv).
Qed.

Lemma decoded_span_tags_witness :
  decode tag_layout always_truthy 4 "O" [[1; 2; 3; 0]] None [[1; 2; 3; 0]]
  = Ok [[mkSpan 0 0 2 "TAG"]]
  ∧ ∃ v, [1; 2; 3; 0] !! span_start (mkSpan 0 0 2 "TAG") = Some v
         ∧ (v = b_tag_index tag_layout "O"
            ∨ (4 ≠ 2 ∧ v = s_tag_index tag_layout "O")).
Proof.
  split; [reflexivity|].
  exact (proj1 (decoded_span_tags tag_layout always_truthy 4 "O"
                  [[1; 2; 3; 0]] None [[1; 2; 3; 0]] [[mkSpan 0 0 2 "TAG"]] 0
                  [1; 2; 3; 0] [mkSpan 0 0 2 "TAG"] (mkSpan 0 0 2 "TAG")
                  eq_refl eq_refl eq_refl (list_elem_of_here _ _))).
Defined.

(** X4.  Where [get_spans] decodes (any scheme but the 2-tag one), every B
    or S tag at a position that is not ignored yields a span starting
    there. *)
Theorem begin_tag_yields_span (get_tag_index : string → string → Z)
    (truthy : NerQADataset → bool) (num_labels : Z) (none_tag : string)
    (gold : list (list Z)) (dataset : option NerQADataset)
    (batch : list (list Z)) (out : list (list Span)) (c : nat) (row : list Z)
    (spans : list Span) (p : nat) (v g : Z) :
  num_labels ≠ 2 →
  decode get_tag_index truthy num_labels none_tag gold dataset batch = Ok out →
  batch !! c = Some row → out !! c = Some spans →
  row !! p = Some v → gold_at gold c p = Ok g → g ≠ IGNORE →
  v = b_tag_index get_tag_index none_tag
  ∨ v = s_tag_index get_tag_index none_tag →
  ∃ s, s ∈ spans ∧ span_start s = p.
Proof.
  intros Hnl Hdec Hrow Hc Hv Hg Hne Htag.
  destruct (decode_walk_inv _ _ _ _ _ _ _ _ _ _ _ Hdec Hrow Hc)
    as (st & -> & (_ & _ & _ & Hco) & _).
  destruct (Hco p v) as (s & Hin & _ & Hstart).
  - eapply lookup_lt_Some, Hv.
  - by exists g.
  - done.
  - destruct Htag as [?|?]; [by left | by right].
  - exists s. auto.
Qed.

Lemma begin_tag_yields_span_witness :
  ∃ s, s ∈ [mkSpan 0 0 0 "TAG"; mkSpan 0 1 1 "TAG"; mkSpan 0 2 3 "TAG"]
       ∧ span_start s = 1%nat.
Proof.
  refine (begin_tag_yields_span tag_layout always_truthy 3 "O"
            [[1; 4; 1; 2]] None [[1; 4; 1; 2]]
            [[mkSpan 0 0 0 "TAG"; mkSpan 0 1 1 "TAG"; mkSpan 0 2 3 "TAG"]] 0
            [1; 4; 1; 2]
            [mkSpan 0 0 0 "TAG"; mkSpan 0 1 1 "TAG"; mkSpan 0 2 3 "TAG"]
            1 4 4 _ eq_refl eq_refl eq_refl eq_refl eq_refl _ (or_intror eq_refl));
    discriminate.
Defined.

(** X5.  Under the 2-tag scheme the decoded spans cover exactly the B tags
    at positions that are not ignored: a position lies within some span of
    its context if and only if it holds B and the gold array does not hold
    -100 there. *)
Theorem bo_spans_cover_the_b_tags (get_tag_index : string → string → Z)
    (truthy : NerQADataset → bool) (none_tag : string)
    (gold : list (list Z)) (dataset : option NerQADataset)
    (batch : list (list Z)) (out : list (list Span)) (c : nat) (row : list Z)
    (spans : list Span) (p : nat) :
  decode get_tag_index truthy 2 none_tag gold dataset batch = Ok out →
  batch !! c = Some row → out !! c = Some spans →
  (∃ s, s ∈ spans ∧ (span_start s ≤ p ≤ span_end s)%nat)
  ↔ (row !! p = Some (b_tag_index get_tag_index none_tag)
     ∧ ∃ g, gold_at gold c p = Ok g ∧ g ≠ IGNORE).
Proof.
  intros Hdec Hrow Hc.
  destruct (decode_walk_inv _ _ _ _ _ _ _ _ _ _ _ Hdec Hrow Hc)
    as (st & -> & ((_ & _ & Hbnd) & Hsh & _ & Hco) & _).
  split.
  - intros (s & Hin & Hp).
    destruct (Hsh s Hin) as ((v & Hv & Hst) & Hrange & Hint & _).
    split; [|by apply Hrange].
    destruct (decide (p = span_start s)) as [->|Hne].
    + rewrite Hv. destruct Hst as [->|[? _]]; done.
    + destruct (Hbnd s Hin) as [_ Hlt].
      destruct (lookup_lt_is_Some_2 row p) as [v' Hv']; [lia|].
      destruct (Hint p v') as [[_ ->]|[? _]]; [lia|done..].
  - intros (Hv & g & Hg & Hne).
    destruct (Hco p (b_tag_index get_tag_index none_tag)) as (s & Hin & Hp & _).
    + eapply lookup_lt_Some, Hv.
    + by exists g.
    + done.
    + by left.
    + eauto.
Qed.

Lemma bo_spans_cover_the_b_tags_witness :
  ∃ s, s ∈ [mkSpan 0 0 1 "TAG"; mkSpan 0 3 3 "TAG"]
       ∧ (span_start s ≤ 1 ≤ span_end s)%nat.
Proof.
  refine (proj2 (bo_spans_cover_the_b_tags tag_layout always_truthy "O"
                   [[1; 1; 0; 1]] None [[1; 1; 0; 1]]
                   [[mkSpan 0 0 1 "TAG"; mkSpan 0 3 3 "TAG"]] 0 [1; 1; 0; 1]
                   [mkSpan 0 0 1 "TAG"; mkSpan 0 3 3 "TAG"] 1
                   eq_refl eq_refl eq_refl) _).
  split; [reflexivity|]. exists 1. split; [reflexivity|discriminate].
Defined.

(** X6.  A span that [get_spans] starts at an S tag (an index other than
    B's) is one token long in the decoded output: nothing extends it. *)
Theorem single_tag_span_is_one_token (get_tag_index : string → string → Z)
    (truthy : NerQADataset → bool) (num_labels : Z) (none_tag : string)
    (gold : list (list Z)) (dataset : option NerQADataset)
    (batch : list (list Z)) (out : list (list Span)) (c : nat) (row : list Z)
    (spans : list Span) (s : Span) :
  s_tag_index get_tag_index none_tag ≠ b_tag_index get_tag_index none_tag →
  decode get_tag_index truthy num_labels none_tag gold dataset batch = Ok out →
  batch !! c = Some row → out !! c = Some spans → s ∈ spans →
  row !! span_start s = Some (s_tag_index get_tag_index none_tag) →
  span_end s = span_start s.
Proof.
  intros HSB Hdec Hrow Hc Hin Hv.
  destruct (decode_walk_inv _ _ _ _ _ _ _ _ _ _ _ Hdec Hrow Hc)
    as (st & -> & (_ & Hsh & _) & _).
  destruct (Hsh s Hin) as (_ & _ & _ & Hone). by apply (Hone _ Hv).
Qed.

Lemma single_tag_span_is_one_token_witness :
  decode tag_layout always_truthy 5 "O" [[4; 2; 3]] None [[4; 2; 3]]
  = Ok [[mkSpan 0 0 0 "TAG"]]
  ∧ span_end (mkSpan 0 0 0 "TAG") = span_start (mkSpan 0 0 0 "TAG").
Proof.
  split; [reflexivity|].
  refine (single_tag_span_is_one_token tag_layout always_truthy 5 "O"
            [[4; 2; 3]] None [[4; 2; 3]] [[mkSpan 0 0 0 "TAG"]] 0 [4; 2; 3]
            [mkSpan 0 0 0 "TAG"] (mkSpan 0 0 0 "TAG")
            _ eq_refl eq_refl eq_refl (list_elem_of_here _ _) eq_refl).
  discriminate.
Defined.

(** ** Decoding a longer tag sequence *)

Section Growth.

Variable step : nat → nat → Z → DecState → result (DecState * Branch).

Lemma tok_loop_app (c : nat) (row1 row2 : list Z) (t : nat) (st : DecState) :
  tok_loop step c (row1 ++ row2) t st
  = '(st1, brs1) ← tok_loop step c row1 t st;
    '(st2, brs2) ← tok_loop step c row2 (t + length row1)%nat st1;
    Ok (st2, brs1 ++ brs2).
Proof.
  revert t st. induction row1 as [|v row1 IH]; intros t st; simpl.
  - rewrite Nat.add_0_r. by destruct (tok_loop step c row2 t st) as [[? ?]|].
  - destruct (step c t v st) as [[st1 br]|e]; simpl; [|done].
    rewrite IH. replace (t + S (length row1))%nat with (S t + length row1)%nat by lia.
    destruct (tok_loop step c row1 (S t) st1) as [[st2 brs1]|e]; simpl; [|done].
    by destruct (tok_loop step c row2 _ st2) as [[? ?]|].
Qed.

End Growth.

Lemma extends_spans_refl (spans : list Span) : extends_spans spans spans.
Proof. intros i s Hi. exists s. repeat split; auto. Qed.

Lemma step_effect_extends (truthy : NerQADataset → bool) (gold : list (list Z))
    (dataset : option NerQADataset) (earlier : list Span) (c t : nat)
    (st st' : DecState) :
  decoder_inv t st →
  extends_spans earlier (context_spans st) →
  step_effect truthy gold dataset c t st st' →
  extends_spans earlier (context_spans st').
Proof.
  intros (Hlast & _ & Hbnd) Hext [Heff|[Heff|Heff]].
  - destruct Heff as [-> _]. done.
  - destruct Heff as (tag & g & _ & _ & _ & -> & _).
    intros i s1 Hi. destruct (Hext i s1 Hi) as (s2 & Hs2 & H).
    exists s2. split; [|done]. apply lookup_app_l_Some. done.
  - destruct Heff as (r & prev & g & _ & _ & Hr & Hprev & -> & _).
    specialize (Hlast r Hr).
    intros i s1 Hi. destruct (Hext i s1 Hi) as (s2 & Hs2 & Hc & Hs & Ht & He & Hsame).
    destruct (decide (i = r)) as [->|Hne].
    + rewrite Hprev in Hs2. injection Hs2 as <-.
      exists (set_end t prev). rewrite list_lookup_alter_eq, Hprev. simpl.
      assert (prev ∈ context_spans st) as Hmem
        by (apply list_elem_of_lookup; eauto).
      destruct (Hbnd prev Hmem).
      repeat split; [done..|lia|].
      intros Hlt. exfalso.
      destruct (Hext (S r)) with (s1 := default prev (earlier !! S r))
        as (s3 & Hs3 & _).
      { destruct (lookup_lt_is_Some_2 earlier (S r) Hlt) as [x ->]. done. }
      apply lookup_lt_Some in Hs3. lia.
    + exists s2. rewrite list_lookup_alter_ne by done. done.
Qed.

(** X7.  Decoding more tags never takes back or moves a span that the tags
    so far have produced: when the tag sequence of a context is extended at
    its end, every span decoded from the shorter sequence is still there, at
    the same place in the list, with the same start and type; only the end of
    the last of them may have grown. *)
Theorem longer_row_keeps_emitted_spans (get_tag_index : string → string → Z)
    (truthy : NerQADataset → bool) (num_labels : Z) (none_tag : string)
    (gold : list (list Z)) (dataset : option NerQADataset)
    (batch1 batch2 : list (list Z)) (out1 out2 : list (list Span)) (c : nat)
    (row more : list Z) (spans1 spans2 : list Span) :
  decode get_tag_index truthy num_labels none_tag gold dataset batch1 = Ok out1 →
  decode get_tag_index truthy num_labels none_tag gold dataset batch2 = Ok out2 →
  batch1 !! c = Some row → batch2 !! c = Some (row ++ more) →
  out1 !! c = Some spans1 → out2 !! c = Some spans2 →
  extends_spans spans1 spans2.
Proof.
  intros Hd1 Hd2 Hb1 Hb2 Ho1 Ho2.
  destruct (decode_lookup _ _ _ _ _ _ _ _ _ _ Hd1 Ho1)
    as (row1 & st1 & brs1 & Hr1 & Hw1 & ->).
  destruct (decode_lookup _ _ _ _ _ _ _ _ _ _ Hd2 Ho2)
    as (row2 & st2 & brs2 & Hr2 & Hw2 & ->).
  rewrite Hb1 in Hr1. injection Hr1 as <-.
  rewrite Hb2 in Hr2. injection Hr2 as <-.
  rewrite tok_loop_app, Hw1 in Hw2. simpl in Hw2.
  apply bind_Ok in Hw2 as ([st2' brs2'] & Hw2 & Heq). injection Heq as <- _.
  pose proof (walk_decoder_inv _ _ _ _ _ _ _ _ _ _ Hw1) as Hinv.
  apply (tok_loop_invariant _ c
           (λ t st, decoder_inv t st ∧ extends_spans (context_spans st1)
                                          (context_spans st))
           (λ _, True)) in Hw2 as [[_ H] _]; [done| |].
  - intros t v st st' br [Hdi Hext] Hs.
    pose proof (decode_step_effect _ _ _ _ _ _ _ _ _ _ _ _ Hs) as Heff.
    split; [|done]. split.
    + eapply step_effect_inv; eauto.
    + eapply step_effect_extends; eauto.
  - split; [done | apply extends_spans_refl].
Qed.

Lemma longer_row_keeps_emitted_spans_witness :
  extends_spans [mkSpan 0 0 0 "TAG"; mkSpan 0 2 3 "TAG"]
    [mkSpan 0 0 0 "TAG"; mkSpan 0 2 4 "TAG"; mkSpan 0 6 6 "TAG"].
Proof.
  exact (longer_row_keeps_emitted_spans tag_layout always_truthy 3 "O"
           [[1; 0; 1; 2; 2; 0; 1]] None [[1; 0; 1; 2]] [[1; 0; 1; 2; 2; 0; 1]]
           [[mkSpan 0 0 0 "TAG"; mkSpan 0 2 3 "TAG"]]
           [[mkSpan 0 0 0 "TAG"; mkSpan 0 2 4 "TAG"; mkSpan 0 6 6 "TAG"]] 0
           [1; 0; 1; 2] [2; 0; 1]
           [mkSpan 0 0 0 "TAG"; mkSpan 0 2 3 "TAG"]
           [mkSpan 0 0 0 "TAG"; mkSpan 0 2 4 "TAG"; mkSpan 0 6 6 "TAG"]
           eq_refl eq_refl eq_refl eq_refl eq_refl eq_refl).
Defined.

(** * Further properties of the scoring loop *)

Lemma decoder_inv_NoDup (t : nat) (st : DecState) :
  decoder_inv t st → NoDup (context_spans st).
Proof.
  intros (_ & Hord & Hbnd). apply NoDup_alt. intros i j s Hi Hj.
  assert (s ∈ context_spans st) as Hin by (apply list_elem_of_lookup; eauto).
  destruct (Hbnd s Hin) as [Hse _].
  destruct (Nat.lt_trichotomy i j) as [Hlt|[->|Hlt]]; [|done|].
  - specialize (Hord i j s s Hlt Hi Hj). lia.
  - specialize (Hord j i s s Hlt Hj Hi). lia.
Qed.

Lemma decode_NoDup (get_tag_index : string → string → Z)
    (truthy : NerQADataset → bool) (num_labels : Z) (none_tag : string)
    (gold : list (list Z)) (dataset : option NerQADataset)
    (batch : list (list Z)) (out : list (list Span)) :
  decode get_tag_index truthy num_labels none_tag gold dataset batch = Ok out →
  Forall NoDup out.
Proof.
  intros Hdec. apply Forall_lookup. intros c spans Hc.
  destruct (decode_lookup _ _ _ _ _ _ _ _ _ _ Hdec Hc)
    as (row & st & brs & _ & Hw & ->).
  eapply decoder_inv_NoDup, walk_decoder_inv, Hw.
Qed.

Lemma matched_length_swap (t : string) (gs ps : list Span) :
  NoDup gs → NoDup ps →
  length (filter (λ s, span_tag s = t ∧ s ∈ gs) ps)
  = length (filter (λ s, span_tag s = t ∧ s ∈ ps) gs).
Proof.
  intros Hg Hp. apply Permutation_length, NoDup_Permutation.
  - by apply NoDup_filter.
  - by apply NoDup_filter.
  - intros s. rewrite !list_elem_of_filter. tauto.
Qed.

Lemma filter_within (t : string) (gs l : list Span) :
  (∀ s, s ∈ l → s ∈ gs) →
  filter (λ s, span_tag s = t ∧ s ∉ gs) l = []
  ∧ filter (λ s, span_tag s = t ∧ s ∈ gs) l = filter (λ s, span_tag s = t) l.
Proof.
  induction l as [|s l IH]; intros Hsub; [done|].
  destruct IH as [IH1 IH2].
  { intros s' Hs'. apply Hsub. by right. }
  assert (s ∈ gs) as Hs by (apply Hsub; by left).
  rewrite !filter_cons, IH1, IH2. split.
  - rewrite decide_False by tauto. done.
  - destruct (decide (span_tag s = t)) as [Ht|Ht].
    + by rewrite decide_True by done.
    + by rewrite decide_False by tauto.
Qed.

Lemma unmatched_self (t : string) (gs : list Span) :
  filter (λ s, span_tag s = t ∧ s ∉ gs) gs = [].
Proof. by apply filter_within. Qed.

Lemma matched_self (t : string) (gs : list Span) :
  filter (λ s, span_tag s = t ∧ s ∈ gs) gs = filter (λ s, span_tag s = t) gs.
Proof. by apply filter_within. Qed.

Lemma zip_self_sum {A : Type} (f : A * A → nat) (xs : list A) :
  sum_list_with f (zip xs xs) = sum_list_with (λ x, f (x, x)) xs.
Proof. induction xs as [|x xs IH]; simpl; [done|]. by rewrite IH. Qed.

Lemma zip_swap_sum {A : Type} (f : A * A → nat) (xs ys : list A) :
  sum_list_with f (zip ys xs) = sum_list_with (λ p, f (snd p, fst p)) (zip xs ys).
Proof.
  revert ys. induction xs as [|x xs IH]; intros [|y ys]; simpl; try done.
  by rewrite IH.
Qed.

Lemma zip_fst_sum {A : Type} (f : A → nat) (xs ys : list A) :
  length ys = length xs →
  sum_list_with (λ p, f (fst p)) (zip xs ys) = sum_list_with f xs.
Proof.
  revert ys. induction xs as [|x xs IH]; intros [|y ys] Hlen; simpl in *; try done.
  rewrite IH; [done|lia].
Qed.

Lemma zip_snd_sum {A : Type} (f : A → nat) (xs ys : list A) :
  length ys = length xs →
  sum_list_with (λ p, f (snd p)) (zip xs ys) = sum_list_with f ys.
Proof.
  revert ys. induction xs as [|x xs IH]; intros [|y ys] Hlen; simpl in *; try done.
  rewrite IH; [done|lia].
Qed.

Lemma sum_list_with_ext_Forall {A : Type} (f g : A → nat) (xs : list A) :
  Forall (λ x, f x = g x) xs → sum_list_with f xs = sum_list_with g xs.
Proof. induction 1 as [|x xs Hx _ IH]; simpl; [done|]. by rewrite Hx, IH. Qed.

Lemma sum_list_with_plus {A : Type} (f g : A → nat) (xs : list A) :
  (sum_list_with f xs + sum_list_with g xs)%nat
  = sum_list_with (λ x, (f x + g x)%nat) xs.
Proof. induction xs as [|x xs IH]; simpl; [done|]. rewrite <- IH. lia. Qed.

(** X8.  Scoring the gold tags against themselves finds no error: for every
    type the evaluator counts no false positive and no false negative, and
    as many true positives as spans of that type were decoded. *)
Theorem self_evaluation_is_perfect (get_tag_index : string → string → Z)
    (truthy : NerQADataset → bool) (gold : list (list Z)) (num_labels : Z)
    (none_tag : string) (dataset : option NerQADataset) (ev : EvaluatorQA)
    (t : string) :
  new_EvaluatorQA get_tag_index truthy gold gold num_labels none_tag dataset
  = Ok ev →
  predicted_entity_spans ev = gold_entity_spans ev
  ∧ counts_of (entity_metric ev) t
    = {| tp := spans_of_type t (gold_entity_spans ev); fp := 0; fn := 0 |}.
Proof.
  unfold new_EvaluatorQA. intros H.
  apply bind_Ok in H as (gs & Hgs & H). rewrite Hgs in H. simpl in H.
  injection H as <-. simpl. split; [done|].
  unfold calc_entity_metrics. rewrite score_pairs_counts, counts_of_new_metric.
  rewrite !zip_self_sum. simpl. unfold add_counts, spans_of_type. simpl.
  clear Hgs. f_equal.
  - apply sum_list_with_ext_Forall, Forall_forall. intros g _.
    by rewrite matched_self.
  - induction gs as [|g gs' IH]; simpl; [done|]. by rewrite unmatched_self.
  - induction gs as [|g gs' IH]; simpl; [done|]. by rewrite unmatched_self.
Qed.

Lemma self_evaluation_is_perfect_witness :
  counts_of
    (calc_entity_metrics ["TAG"]
       [[mkSpan 0 0 1 "TAG"; mkSpan 0 3 3 "TAG"]]
       [[mkSpan 0 0 1 "TAG"; mkSpan 0 3 3 "TAG"]]) "TAG"
  = {| tp := 2; fp := 0; fn := 0 |}.
Proof.
  exact (proj2 (self_evaluation_is_perfect tag_layout always_truthy
                  [[1; 1; 0; 1]] 2 "O" None
                  {| gold_entity_spans := [[mkSpan 0 0 1 "TAG"; mkSpan 0 3 3 "TAG"]];
                     predicted_entity_spans :=
                       [[mkSpan 0 0 1 "TAG"; mkSpan 0 3 3 "TAG"]];
                     entity_metric :=
                       calc_entity_metrics ["TAG"]
                         [[mkSpan 0 0 1 "TAG"; mkSpan 0 3 3 "TAG"]]
                         [[mkSpan 0 0 1 "TAG"; mkSpan 0 3 3 "TAG"]] |}
                  "TAG" eq_refl)).
Defined.

(** X9.  With as many predicted as gold contexts, the counters of every type
    add up to the decoded spans: true plus false positives are the predicted
    spans of the type, true positives plus false negatives are its gold
    spans. *)
Theorem counters_add_up_to_spans (get_tag_index : string → string → Z)
    (truthy : NerQADataset → bool) (gold predicted : list (list Z))
    (num_labels : Z) (none_tag : string) (dataset : option NerQADataset)
    (ev : EvaluatorQA) (t : string) :
  new_EvaluatorQA get_tag_index truthy gold predicted num_labels none_tag dataset
  = Ok ev →
  length predicted = length gold →
  (tp (counts_of (entity_metric ev) t) + fp (counts_of (entity_metric ev) t))%nat
  = spans_of_type t (predicted_entity_spans ev)
  ∧ (tp (counts_of (entity_metric ev) t) + fn (counts_of (entity_metric ev) t))%nat
    = spans_of_type t (gold_entity_spans ev).
Proof.
  unfold new_EvaluatorQA. intros H Hlen.
  apply bind_Ok in H as (gs & Hgs & H).
  apply bind_Ok in H as (ps & Hps & H). injection H as <-. simpl.
  pose proof (decode_length _ _ _ _ _ _ _ _ Hgs) as Hlg.
  pose proof (decode_length _ _ _ _ _ _ _ _ Hps) as Hlp.
  pose proof (decode_NoDup _ _ _ _ _ _ _ _ Hgs) as Hng.
  pose proof (decode_NoDup _ _ _ _ _ _ _ _ Hps) as Hnp.
  unfold calc_entity_metrics. rewrite score_pairs_counts, counts_of_new_metric.
  simpl. unfold spans_of_type. rewrite !sum_list_with_plus. split.
  - rewrite <- (zip_snd_sum _ gs ps) by lia.
    apply sum_list_with_ext_Forall, Forall_forall. intros [g p] _. simpl.
    apply filter_split_length.
  - rewrite <- (zip_fst_sum _ gs ps) by lia.
    apply sum_list_with_ext_Forall, Forall_forall. intros [g p] Hin. simpl.
    apply list_elem_of_lookup in Hin as [i Hi].
    apply lookup_zip_with_Some in Hi as (g' & p' & [= <- <-] & Hg & Hp).
    rewrite matched_length_swap.
    + apply filter_split_length.
    + by eapply Forall_lookup_1 in Hng.
    + by eapply Forall_lookup_1 in Hnp.
Qed.

Lemma counters_add_up_to_spans_witness :
  let ev :=
    {| gold_entity_spans := [[mkSpan 0 0 1 "TAG"; mkSpan 0 3 3 "TAG"]];
       predicted_entity_spans := [[mkSpan 0 0 0 "TAG"; mkSpan 0 3 3 "TAG"]];
       entity_metric :=
         calc_entity_metrics ["TAG"]
           [[mkSpan 0 0 1 "TAG"; mkSpan 0 3 3 "TAG"]]
           [[mkSpan 0 0 0 "TAG"; mkSpan 0 3 3 "TAG"]] |} in
  (tp (counts_of (entity_metric ev) "TAG")
   + fn (counts_of (entity_metric ev) "TAG"))%nat
  = spans_of_type "TAG" (gold_entity_spans ev).
Proof.
  intros ev.
  exact (proj2 (counters_add_up_to_spans tag_layout always_truthy
                  [[1; 1; 0; 1]] [[1; 0; 0; 1]] 2 "O" None ev "TAG"
                  eq_refl eq_refl)).
Defined.

(** X10.  Exchanging the two arguments of the scoring loop exchanges false
    positives and false negatives and keeps the true positives, as long as
    no span list holds a span twice (which no decoded list does). *)
Theorem scoring_swaps_with_its_arguments (tags : list string)
    (gold_spans predicted_spans : list (list Span)) (t : string) :
  Forall NoDup gold_spans → Forall NoDup predicted_spans →
  let m := counts_of (calc_entity_metrics tags gold_spans predicted_spans) t in
  counts_of (calc_entity_metrics tags predicted_spans gold_spans) t
  = {| tp := tp m; fp := fn m; fn := fp m |}.
Proof.
  intros Hng Hnp m. unfold m, calc_entity_metrics.
  rewrite !score_pairs_counts, !counts_of_new_metric. simpl.
  rewrite !(zip_swap_sum _ gold_spans predicted_spans). simpl.
  unfold add_counts. simpl. f_equal.
  apply sum_list_with_ext_Forall, Forall_forall. intros [g p] Hin. simpl.
  apply list_elem_of_lookup in Hin as [i Hi].
  apply lookup_zip_with_Some in Hi as (g' & p' & [= <- <-] & Hg & Hp).
  apply matched_length_swap.
  - by eapply Forall_lookup_1 in Hnp.
  - by eapply Forall_lookup_1 in Hng.
Qed.

Lemma scoring_swaps_with_its_arguments_witness :
  counts_of
    (calc_entity_metrics ["TAG"]
       [[mkSpan 0 0 0 "TAG"]] [[mkSpan 0 0 1 "TAG"; mkSpan 0 3 3 "TAG"]]) "TAG"
  = {| tp := 0; fp := 2; fn := 1 |}.
Proof.
  refine (scoring_swaps_with_its_arguments ["TAG"]
            [[mkSpan 0 0 1 "TAG"; mkSpan 0 3 3 "TAG"]] [[mkSpan 0 0 0 "TAG"]]
            "TAG" _ _);
    repeat constructor; refine (bool_decide_unpack _ _); vm_compute; exact Logic.I.
Defined.

Lemma resolves_without_dataset (truthy : NerQADataset → bool) (n : nat) :
  resolves truthy None n = true.
Proof. unfold resolves. apply forallb_forall. done. Qed.

(** X11.  With no dataset at hand, decoding a batch raises exactly when the
    batch has a position that the gold array lacks; otherwise it returns one
    span list per context.  In particular decoding the gold array itself
    never raises. *)
Theorem decode_raises_only_off_gold (get_tag_index : string → string → Z)
    (truthy : NerQADataset → bool) (num_labels : Z) (none_tag : string)
    (gold batch : list (list Z)) :
  (covers gold batch = false →
   decode get_tag_index truthy num_labels none_tag gold None batch
   = Raise IndexError)
  ∧ (covers gold batch = true →
     ∃ out,
       decode get_tag_index truthy num_labels none_tag gold None batch = Ok out
       ∧ length out = length batch)
  ∧ ∃ out,
      decode get_tag_index truthy num_labels none_tag gold None gold = Ok out
      ∧ length out = length gold.
Proof.
  assert (∀ b, covers gold b = true →
               ∃ out, decode get_tag_index truthy num_labels none_tag gold None b
                      = Ok out ∧ length out = length b) as Hdef.
  { intros b Hcov.
    destruct (decode_defined get_tag_index truthy num_labels none_tag gold None b
                (resolves_without_dataset truthy _) Hcov) as [out Hout].
    exists out. split; [done|]. eapply decode_length, Hout. }
  split; [|split].
  - intros Hcov.
    destruct (result_exn (decode get_tag_index truthy num_labels none_tag gold
                            None batch)) as [[out Hout]|H]; [|done].
    apply decode_covers in Hout. congruence.
  - apply Hdef.
  - apply Hdef, covers_refl.
Qed.

Lemma decode_raises_only_off_gold_witness :
  decode tag_layout always_truthy 3 "O" [[1; 2]] None [[1; 2; 2]]
  = Raise IndexError.
Proof.
  exact (proj1 (decode_raises_only_off_gold tag_layout always_truthy 3 "O"
                  [[1; 2]] [[1; 2; 2]]) eq_refl).
Defined.

(** * The mapping of sub-word predictions to tokens *)

Lemma mirrors_entry_text (entry : list OutRow) (context : QAContext) :
  mirrors entry (sentence_tokens context) →
  entry_text entry = sentence_text context.
Proof. intros [Ht _]. unfold entry_text, sentence_text. by rewrite Ht. Qed.

Lemma mirrors_set_pred (entry : list OutRow) (tokens : list Token) (k : nat)
    (row : OutRow) (p : string) :
  entry !! k = Some row → mirrors entry tokens →
  mirrors (<[k := set_pred p row]> entry) tokens.
Proof.
  intros Hk [Ht Hg]. split.
  - rewrite list_fmap_insert. simpl. rewrite list_insert_id; [done|].
    by rewrite list_lookup_fmap, Hk.
  - rewrite list_fmap_insert. simpl. rewrite list_insert_id; [done|].
    by rewrite list_lookup_fmap, Hk.
Qed.

Section MappingFacts.

Variable get_tag_index : string → string → Z.
Variable pad_tag : string.
Variable none_tag : string.
Variable contexts : list QAContext.
Variable model_predictions : list (list Z).

Let ok := entry_ok pad_tag none_tag contexts.

Lemma make_entry_mirrors (tokens : list Token) (entry : list OutRow) :
  make_entry pad_tag tokens = Ok entry →
  mirrors entry tokens ∧ Forall (λ row, row_pred row = pad_tag) entry.
Proof.
  revert entry. induction tokens as [|tok tokens IH]; intros entry H.
  - injection H as <-. by repeat split.
  - simpl in H. apply bind_Ok in H as (gold_tag & Hg & H).
    apply bind_Ok in H as (entry' & He & H). injection H as <-.
    apply index_Ok in Hg.
    destruct (IH _ He) as [[Ht Hgo] Hp]. repeat split; simpl.
    + by rewrite Ht.
    + by rewrite Hg, Hgo.
    + by constructor.
Qed.

Lemma tag_assignment_ok (context : QAContext) (v : Z) :
  context ∈ contexts →
  pred_ok pad_tag none_tag contexts (sentence_text context)
    (tag_assignment get_tag_index none_tag (context_entity context) v).
Proof.
  intros Hin. unfold tag_assignment, pred_ok.
  destruct (_ || _); [right; right; eauto 10|].
  destruct (_ || _); [right; right; eauto 10|]. auto.
Qed.

Lemma assign_step_ok (context : QAContext) (prediction : list Z) (j : nat)
    (entry entry' : list OutRow) (ptr ptr' : nat) :
  context ∈ contexts →
  assign_step get_tag_index pad_tag none_tag context prediction j (entry, ptr)
  = Ok (entry', ptr') →
  ok (sentence_text context) entry →
  ok (sentence_text context) entry'
  ∧ keeps_assigned pad_tag none_tag entry entry'.
Proof.
  intros Hin H Hok.
  assert (keeps_assigned pad_tag none_tag entry entry) as Hrefl by (by split).
  unfold assign_step in H.
  apply bind_Ok in H as (bt & _ & H).
  destruct (token_type bt =? 0); [by injection H as <- <-|].
  destruct (negb _); [by injection H as <- <-|].
  apply bind_Ok in H as (row & Hrow & H). apply index_Ok in Hrow.
  destruct (assigned pad_tag none_tag (row_pred row)) eqn:Ha;
    [by injection H as <- <-|].
  apply bind_Ok in H as (v & _ & H). injection H as <- <-.
  destruct Hok as [(context' & Hin' & Hkey & Hm) Hp]. split; [split|split].
  - exists context'. split; [done|]. split; [done|]. by apply mirrors_set_pred.
  - apply Forall_insert; [done|]. simpl. by apply tag_assignment_ok.
  - by rewrite length_insert.
  - intros k row' Hk Ha'. destruct (decide (k = ptr)) as [->|Hne].
    + rewrite Hrow in Hk. injection Hk as <-. congruence.
    + by rewrite list_lookup_insert_ne.
Qed.

Lemma keeps_assigned_trans (e1 e2 e3 : list OutRow) :
  keeps_assigned pad_tag none_tag e1 e2 → keeps_assigned pad_tag none_tag e2 e3 →
  keeps_assigned pad_tag none_tag e1 e3.
Proof.
  intros [Hl1 H1] [Hl2 H2]. split; [congruence|].
  intros k row Hk Ha. apply H2; [|done]. by apply H1.
Qed.

Lemma assign_loop_ok (context : QAContext) (prediction : list Z) (js : list nat)
    (entry entry' : list OutRow) (ptr ptr' : nat) :
  context ∈ contexts →
  assign_loop get_tag_index pad_tag none_tag context prediction js (entry, ptr)
  = Ok (entry', ptr') →
  ok (sentence_text context) entry →
  ok (sentence_text context) entry'
  ∧ keeps_assigned pad_tag none_tag entry entry'.
Proof.
  intros Hin. revert entry ptr.
  induction js as [|j js IH]; intros entry ptr H Hok.
  - injection H as <- <-. split; [done|]. by split.
  - simpl in H. apply bind_Ok in H as ([entry1 ptr1] & H1 & H).
    destruct (assign_step_ok _ _ _ _ _ _ _ Hin H1 Hok) as [Hok1 Hk1].
    destruct (IH _ _ H Hok1) as [Hok2 Hk2].
    split; [done|]. by eapply keeps_assigned_trans.
Qed.

(** What one turn of the loop over the contexts does to the dictionary. *)
Lemma context_step_spec (i : nat) (data_dict data_dict' : gmap string (list OutRow)) :
  context_step get_tag_index pad_tag none_tag contexts model_predictions i data_dict
  = Ok data_dict' →
  dict_ok pad_tag none_tag contexts data_dict →
  ∃ context entry',
    contexts !! i = Some context
    ∧ is_Some (model_predictions !! i)
    ∧ data_dict' = <[sentence_text context := entry']> data_dict
    ∧ ok (sentence_text context) entry'
    ∧ (∀ entry, data_dict !! sentence_text context = Some entry →
         keeps_assigned pad_tag none_tag entry entry').
Proof.
  unfold context_step. intros H Hd.
  apply bind_Ok in H as (context & Hc & H). apply index_Ok in Hc.
  apply bind_Ok in H as (prediction & Hp & H). apply index_Ok in Hp.
  apply bind_Ok in H as (entry & He & H).
  apply bind_Ok in H as ([entry' ptr'] & Hl & H). injection H as <-.
  assert (context ∈ contexts) as Hin by (apply list_elem_of_lookup; eauto).
  assert (ok (sentence_text context) entry) as Hok.
  { destruct (data_dict !! sentence_text context) as [e|] eqn:Ed.
    - injection He as <-. by apply Hd.
    - apply make_entry_mirrors in He as [Hm Hpad]. split; [eauto|].
      eapply Forall_impl; [exact Hpad|]. intros row ->. by left. }
  destruct (assign_loop_ok _ _ _ _ _ _ _ Hin Hl Hok) as [Hok' Hk].
  exists context, entry'.
  split; [done|]. split; [eauto|]. split; [done|]. split; [done|].
  intros e Hlook. rewrite Hlook in He. by injection He as <-.
Qed.

Lemma context_step_dict_ok (i : nat) (data_dict data_dict' : gmap string (list OutRow)) :
  context_step get_tag_index pad_tag none_tag contexts model_predictions i data_dict
  = Ok data_dict' →
  dict_ok pad_tag none_tag contexts data_dict →
  dict_ok pad_tag none_tag contexts data_dict'.
Proof.
  intros H Hd.
  destruct (context_step_spec _ _ _ H Hd) as (context & entry' & _ & _ & -> & Hok & _).
  intros key entry Hk. destruct (decide (sentence_text context = key)) as [<-|Hne].
  - rewrite lookup_insert_eq in Hk. by injection Hk as <-.
  - rewrite lookup_insert_ne in Hk by done. by apply Hd.
Qed.

Lemma context_loop_spec (indices : list nat)
    (data_dict data_dict' : gmap string (list OutRow)) :
  context_loop get_tag_index pad_tag none_tag contexts model_predictions indices
    data_dict = Ok data_dict' →
  dict_ok pad_tag none_tag contexts data_dict →
  dict_ok pad_tag none_tag contexts data_dict'
  ∧ (∀ key, is_Some (data_dict !! key) → is_Some (data_dict' !! key))
  ∧ (∀ key entry, data_dict !! key = Some entry →
       ∃ entry', data_dict' !! key = Some entry'
         ∧ keeps_assigned pad_tag none_tag entry entry')
  ∧ (∀ i, i ∈ indices →
       ∃ context, contexts !! i = Some context
         ∧ is_Some (model_predictions !! i)
         ∧ is_Some (data_dict' !! sentence_text context)).
Proof.
  revert data_dict. induction indices as [|i indices IH]; intros data_dict H Hd.
  - injection H as <-. split; [done|]. split; [done|]. split.
    + intros key entry Hk. exists entry. split; [done|]. by split.
    + intros i Hi. by apply elem_of_nil in Hi.
  - simpl in H. apply bind_Ok in H as (dict1 & H1 & H).
    pose proof (context_step_dict_ok _ _ _ H1 Hd) as Hd1.
    destruct (context_step_spec _ _ _ H1 Hd)
      as (context & entry' & Hc & Hp & -> & Hok & Hkeep).
    destruct (IH _ H Hd1) as (Hd' & Hdom & Hk' & Hall).
    split; [done|]. split; [|split].
    + intros key Hk. apply Hdom.
      destruct (decide (sentence_text context = key)) as [<-|Hne].
      * rewrite lookup_insert_eq. eauto.
      * by rewrite lookup_insert_ne.
    + intros key entry Hk.
      destruct (decide (sentence_text context = key)) as [<-|Hne].
      * destruct (Hk' (sentence_text context) entry') as (e'' & He'' & Hk'').
        { by rewrite lookup_insert_eq. }
        exists e''. split; [done|].
        eapply keeps_assigned_trans; [by apply Hkeep|done].
      * apply Hk'. by rewrite lookup_insert_ne.
    + intros i' Hi'. apply elem_of_cons in Hi' as [->|Hi']; [|by apply Hall].
      exists context. split; [done|]. split; [done|].
      apply Hdom. rewrite lookup_insert_eq. eauto.
Qed.

End MappingFacts.

Section CollectFacts.

Variable pad_tag : string.
Variable none_tag : string.
Variable contexts : list QAContext.

Let ok := entry_ok pad_tag none_tag contexts.

Lemma entry_ok_text (key : string) (entry : list OutRow) :
  ok key entry → entry_text entry = key.
Proof. intros [(context & _ & <- & Hm) _]. by apply mirrors_entry_text. Qed.

Lemma collect_spec (ctxs : list QAContext) (data_dict : gmap string (list OutRow))
    (data : list (list OutRow)) :
  dict_ok pad_tag none_tag contexts data_dict →
  (∀ e, e ∈ data → ok (entry_text e) e) →
  NoDup (map entry_text data) →
  (∀ e, e ∈ data → data_dict !! entry_text e = None) →
  (∀ e, e ∈ collect ctxs data_dict data → ok (entry_text e) e)
  ∧ NoDup (map entry_text (collect ctxs data_dict data))
  ∧ (∀ e, e ∈ data → e ∈ collect ctxs data_dict data)
  ∧ (∀ context, context ∈ ctxs → is_Some (data_dict !! sentence_text context) →
       ∃ e, e ∈ collect ctxs data_dict data
            ∧ entry_text e = sentence_text context).
Proof.
  revert data_dict data.
  induction ctxs as [|context ctxs IH]; intros data_dict data Hd Hok Hnd Hdis.
  - simpl. split; [done|]. split; [done|]. split; [done|].
    intros c Hc. by apply elem_of_nil in Hc.
  - simpl. destruct (data_dict !! sentence_text context) as [entry|] eqn:Hlook.
    + pose proof (Hd _ _ Hlook) as Hentry.
      pose proof (entry_ok_text _ _ Hentry) as Htext.
      destruct (IH (delete (sentence_text context) data_dict) (data ++ [entry]))
        as (Hok' & Hnd' & Hsub & Hcomp).
      * intros key e Hk. apply lookup_delete_Some in Hk as [_ Hk]. by apply Hd.
      * intros e He. apply elem_of_app in He as [He|He]; [by apply Hok|].
        apply list_elem_of_singleton in He as ->. by rewrite Htext.
      * rewrite map_app. simpl. apply NoDup_app. split; [done|]. split.
        -- intros key Hkey Hkey'. apply list_elem_of_singleton in Hkey' as ->.
           apply list_elem_of_fmap in Hkey as (e & He & Hin).
           specialize (Hdis e Hin). rewrite <- He, Htext in Hdis. congruence.
        -- apply NoDup_singleton.
      * intros e He. apply elem_of_app in He as [He|He].
        -- apply lookup_delete_None. right. by apply Hdis.
        -- apply list_elem_of_singleton in He as ->. rewrite Htext.
           apply lookup_delete_eq.
      * split; [done|]. split; [done|]. split.
        -- intros e He. apply Hsub, elem_of_app. by left.
        -- intros c Hc Hsome.
           destruct (decide (sentence_text c = sentence_text context)) as [Heq|Hne].
           ++ exists entry. split; [|congruence].
              apply Hsub, elem_of_app. right. by apply list_elem_of_singleton.
           ++ apply Hcomp.
              ** apply elem_of_cons in Hc as [->|Hc]; done.
              ** by rewrite lookup_delete_ne.
    + destruct (IH data_dict data Hd Hok Hnd Hdis) as (Hok' & Hnd' & Hsub & Hcomp).
      split; [done|]. split; [done|]. split; [done|].
      intros c Hc Hsome. apply Hcomp; [|done].
      apply elem_of_cons in Hc as [->|Hc]; [|done].
      rewrite Hlook in Hsome. by destruct Hsome.
Qed.

End CollectFacts.

Lemma mapping_result (get_tag_index : string → string → Z)
    (pad_tag none_tag : string) (len_dataset : nat) (contexts : list QAContext)
    (model_predictions : list (list Z)) (data : list (list OutRow)) :
  bert_to_orig_token_mapping1 get_tag_index pad_tag none_tag len_dataset contexts
    model_predictions = Ok data →
  (∀ e, e ∈ data → entry_ok pad_tag none_tag contexts (entry_text e) e)
  ∧ NoDup (map entry_text data)
  ∧ (∀ i, (i < len_dataset)%nat →
       ∃ context, contexts !! i = Some context
         ∧ is_Some (model_predictions !! i)
         ∧ ∃ e, e ∈ data ∧ entry_text e = sentence_text context).
Proof.
  unfold bert_to_orig_token_mapping1. intros H.
  apply bind_Ok in H as (data_dict & Hloop & H). injection H as <-.
  assert (dict_ok pad_tag none_tag contexts ∅) as H0.
  { intros key entry Hk. by rewrite lookup_empty in Hk. }
  destruct (context_loop_spec _ _ _ _ _ _ _ _ Hloop H0) as (Hd & _ & _ & Hall).
  destruct (collect_spec pad_tag none_tag contexts contexts data_dict [] Hd)
    as (Hok & Hnd & _ & Hcomp).
  { intros e He. by apply elem_of_nil in He. }
  { constructor. }
  { intros e He. by apply elem_of_nil in He. }
  split; [done|]. split; [done|].
  intros i Hi. destruct (Hall i) as (context & Hc & Hp & Hsome).
  { apply elem_of_seq. lia. }
  exists context. split; [done|]. split; [done|].
  apply Hcomp; [|done]. apply list_elem_of_lookup. eauto.
Qed.

(** X12.  Every entry of the output mirrors the tokens of the sentence of one
    of the contexts: it has one row per token, holding the token's text and
    its first gold tag, whatever was predicted. *)
Theorem mapping_entries_mirror_sentences (get_tag_index : string → string → Z)
    (pad_tag none_tag : string) (len_dataset : nat) (contexts : list QAContext)
    (model_predictions : list (list Z)) (data : list (list OutRow))
    (e : list OutRow) :
  bert_to_orig_token_mapping1 get_tag_index pad_tag none_tag len_dataset contexts
    model_predictions = Ok data →
  e ∈ data →
  ∃ context, context ∈ contexts
    ∧ map row_text e = map text (sentence_tokens context)
    ∧ map (λ row, Some (row_gold row)) e
      = map (λ tok, tags tok !! 0%nat) (sentence_tokens context).
Proof.
  intros H He. destruct (mapping_result _ _ _ _ _ _ _ H) as (Hok & _ & _).
  destruct (Hok e He) as [(context & Hin & _ & Ht & Hg) _]. eauto.
Qed.

(** X13.  The predicted tag of every output row is the pad tag, the none tag,
    or B- or I- followed by the entity type of a context of the sentence the
    row belongs to. *)
Theorem mapping_predicted_tags (get_tag_index : string → string → Z)
    (pad_tag none_tag : string) (len_dataset : nat) (contexts : list QAContext)
    (model_predictions : list (list Z)) (data : list (list OutRow))
    (e : list OutRow) (row : OutRow) :
  bert_to_orig_token_mapping1 get_tag_index pad_tag none_tag len_dataset contexts
    model_predictions = Ok data →
  e ∈ data → row ∈ e →
  row_pred row = pad_tag ∨ row_pred row = none_tag
  ∨ ∃ context, context ∈ contexts
      ∧ sentence_text context = entry_text e
      ∧ (row_pred row = String.append "B-" (context_entity context)
         ∨ row_pred row = String.append "I-" (context_entity context)).
Proof.
  intros H He Hrow. destruct (mapping_result _ _ _ _ _ _ _ H) as (Hok & _ & _).
  destruct (Hok e He) as [_ Hp]. rewrite Forall_forall in Hp.
  exact (Hp row Hrow).
Qed.

(** X14.  The output holds one entry per sentence: no two entries stand for
    the same sentence text, and the sentence of every context that was
    processed has its entry. *)
Theorem mapping_one_entry_per_sentence (get_tag_index : string → string → Z)
    (pad_tag none_tag : string) (len_dataset : nat) (contexts : list QAContext)
    (model_predictions : list (list Z)) (data : list (list OutRow)) :
  bert_to_orig_token_mapping1 get_tag_index pad_tag none_tag len_dataset contexts
    model_predictions = Ok data →
  NoDup (map entry_text data)
  ∧ ∀ i context, (i < len_dataset)%nat → contexts !! i = Some context →
      ∃ e, e ∈ data ∧ entry_text e = sentence_text context.
Proof.
  intros H. destruct (mapping_result _ _ _ _ _ _ _ H) as (_ & Hnd & Hall).
  split; [done|]. intros i context Hi Hc.
  destruct (Hall i Hi) as (context' & Hc' & _ & He).
  rewrite Hc in Hc'. by injection Hc' as <-.
Qed.

(** X15.  The mapping raises [IndexError] when [len(dataset)] exceeds the
    number of contexts or the number of predictions. *)
Theorem mapping_needs_a_prediction_per_context
    (get_tag_index : string → string → Z)
    (pad_tag none_tag : string) (len_dataset : nat) (contexts : list QAContext)
    (model_predictions : list (list Z)) :
  (length contexts < len_dataset ∨ length model_predictions < len_dataset)%nat →
  bert_to_orig_token_mapping1 get_tag_index pad_tag none_tag len_dataset contexts
    model_predictions = Raise IndexError.
Proof.
  intros Hlen.
  destruct (result_exn (bert_to_orig_token_mapping1 get_tag_index pad_tag none_tag
                          len_dataset contexts model_predictions))
    as [[data H]|H]; [|done].
  destruct (mapping_result _ _ _ _ _ _ _ H) as (_ & _ & Hall).
  destruct Hlen as [Hlen|Hlen].
  - destruct (Hall (length contexts) Hlen) as (context & Hc & _).
    apply lookup_lt_Some in Hc. lia.
  - destruct (Hall (length model_predictions) Hlen) as (_ & _ & [p Hp] & _).
    apply lookup_lt_Some in Hp. lia.
Qed.

Lemma sample_mapping :
  bert_to_orig_token_mapping1 tag_layout "PAD" "O" 3 sample_contexts
    sample_predictions
  = Ok [[mkOutRow "John" "B-PER" "B-PER"; mkOutRow "runs" "O" "B-LOC"];
        [mkOutRow "Hi" "O" "O"]].
Proof. vm_compute. reflexivity. Defined.

Lemma mapping_entries_mirror_sentences_witness :
  ∃ context, context ∈ sample_contexts
    ∧ map row_text [mkOutRow "John" "B-PER" "B-PER"; mkOutRow "runs" "O" "B-LOC"]
      = map text (sentence_tokens context)
    ∧ map (λ row, Some (row_gold row))
        [mkOutRow "John" "B-PER" "B-PER"; mkOutRow "runs" "O" "B-LOC"]
      = map (λ tok, tags tok !! 0%nat) (sentence_tokens context).
Proof.
  exact (mapping_entries_mirror_sentences tag_layout "PAD" "O" 3 sample_contexts
           sample_predictions _ _ sample_mapping (list_elem_of_here _ _)).
Defined.

Lemma mapping_predicted_tags_witness :
  let e := [mkOutRow "John" "B-PER" "B-PER"; mkOutRow "runs" "O" "B-LOC"] in
  let row := mkOutRow "John" "B-PER" "B-PER" in
  row_pred row = "PAD" ∨ row_pred row = "O"
  ∨ ∃ context, context ∈ sample_contexts
      ∧ sentence_text context = entry_text e
      ∧ (row_pred row = String.append "B-" (context_entity context)
         ∨ row_pred row = String.append "I-" (context_entity context)).
Proof.
  exact (mapping_predicted_tags tag_layout "PAD" "O" 3 sample_contexts
           sample_predictions _ _ _ sample_mapping (list_elem_of_here _ _)
           (list_elem_of_here _ _)).
Defined.

Lemma mapping_one_entry_per_sentence_witness :
  NoDup (map entry_text
           [[mkOutRow "John" "B-PER" "B-PER"; mkOutRow "runs" "O" "B-LOC"];
            [mkOutRow "Hi" "O" "O"]]).
Proof.
  exact (proj1 (mapping_one_entry_per_sentence tag_layout "PAD" "O" 3
                  sample_contexts sample_predictions _ sample_mapping)).
Defined.

Lemma mapping_needs_a_prediction_per_context_witness :
  bert_to_orig_token_mapping1 tag_layout "PAD" "O" 3 sample_contexts
    [[0; 1; 2; 0; 0]; [0; 1; 0; 1; 0]]
  = Raise IndexError.
Proof.
  refine (mapping_needs_a_prediction_per_context tag_layout "PAD" "O" 3
            sample_contexts [[0; 1; 2; 0; 0]; [0; 1; 0; 1; 0]] _).
  right. simpl. lia.
Defined.

(** ** Processing more contexts *)

Section MappingGrowth.

Variable get_tag_index : string → string → Z.
Variable pad_tag : string.
Variable none_tag : string.
Variable contexts : list QAContext.
Variable model_predictions : list (list Z).

Lemma context_loop_app (l1 l2 : list nat) (data_dict : gmap string (list OutRow)) :
  context_loop get_tag_index pad_tag none_tag contexts model_predictions
    (l1 ++ l2) data_dict
  = data_dict1 ← context_loop get_tag_index pad_tag none_tag contexts
                   model_predictions l1 data_dict;
    context_loop get_tag_index pad_tag none_tag contexts model_predictions
      l2 data_dict1.
Proof.
  revert data_dict. induction l1 as [|i l1 IH]; intros data_dict; simpl; [done|].
  destruct (context_step _ _ _ _ _ i data_dict) as [d|e]; simpl; [|done].
  apply IH.
Qed.

Lemma collect_elem (ctxs : list QAContext) (data_dict : gmap string (list OutRow))
    (data : list (list OutRow)) (e : list OutRow) :
  e ∈ collect ctxs data_dict data →
  e ∈ data
  ∨ ∃ context, context ∈ ctxs ∧ data_dict !! sentence_text context = Some e.
Proof.
  revert data_dict data. induction ctxs as [|context ctxs IH];
    intros data_dict data He; simpl in He; [by left|].
  destruct (data_dict !! sentence_text context) as [entry|] eqn:Hlook.
  - apply IH in He as [He|(c & Hc & Hl)].
    + apply elem_of_app in He as [He|He]; [by left|].
      apply list_elem_of_singleton in He as ->. right. exists context.
      split; [by left|done].
    + apply lookup_delete_Some in Hl as [_ Hl]. right. exists c.
      split; [by right|done].
  - apply IH in He as [He|(c & Hc & Hl)]; [by left|].
    right. exists c. split; [by right|done].
Qed.

Lemma collect_keeps (ctxs : list QAContext) (data_dict : gmap string (list OutRow))
    (data : list (list OutRow)) (e : list OutRow) :
  e ∈ data → e ∈ collect ctxs data_dict data.
Proof.
  revert data_dict data. induction ctxs as [|context ctxs IH];
    intros data_dict data He; simpl; [done|].
  destruct (data_dict !! sentence_text context); apply IH; [|done].
  apply elem_of_app. by left.
Qed.

Lemma collect_takes (ctxs : list QAContext) (data_dict : gmap string (list OutRow))
    (data : list (list OutRow)) (context : QAContext) (e : list OutRow) :
  context ∈ ctxs → data_dict !! sentence_text context = Some e →
  e ∈ collect ctxs data_dict data.
Proof.
  revert data_dict data. induction ctxs as [|c ctxs IH];
    intros data_dict data Hc Hl; [by apply elem_of_nil in Hc|].
  simpl. destruct (decide (sentence_text c = sentence_text context)) as [Heq|Hne].
  - rewrite Heq, Hl. apply collect_keeps, elem_of_app. right.
    by apply list_elem_of_singleton.
  - apply elem_of_cons in Hc as [->|Hc]; [done|].
    destruct (data_dict !! sentence_text c) eqn:Hlook.
    + apply IH; [done|]. by rewrite lookup_delete_ne.
    + by apply IH.
Qed.

End MappingGrowth.

(** X16.  An entity tag, once written, stays: when the mapping is run over
    more contexts of the same data set, every entry of the shorter run is
    matched by an entry for the same sentence, of the same length, in which
    every row that held a predicted tag other than the pad and none tags is
    unchanged. *)
Theorem mapping_keeps_assigned_tags (get_tag_index : string → string → Z)
    (pad_tag none_tag : string) (n1 n2 : nat) (contexts : list QAContext)
    (model_predictions : list (list Z)) (data1 data2 : list (list OutRow))
    (e1 : list OutRow) :
  (n1 ≤ n2)%nat →
  bert_to_orig_token_mapping1 get_tag_index pad_tag none_tag n1 contexts
    model_predictions = Ok data1 →
  bert_to_orig_token_mapping1 get_tag_index pad_tag none_tag n2 contexts
    model_predictions = Ok data2 →
  e1 ∈ data1 →
  ∃ e2, e2 ∈ data2
    ∧ entry_text e2 = entry_text e1
    ∧ length e2 = length e1
    ∧ ∀ k row, e1 !! k = Some row →
        assigned pad_tag none_tag (row_pred row) = true → e2 !! k = Some row.
Proof.
  unfold bert_to_orig_token_mapping1. intros Hn H1 H2 He1.
  apply bind_Ok in H1 as (dict1 & Hl1 & H1). injection H1 as <-.
  apply bind_Ok in H2 as (dict2 & Hl2 & H2). injection H2 as <-.
  replace n2 with (n1 + (n2 - n1))%nat in Hl2 by lia.
  rewrite seq_app, context_loop_app, Hl1 in Hl2. simpl in Hl2.
  assert (dict_ok pad_tag none_tag contexts ∅) as H0.
  { intros key entry Hk. by rewrite lookup_empty in Hk. }
  destruct (context_loop_spec _ _ _ _ _ _ _ _ Hl1 H0) as (Hd1 & _).
  destruct (context_loop_spec _ _ _ _ _ _ _ _ Hl2 Hd1) as (Hd2 & _ & Hkeep & _).
  apply collect_elem in He1 as [He1|(context & Hc & Hlook)];
    [by apply elem_of_nil in He1|].
  destruct (Hkeep _ _ Hlook) as (e2 & Hlook2 & Hlen & Hrows).
  exists e2. split; [by eapply collect_takes|]. split; [|done].
  rewrite (entry_ok_text _ _ _ _ _ (Hd1 _ _ Hlook)).
  by rewrite (entry_ok_text _ _ _ _ _ (Hd2 _ _ Hlook2)).
Qed.

Lemma mapping_keeps_assigned_tags_witness :
  ∃ e2, e2 ∈ [[mkOutRow "John" "B-PER" "B-PER"; mkOutRow "runs" "O" "B-LOC"];
              [mkOutRow "Hi" "O" "O"]]
    ∧ entry_text e2
      = entry_text [mkOutRow "John" "B-PER" "B-PER"; mkOutRow "runs" "O" "O"]
    ∧ length e2
      = length [mkOutRow "John" "B-PER" "B-PER"; mkOutRow "runs" "O" "O"]
    ∧ ∀ k row,
        [mkOutRow "John" "B-PER" "B-PER"; mkOutRow "runs" "O" "O"] !! k = Some row →
        assigned "PAD" "O" (row_pred row) = true → e2 !! k = Some row.
Proof.
  refine (mapping_keeps_assigned_tags tag_layout "PAD" "O" 1 3 sample_contexts
            sample_predictions _ _ _ _ _ sample_mapping (list_elem_of_here _ _)).
  - lia.
  - vm_compute. reflexivity.
Defined.

(** * Corpus conversion: the overlap filter *)

Lemma chained_snoc (start : Z) (tags : list Annotation) (tag : Annotation) :
  chained start tags → chain_end start tags ≤ ann_start tag →
  chained start (tags ++ [tag]).
Proof.
  revert start. induction tags as [|a tags IH]; intros start Hc He; simpl in *.
  - done.
  - destruct Hc as [Ha Hc]. split; [done|]. by apply IH.
Qed.

Lemma chain_end_snoc (start : Z) (tags : list Annotation) (tag : Annotation) :
  chain_end start (tags ++ [tag]) = ann_end tag.
Proof. revert start. induction tags as [|a tags IH]; intros start; simpl; auto. Qed.

Lemma non_overlap_loop_spec (tags kept kept' : list Annotation) (start start' : Z)
    (err err' : nat) :
  non_overlap_loop tags (kept, start, err) = Ok (kept', start', err') →
  chained 0 kept → start = chain_end 0 kept →
  (∃ added, kept' = kept ++ added ∧ added `sublist_of` tags
            ∧ (length added + err' = length tags + err)%nat)
  ∧ chained 0 kept' ∧ start' = chain_end 0 kept'.
Proof.
  revert kept start err.
  induction tags as [|tag tags IH]; intros kept start err H Hc Hs.
  - injection H as <- <- <-. split; [|done].
    exists []. rewrite app_nil_r. by repeat split.
  - simpl in H. apply bind_Ok in H as ([[kept1 start1] err1] & H1 & H).
    unfold non_overlap_step in H1.
    destruct (Z.leb_spec start (ann_start tag)) as [Hle|Hlt].
    + injection H1 as <- <- <-.
      destruct (IH _ _ _ H) as ((added & -> & Hsub & Hlen) & Hc' & Hs').
      * apply chained_snoc; [done|]. by rewrite <- Hs.
      * by rewrite chain_end_snoc.
      * split; [|done]. exists (tag :: added). rewrite <- app_assoc. simpl.
        split; [done|]. split; [by constructor|]. lia.
    + destruct (last kept); [|discriminate]. injection H1 as <- <- <-.
      destruct (IH _ _ _ H Hc Hs) as ((added & -> & Hsub & Hlen) & Hc' & Hs').
      split; [|done]. exists added.
      split; [done|]. split; [by constructor|]. simpl. lia.
Qed.

Lemma non_overlap_loop_defined (tags kept : list Annotation) (start : Z) (err : nat) :
  kept ≠ [] → ∃ r, non_overlap_loop tags (kept, start, err) = Ok r.
Proof.
  revert kept start err. induction tags as [|tag tags IH]; intros kept start err Hk.
  - simpl. eauto.
  - simpl. unfold non_overlap_step.
    destruct (start <=? ann_start tag).
    + simpl. apply IH. by destruct kept.
    + destruct (last kept) eqn:Hl.
      * simpl. by apply IH.
      * by apply last_None in Hl.
Qed.

Lemma non_overlap_loop_chained (tags kept : list Annotation) (start : Z) (err : nat) :
  chained start tags →
  non_overlap_loop tags (kept, start, err)
  = Ok (kept ++ tags, chain_end start tags, err).
Proof.
  revert kept start. induction tags as [|tag tags IH]; intros kept start Hc.
  - simpl. by rewrite app_nil_r.
  - destruct Hc as [Hle Hc]. simpl. unfold non_overlap_step.
    rewrite (proj2 (Z.leb_le _ _) Hle). simpl.
    rewrite IH by done. by rewrite <- app_assoc.
Qed.

(** X17.  The overlap filter of [make_entry_context] returns a selection of
    the annotations, in their order, in which the first annotation starts at
    0 or later and every later one starts no earlier than the one kept
    before it ended; every annotation is either kept or counted as an
    error.  Nothing more is said of where a kept annotation starts: after
    one that ends before 0 the next may start below 0. *)
Theorem non_overlap_keeps_a_chain (tags kept : list Annotation) (errors : nat) :
  non_overlap tags = Ok (kept, errors) →
  kept `sublist_of` tags
  ∧ (length kept + errors = length tags)%nat
  ∧ chained 0 kept.
Proof.
  unfold non_overlap. intros H.
  apply bind_Ok in H as ([[kept' start'] err'] & Hl & H). injection H as <- <-.
  destruct (non_overlap_loop_spec _ _ _ _ _ _ _ Hl) as ((added & -> & Hsub & Hlen) & Hc & _);
    [done..|].
  simpl in *. split; [done|]. split; [lia|done].
Qed.

Lemma non_overlap_keeps_a_chain_witness :
  [mkAnnotation "A" 0 5 "a"; mkAnnotation "C" 5 9 "c"]
    `sublist_of` [mkAnnotation "A" 0 5 "a"; mkAnnotation "B" 3 7 "b";
                  mkAnnotation "C" 5 9 "c"]
  ∧ (2 + 1 = 3)%nat
  ∧ chained 0 [mkAnnotation "A" 0 5 "a"; mkAnnotation "C" 5 9 "c"].
Proof.
  exact (non_overlap_keeps_a_chain
           [mkAnnotation "A" 0 5 "a"; mkAnnotation "B" 3 7 "b";
            mkAnnotation "C" 5 9 "c"]
           [mkAnnotation "A" 0 5 "a"; mkAnnotation "C" 5 9 "c"] 1 eq_refl).
Defined.

(** X18.  The overlap filter raises [IndexError] exactly when the first
    annotation starts before 0: its error message reads the last kept
    annotation, and none has been kept yet. *)
Theorem non_overlap_raises_on_negative_start (tags : list Annotation) :
  non_overlap tags = Raise IndexError
  ↔ ∃ tag tags', tags = tag :: tags' ∧ ann_start tag < 0.
Proof.
  unfold non_overlap. destruct tags as [|tag tags]; simpl.
  - split; [discriminate|]. by intros (? & ? & ? & _).
  - unfold non_overlap_step.
    destruct (Z.leb_spec 0 (ann_start tag)) as [Hle|Hlt]; simpl.
    + destruct (non_overlap_loop_defined tags [tag] (ann_end tag) 0)
        as [[[k s] e] Hr]; [done|].
      rewrite Hr. simpl. split; [discriminate|].
      intros (t & ts & [= <- <-] & Hneg). lia.
    + split; [|done]. intros _. eauto.
Qed.

(** X19.  Annotations that already form a chain pass the overlap filter
    unchanged and without error; hence filtering what the filter kept
    changes nothing. *)
Theorem non_overlap_idempotent (tags : list Annotation) :
  (chained 0 tags → non_overlap tags = Ok (tags, 0%nat))
  ∧ (∀ kept errors, non_overlap tags = Ok (kept, errors) →
       non_overlap kept = Ok (kept, 0%nat)).
Proof.
  assert (∀ l, chained 0 l → non_overlap l = Ok (l, 0%nat)) as Hclean.
  { intros l Hc. unfold non_overlap.
    by rewrite (non_overlap_loop_chained l [] 0 0 Hc). }
  split; [apply Hclean|].
  intros kept errors H. apply Hclean.
  unfold non_overlap in H.
  apply bind_Ok in H as ([[kept' start'] err'] & Hl & H). injection H as <- <-.
  by destruct (non_overlap_loop_spec _ _ _ _ _ _ _ Hl) as (_ & Hc & _).
Qed.

Lemma non_overlap_idempotent_witness :
  non_overlap [mkAnnotation "A" 0 5 "a"; mkAnnotation "C" 5 9 "c"]
  = Ok ([mkAnnotation "A" 0 5 "a"; mkAnnotation "C" 5 9 "c"], 0%nat).
Proof.
  exact (proj2 (non_overlap_idempotent
                  [mkAnnotation "A" 0 5 "a"; mkAnnotation "B" 3 7 "b";
                   mkAnnotation "C" 5 9 "c"])
           [mkAnnotation "A" 0 5 "a"; mkAnnotation "C" 5 9 "c"] 1%nat eq_refl).
Defined.

(** * Corpus conversion: cutting a document into sentences *)

Lemma split_inv_init (final_tokens : list Token) :
  split_inv final_tokens 0
    {| split_sentences := []; split_start := 0; do_split := false |}.
Proof.
  unfold split_inv. simpl. split; [lia|]. split; [done|]. split.
  - split; [discriminate|lia].
  - split; [|constructor]. intros j tok Hj. lia.
Qed.

Lemma split_step_inv (final_tokens : list Token) (i : nat) (tok : Token)
    (st : SplitState) :
  final_tokens !! i = Some tok →
  split_inv final_tokens i st →
  split_inv final_tokens (S i) (split_step final_tokens i tok st).
Proof.
  intros Hi (Hle & Hcat & Hflag & Hdots & Hall).
  pose proof (lookup_lt_Some _ _ _ Hi) as Hlen.
  unfold split_step.
  set (do_split1 :=
         if 300 <=? Z.of_nat i - Z.of_nat (split_start st) then true
         else do_split st).
  assert (do_split1 = true ↔ (300 ≤ i - split_start st)%nat) as Hflag1.
  { unfold do_split1.
    destruct (Z.leb_spec 300 (Z.of_nat i - Z.of_nat (split_start st))).
    - split; [lia|done].
    - rewrite Hflag. lia. }
  destruct do_split1 eqn:Hd; simpl.
  - destruct (String.eqb_spec (text tok) ".") as [Hdot|Hdot].
    + assert (300 ≤ i - split_start st)%nat as H300 by (by apply Hflag1).
      unfold split_inv. simpl. split; [lia|]. split; [|split; [|split]].
      * rewrite concat_app, Hcat. simpl. rewrite app_nil_r.
        rewrite take_take_drop. f_equal. lia.
      * split; [discriminate|lia].
      * intros j tok' Hj. lia.
      * apply Forall_app. split; [done|]. constructor; [|constructor].
        assert (length (take (S i - split_start st)
                          (drop (split_start st) final_tokens))
                = S i - split_start st)%nat as Hl.
        { rewrite length_take, length_drop. lia. }
        split; [lia|]. split.
        -- exists tok. split; [|done]. rewrite last_lookup, Hl.
           rewrite lookup_take_lt by lia. rewrite lookup_drop.
           rewrite <- Hi. f_equal. lia.
        -- intros j tok' Hj Hdot' Hj300. rewrite Hl.
           assert (j < S i - split_start st)%nat as Hjlt.
           { apply lookup_lt_Some in Hj. by rewrite Hl in Hj. }
           rewrite lookup_take_lt in Hj by done. rewrite lookup_drop in Hj.
           destruct (decide (split_start st + j = i)%nat) as [Heq|Hne]; [lia|].
           exfalso. apply (Hdots (split_start st + j)%nat tok'); [lia|done..].
    + unfold split_inv. simpl. split; [lia|]. split; [done|]. split; [|split].
      * split; [intros _|done].
        assert (300 ≤ i - split_start st)%nat by (by apply Hflag1). lia.
      * intros j tok' Hj Hj'. destruct (decide (j = i)) as [->|Hne].
        -- rewrite Hi in Hj'. by injection Hj' as <-.
        -- apply (Hdots j tok'); [lia|done].
      * done.
  - unfold split_inv. simpl. split; [lia|]. split; [done|]. split; [|split].
    + split; [discriminate|]. intros Hlt.
      assert (300 ≤ i - split_start st)%nat as H300 by lia.
      apply Hflag1 in H300. discriminate.
    + intros j tok' Hj Hj'. destruct (decide (j = i)) as [->|Hne].
      * assert (300 ≤ i - split_start st)%nat as H300 by lia.
        apply Hflag1 in H300. discriminate.
      * apply (Hdots j tok'); [lia|done].
    + done.
Qed.

Lemma split_loop_inv (final_tokens rest : list Token) (i : nat) (st : SplitState) :
  (∀ k tok, rest !! k = Some tok → final_tokens !! (i + k)%nat = Some tok) →
  split_inv final_tokens i st →
  split_inv final_tokens (i + length rest) (split_loop final_tokens rest i st).
Proof.
  revert i st. induction rest as [|tok rest IH]; intros i st Hrest Hinv; simpl.
  - by rewrite Nat.add_0_r.
  - replace (i + S (length rest))%nat with (S i + length rest)%nat by lia.
    apply IH.
    + intros k tok' Hk. replace (S i + k)%nat with (i + S k)%nat by lia.
      by apply Hrest.
    + apply split_step_inv; [|done].
      specialize (Hrest 0%nat tok eq_refl). by rewrite Nat.add_0_r in Hrest.
Qed.

Lemma split_into_sentences_spec (final_tokens : list Token) :
  concat (split_into_sentences final_tokens) = final_tokens
  ∧ Forall (λ s, s ≠ []) (split_into_sentences final_tokens)
  ∧ (∀ k s, split_into_sentences final_tokens !! k = Some s →
       (∀ j tok, s !! j = Some tok → text tok = "." → (300 ≤ j)%nat →
          S j = length s)
       ∧ (S k < length (split_into_sentences final_tokens) →
          (300 < length s)%nat ∧ ∃ tok, last s = Some tok ∧ text tok = ".")%nat).
Proof.
  unfold split_into_sentences.
  pose proof (split_loop_inv final_tokens final_tokens 0 _
                (λ k tok H, H) (split_inv_init final_tokens)) as Hinv.
  simpl in Hinv.
  set (st := split_loop final_tokens final_tokens 0
               {| split_sentences := []; split_start := 0; do_split := false |})
    in *.
  destruct Hinv as (Hle & Hcat & _ & Hdots & Hall).
  assert (Forall (λ s : list Token, s ≠ []) (split_sentences st)) as Hne.
  { eapply Forall_impl; [exact Hall|]. intros s (Hl & _) ->. simpl in Hl. lia. }
  destruct (Nat.ltb_spec (split_start st) (length final_tokens)) as [Hlt|Hge].
  - split; [|split].
    + rewrite concat_app, Hcat. simpl. rewrite app_nil_r. apply take_drop.
    + apply Forall_app. split; [done|]. constructor; [|constructor].
      intros Hnil. apply (f_equal length) in Hnil.
      rewrite length_drop in Hnil. simpl in Hnil. lia.
    + intros k s Hk. rewrite length_app. simpl.
      destruct (decide (k < length (split_sentences st))%nat) as [Hin|Hout].
      * rewrite lookup_app_l in Hk by done.
        rewrite Forall_lookup in Hall. destruct (Hall k s Hk) as (Hl & Hlast & Hd).
        split; [done|]. by intros _.
      * assert (k = length (split_sentences st)) as ->.
        { apply lookup_lt_Some in Hk. rewrite length_app in Hk. simpl in Hk. lia. }
        rewrite list_lookup_middle in Hk by done. injection Hk as <-.
        split; [|lia]. intros j tok Hj Hdot Hj300. exfalso.
        rewrite lookup_drop in Hj.
        apply (Hdots (split_start st + j)%nat tok); [|done..].
        apply lookup_lt_Some in Hj. lia.
  - split; [|split].
    + rewrite Hcat. apply take_ge. lia.
    + done.
    + intros k s Hk. rewrite Forall_lookup in Hall.
      destruct (Hall k s Hk) as (Hl & Hlast & Hd). split; [done|]. by intros _.
Qed.

(** X20.  Cutting a document into sentences loses nothing and invents
    nothing: the sentences, put end to end, are the tokens of the document,
    and no sentence is empty. *)
Theorem sentences_partition_the_tokens (final_tokens : list Token) :
  concat (split_into_sentences final_tokens) = final_tokens
  ∧ Forall (λ s, s ≠ []) (split_into_sentences final_tokens).
Proof.
  destruct (split_into_sentences_spec final_tokens) as (H1 & H2 & _). done.
Qed.

(** X21.  A sentence is cut at the first full stop from its 301st token on:
    in every sentence a full stop at position 300 or later is the last
    token, and every sentence but the last one holds more than 300 tokens
    and ends with a full stop. *)
Theorem sentences_end_at_a_late_full_stop (final_tokens : list Token) (k : nat)
    (s : list Token) :
  split_into_sentences final_tokens !! k = Some s →
  (∀ j tok, s !! j = Some tok → text tok = "." → (300 ≤ j)%nat → S j = length s)
  ∧ ((S k < length (split_into_sentences final_tokens))%nat →
     (300 < length s)%nat ∧ ∃ tok, last s = Some tok ∧ text tok = ".").
Proof.
  intros Hk. destruct (split_into_sentences_spec final_tokens) as (_ & _ & H).
  exact (H k s Hk).
Qed.

Lemma sentences_end_at_a_late_full_stop_witness :
  (300 < length (replicate 301 (mkToken "." ["O"])))%nat
  ∧ ∃ tok, last (replicate 301 (mkToken "." ["O"])) = Some tok ∧ text tok = ".".
Proof.
  refine (proj2 (sentences_end_at_a_late_full_stop
                   (replicate 301 (mkToken "." ["O"]) ++ [mkToken "x" ["O"]]) 0
                   (replicate 301 (mkToken "." ["O"])) _) _).
  - vm_compute. reflexivity.
  - vm_compute. lia.
Defined.

(** X22.  A document of at most 300 tokens is never cut: it comes back as a
    single sentence. *)
Theorem short_document_is_one_sentence (final_tokens : list Token) :
  final_tokens ≠ [] → (length final_tokens ≤ 300)%nat →
  split_into_sentences final_tokens = [final_tokens].
Proof.
  intros Hne Hlen.
  destruct (split_into_sentences_spec final_tokens) as (Hcat & _ & Hcut).
  destruct (split_into_sentences final_tokens) as [|s [|s' rest]] eqn:E.
  - simpl in Hcat. congruence.
  - simpl in Hcat. rewrite app_nil_r in Hcat. by rewrite Hcat.
  - destruct (Hcut 0%nat s eq_refl) as [_ Hlong].
    destruct Hlong as [Hlong _]; [simpl; lia|].
    apply (f_equal length) in Hcat. simpl in Hcat. rewrite length_app in Hcat. lia.
Qed.

Lemma short_document_is_one_sentence_witness :
  split_into_sentences [mkToken "It" ["O"]; mkToken "." ["O"]; mkToken "Go" ["O"]]
  = [[mkToken "It" ["O"]; mkToken "." ["O"]; mkToken "Go" ["O"]]].
Proof.
  refine (short_document_is_one_sentence
            [mkToken "It" ["O"]; mkToken "." ["O"]; mkToken "Go" ["O"]] _ _).
  - discriminate.
  - simpl. lia.
Defined.

(** * Head masks *)

Section HeadMaskFacts.
Context {A : Type}.
Implicit Types (x new_x : list (list A)) (row nrow : list A) (pad : A).
Implicit Types (mask_row rest : list Z) (head_mask : list (list Z)).

Lemma head_values_nil_r mask_row : head_values (A:=A) mask_row [] = [].
Proof. by destruct mask_row. Qed.

Lemma head_values_length mask_row row :
  (length (head_values mask_row row) ≤ length row)%nat.
Proof.
  revert row. induction mask_row as [|m mask_row IH]; intros [|v row]; simpl;
    try lia.
  destruct (m =? 1); simpl; specialize (IH row); lia.
Qed.

Lemma head_values_drop_length mask_row row (j : nat) :
  (j + length (head_values mask_row (drop j row)) ≤ length row ∨
   head_values mask_row (drop j row) = [])%nat.
Proof.
  destruct (decide (j ≤ length row)%nat).
  - left. pose proof (head_values_length mask_row (drop j row)) as H.
    rewrite length_drop in H. lia.
  - right. rewrite drop_ge by lia. apply head_values_nil_r.
Qed.

Lemma item_nat row (j : nat) : item row (Z.of_nat j) = row !! j.
Proof.
  unfold item. assert ((Z.of_nat j <? 0) = false) as E by (apply Z.ltb_ge; lia).
  rewrite E. cbv zeta. rewrite E. by rewrite Nat2Z.id.
Qed.

Lemma tensor_get_Some x (i j : nat) row v :
  x !! i = Some row → row !! j = Some v → tensor_get x i (Z.of_nat j) = Ok v.
Proof.
  intros Hx Hv. unfold tensor_get. by rewrite Hx, item_nat, Hv.
Qed.

Lemma tensor_get_None x (i j : nat) row :
  x !! i = Some row → row !! j = None →
  tensor_get x i (Z.of_nat j) = Raise IndexError.
Proof.
  intros Hx Hv. unfold tensor_get. by rewrite Hx, item_nat, Hv.
Qed.

Lemma tensor_get_no_row x (i : nat) (k : Z) :
  x !! i = None → tensor_get x i k = Raise IndexError.
Proof. intros Hx. unfold tensor_get. by rewrite Hx. Qed.

Lemma tensor_set_Some new_x (i k : nat) nrow v :
  new_x !! i = Some nrow → (k < length nrow)%nat →
  tensor_set new_x i k v = Ok (<[i := <[k := v]> nrow]> new_x).
Proof.
  intros Hx Hk. unfold tensor_set. rewrite Hx. by rewrite decide_True.
Qed.

Lemma compress_row_loop_no_row x (i : nat) rest (j : nat)
    (st : list (list A) * nat) :
  x !! i = None →
  compress_row_loop x i rest j st
  = if ones_within 0 j rest then Ok st else Raise IndexError.
Proof.
  intros Hx. revert j st. induction rest as [|m rest IH]; intros j [new_x k];
    simpl; [done|].
  destruct (m =? 1); simpl.
  - by rewrite tensor_get_no_row.
  - apply IH.
Qed.

Lemma compress_row_loop_spec x (i : nat) row rest (j : nat) new_x nrow (k : nat) :
  x !! i = Some row → new_x !! i = Some nrow → length nrow = length row →
  (k ≤ j)%nat →
  compress_row_loop x i rest j (new_x, k)
  = if ones_within (length row) j rest then
      Ok (<[i := take k nrow ++ head_values rest (drop j row)
                 ++ drop (k + length (head_values rest (drop j row))) nrow]>
            new_x,
          (k + length (head_values rest (drop j row)))%nat)
    else Raise IndexError.
Proof.
  intros Hx. revert j new_x nrow k.
  induction rest as [|m rest IH]; intros j new_x nrow k Hn Hlen Hk;
    cbn [compress_row_loop compress_step ones_within].
  - rewrite head_values_nil_r || destruct (drop j row); simpl;
      rewrite Nat.add_0_r, take_drop, list_insert_id by done; done.
  - destruct (m =? 1) eqn:Hm; cbn [negb orb andb].
    + destruct (Nat.ltb_spec j (length row)) as [Hj|Hj]; cbn [negb orb andb].
      * destruct (lookup_lt_is_Some_2 row j Hj) as [v Hv].
        rewrite (tensor_get_Some _ _ _ _ _ Hx Hv). simpl.
        rewrite (tensor_set_Some _ _ _ _ _ Hn) by lia. simpl.
        rewrite (IH (S j) _ (<[k:=v]> nrow) (S k));
          [|by rewrite list_lookup_insert_eq by (by eapply lookup_lt_Some)
           |by rewrite length_insert|lia].
        rewrite (drop_S _ _ _ Hv). cbn [head_values]. rewrite Hm.
        destruct (ones_within (length row) (S j) rest); [|done].
        rewrite list_insert_insert_eq. f_equal.
        f_equal; [|simpl; lia]. f_equal.
        assert (k < length nrow)%nat as Hkn by lia.
        rewrite (take_S_r (<[k:=v]> nrow) k v)
          by (by rewrite list_lookup_insert_eq).
        rewrite take_insert_ge by lia. rewrite drop_insert_lt by lia.
        rewrite <- app_assoc. simpl. by rewrite Nat.add_succ_r.
      * by rewrite (tensor_get_None _ _ _ _ Hx) by (by apply lookup_ge_None_2).
    + cbn [mbind result_bind]. rewrite (IH (S j) new_x nrow k) by (done || lia).
      destruct (ones_within (length row) (S j) rest); [|done].
      destruct (drop j row) as [|v row'] eqn:Hd.
      * assert (drop (S j) row = []) as ->.
        { apply drop_ge. apply (f_equal length) in Hd.
          rewrite length_drop in Hd. simpl in Hd. lia. }
        by rewrite head_values_nil_r.
      * assert (drop (S j) row = row') as ->.
        { rewrite <- (Nat.add_1_l j), Nat.add_comm, <- drop_drop, Hd. done. }
        cbn [head_values]. by rewrite Hm.
Qed.

End HeadMaskFacts.

Section HeadMaskLoops.
Context {A : Type}.
Implicit Types (x new_x : list (list A)) (row nrow : list A) (pad : A).
Implicit Types (mask_row rest : list Z) (head_mask : list (list Z)).

Lemma compress_rows_nil pad x : compress_rows pad [] x = full x pad.
Proof. induction x as [|row x IH]; simpl; [done|]. by rewrite IH. Qed.

Lemma expand_rows_nil pad x : expand_rows pad [] x = full x pad.
Proof. induction x as [|row x IH]; simpl; [done|]. by rewrite IH. Qed.

Lemma full_drop_lookup x new_x pad (i : nat) row :
  drop i new_x = full (drop i x) pad → x !! i = Some row →
  new_x !! i = Some (replicate (length row) pad)
  ∧ drop (S i) new_x = full (drop (S i) x) pad.
Proof.
  intros Hd Hx. split.
  - rewrite <- (Nat.add_0_r i), <- lookup_drop, Hd. unfold full.
    rewrite list_lookup_fmap, lookup_drop, Nat.add_0_r, Hx. done.
  - rewrite <- (Nat.add_1_r i), <- !drop_drop, Hd. unfold full.
    symmetry. apply fmap_drop.
Qed.

Lemma row_length_Some {B : Type} (x : list (list B)) (i : nat) (row : list B) :
  x !! i = Some row → row_length x i = length row.
Proof. intros Hx. unfold row_length. by rewrite Hx. Qed.

Lemma row_length_None {B : Type} (x : list (list B)) (i : nat) :
  x !! i = None → row_length x i = 0%nat.
Proof. intros Hx. unfold row_length. by rewrite Hx. Qed.

Lemma compress_loop_spec x pad head_mask (i : nat) new_x :
  length new_x = length x →
  drop i new_x = full (drop i x) pad →
  compress_loop x head_mask i new_x
  = if mask_within x i head_mask
    then Ok (take i new_x ++ compress_rows pad head_mask (drop i x))
    else Raise IndexError.
Proof.
  revert i new_x.
  induction head_mask as [|mask_row head_mask IH]; intros i new_x Hlen Hd;
    cbn [compress_loop mask_within].
  - by rewrite compress_rows_nil, <- Hd, take_drop.
  - destruct (x !! i) as [row|] eqn:Hx.
    + destruct (full_drop_lookup _ _ _ _ _ Hd Hx) as [Hn Hd'].
      rewrite (row_length_Some _ _ _ Hx).
      rewrite (compress_row_loop_spec x i row mask_row 0 new_x _ 0 Hx Hn)
        by (by rewrite ?length_replicate).
      destruct (ones_within (length row) 0 mask_row); [|done].
      cbn [mbind result_bind andb].
      rewrite IH; [|by rewrite length_insert
                   |by rewrite drop_insert_lt by lia].
      destruct (mask_within x (S i) head_mask); [|done].
      f_equal. rewrite (drop_S _ _ _ Hx). cbn [compress_rows].
      assert (i < length new_x)%nat as Hi by (by eapply lookup_lt_Some).
      rewrite (take_S_r (<[i:=_]> new_x) i _)
        by (by rewrite list_lookup_insert_eq).
      rewrite take_insert_ge by lia. rewrite <- app_assoc. simpl.
      do 2 f_equal. unfold compress_row. simpl.
      by rewrite drop_replicate.
    + rewrite (row_length_None _ _ Hx).
      rewrite compress_row_loop_no_row by done.
      destruct (ones_within 0 0 mask_row); [|done].
      cbn [mbind result_bind andb].
      assert (length x ≤ i)%nat as Hi by (by apply lookup_ge_None_1).
      rewrite IH; [|done|by rewrite !drop_ge by lia].
      destruct (mask_within x (S i) head_mask); [|done].
      by rewrite !take_ge, !drop_ge by lia.
Qed.

Lemma entry_is_Some {B : Type} (x : list (list B)) (i j : nat) :
  is_Some (entry x i j) ↔ (j < row_length x i)%nat.
Proof.
  unfold entry, row_length. destruct (x !! i) as [row|]; simpl.
  - apply lookup_lt_is_Some.
  - split; [by intros [? ?]|lia].
Qed.

Lemma entry_None {B : Type} (x : list (list B)) (i j : nat) :
  entry x i j = None ↔ (row_length x i ≤ j)%nat.
Proof.
  rewrite eq_None_not_Some, entry_is_Some. lia.
Qed.

Lemma ones_within_true (n j : nat) rest :
  ones_within n j rest = true ↔
  ∀ j' : nat, rest !! j' = Some 1 → (j + j' < n)%nat.
Proof.
  revert j. induction rest as [|m rest IH]; intros j; cbn [ones_within].
  - split; [|done]. intros _ j' Hj'. by rewrite lookup_nil in Hj'.
  - rewrite andb_true_iff, orb_true_iff, negb_true_iff, IH. split.
    + intros [Hm Hrest] [|j'] Hj'; simpl in Hj'.
      * injection Hj' as ->. destruct Hm as [Hm|Hm]; [done|].
        apply Nat.ltb_lt in Hm. lia.
      * specialize (Hrest j' Hj'). lia.
    + intros H. split.
      * destruct (m =? 1) eqn:Hm; [right|by left].
        apply Z.eqb_eq in Hm as ->. apply Nat.ltb_lt.
        specialize (H 0%nat eq_refl). lia.
      * intros j' Hj'. specialize (H (S j') Hj'). lia.
Qed.

Lemma ones_within_false (n j : nat) rest :
  ones_within n j rest = false →
  ∃ j' : nat, rest !! j' = Some 1 ∧ (n ≤ j + j')%nat.
Proof.
  revert j. induction rest as [|m rest IH]; intros j; cbn [ones_within];
    [done|].
  rewrite andb_false_iff, orb_false_iff, negb_false_iff.
  intros [[Hm Hj]|Hrest].
  - apply Z.eqb_eq in Hm as ->. apply Nat.ltb_ge in Hj.
    exists 0%nat. split; [done|lia].
  - destruct (IH _ Hrest) as (j' & Hj' & Hn). exists (S j').
    split; [done|lia].
Qed.

Lemma mask_within_true {B : Type} (x : list (list B)) (i : nat) head_mask :
  mask_within x i head_mask = true ↔
  ∀ i' j : nat, entry head_mask i' j = Some 1 → is_Some (entry x (i + i') j).
Proof.
  revert i. induction head_mask as [|mask_row head_mask IH]; intros i;
    cbn [mask_within].
  - split; [|done]. intros _ i' j H. unfold entry in H.
    by rewrite lookup_nil in H.
  - rewrite andb_true_iff, IH, ones_within_true. split.
    + intros [Hrow Hrest] [|i'] j Hj.
      * rewrite Nat.add_0_r. apply entry_is_Some. apply (Hrow j Hj).
      * replace (i + S i')%nat with (S i + i')%nat by lia. by apply Hrest.
    + intros H. split.
      * intros j Hj. specialize (H 0%nat j Hj). rewrite Nat.add_0_r in H.
        by apply entry_is_Some in H.
      * intros i' j Hj. specialize (H (S i') j Hj).
        by replace (i + S i')%nat with (S i + i')%nat in H by lia.
Qed.

Lemma mask_within_false {B : Type} (x : list (list B)) (i : nat) head_mask :
  mask_within x i head_mask = false →
  ∃ i' j : nat, entry head_mask i' j = Some 1 ∧ entry x (i + i') j = None.
Proof.
  revert i. induction head_mask as [|mask_row head_mask IH]; intros i;
    cbn [mask_within]; [done|].
  rewrite andb_false_iff. intros [Hrow|Hrest].
  - destruct (ones_within_false _ _ _ Hrow) as (j & Hj & Hn).
    exists 0%nat, j. split; [done|]. rewrite Nat.add_0_r.
    apply entry_None. lia.
  - destruct (IH _ Hrest) as (i' & j & Hj & Hn). exists (S i'), j.
    split; [done|]. by replace (i + S i')%nat with (S i + i')%nat by lia.
Qed.

Lemma compress_result x pad head_mask :
  compress_with_head_mask true head_mask x pad
  = if mask_within x 0 head_mask then Ok (compress_rows pad head_mask x)
    else Raise IndexError.
Proof.
  unfold compress_with_head_mask. cbn [negb].
  rewrite (compress_loop_spec x pad head_mask 0 (full x pad));
    [done|by unfold full; rewrite length_fmap|done].
Qed.

Lemma compress_rows_lookup pad head_mask x (i : nat) :
  compress_rows pad head_mask x !! i
  = (λ row, match head_mask !! i with
            | Some mask_row => compress_row pad mask_row row
            | None => replicate (length row) pad
            end) <$> x !! i.
Proof.
  revert head_mask i. induction x as [|row x IH]; intros head_mask i;
    [done|].
  destruct head_mask as [|mask_row head_mask]; destruct i as [|i]; simpl;
    try done.
  all: rewrite IH; by rewrite ?lookup_nil.
Qed.

End HeadMaskLoops.

Section HeadMaskExpand.
Context {A : Type}.
Implicit Types (x new_x : list (list A)) (row nrow : list A) (pad : A).
Implicit Types (mask_row rest : list Z) (head_mask : list (list Z)).

Lemma item_is_Some row (k : Z) :
  - Z.of_nat (length row) ≤ k < Z.of_nat (length row) → is_Some (item row k).
Proof.
  intros Hk. unfold item. destruct (Z.ltb_spec k 0) as [Hneg|Hpos]; cbv zeta.
  - destruct (Z.ltb_spec (k + Z.of_nat (length row)) 0); [lia|].
    apply lookup_lt_is_Some. lia.
  - destruct (Z.ltb_spec k 0); [lia|]. apply lookup_lt_is_Some. lia.
Qed.

Lemma count_heads_length mask_row : (count_heads mask_row ≤ length mask_row)%nat.
Proof.
  induction mask_row as [|m mask_row IH]; simpl; [lia|].
  destruct (m =? 1); lia.
Qed.

Lemma expand_row_loop_no_row x (i : nat) rest (j : nat)
    (st : list (list A) * Z) :
  x !! i = None →
  expand_row_loop x i rest j st
  = if row_fits 0 j rest then Ok st else Raise IndexError.
Proof.
  intros Hx. destruct rest as [|m rest]; [done|]. destruct st as [new_x k].
  cbn [expand_row_loop expand_step row_fits].
  rewrite tensor_get_no_row by done.
  by destruct (Nat.leb_spec (j + length (m :: rest)) 0); [simpl in *; lia|].
Qed.

Lemma expand_row_loop_spec x pad (i : nat) row rest (j : nat) new_x nrow (k : Z) :
  x !! i = Some row → new_x !! i = Some nrow → length nrow = length row →
  -1 ≤ k < Z.of_nat j →
  expand_row_loop x i rest j (new_x, k)
  = if row_fits (length row) j rest then
      Ok (<[i := take j nrow ++ expand_values pad row k rest
                 ++ drop (j + length rest) nrow]> new_x,
          k + Z.of_nat (count_heads rest))
    else Raise IndexError.
Proof.
  intros Hx. revert j new_x nrow k.
  induction rest as [|m rest IH]; intros j new_x nrow k Hn Hlen Hk.
  - cbn [expand_row_loop row_fits expand_values count_heads length].
    rewrite Nat.add_0_r, Z.add_0_r. simpl.
    by rewrite take_drop, list_insert_id by done.
  - cbn [expand_row_loop expand_step row_fits expand_values].
    set (k' := if m =? 1 then k + 1 else k).
    assert (-1 ≤ k' ≤ Z.of_nat j) as Hk'.
    { unfold k'. destruct (m =? 1); lia. }
    assert (k + Z.of_nat (count_heads (m :: rest))
            = k' + Z.of_nat (count_heads rest)) as Hcount.
    { unfold k'. cbn [count_heads]. destruct (m =? 1); lia. }
    rewrite Hcount. clear Hcount.
    destruct (decide (j < length row)%nat) as [Hj|Hj].
    + assert (Nat.leb (j + length (m :: rest)) (length row)
              = row_fits (length row) (S j) rest) as ->.
      { destruct rest; cbn [row_fits length].
        - apply Nat.leb_le. lia.
        - f_equal. lia. }
      destruct (item_is_Some row k') as [v Hv]; [lia|].
      unfold tensor_get. rewrite Hx, Hv. cbn [mbind result_bind].
      rewrite (tensor_set_Some _ _ _ _ _ Hn) by lia. cbn [mbind result_bind].
      rewrite (IH (S j) _ (<[j:=v]> nrow) k');
        [|by rewrite list_lookup_insert_eq by (by eapply lookup_lt_Some)
         |by rewrite length_insert|lia].
      destruct (row_fits (length row) (S j) rest); [|done].
      rewrite list_insert_insert_eq. do 2 f_equal. f_equal.
      rewrite (take_S_r (<[j:=v]> nrow) j v)
        by (rewrite list_lookup_insert_eq by lia; done).
      rewrite take_insert_ge by lia. rewrite drop_insert_lt by lia.
      rewrite <- app_assoc. simpl. by rewrite Nat.add_succ_r.
    + assert (Nat.leb (j + length (m :: rest)) (length row) = false) as ->.
      { apply Nat.leb_gt. cbn [length]. lia. }
      unfold tensor_get. rewrite Hx.
      destruct (item row k') as [v|]; [|done]. cbn [mbind result_bind].
      unfold tensor_set. rewrite Hn. by rewrite decide_False by lia.
Qed.

Lemma expand_loop_spec x pad head_mask (i : nat) new_x :
  length new_x = length x →
  drop i new_x = full (drop i x) pad →
  expand_loop x head_mask i new_x
  = if mask_fits x i head_mask
    then Ok (take i new_x ++ expand_rows pad head_mask (drop i x))
    else Raise IndexError.
Proof.
  revert i new_x.
  induction head_mask as [|mask_row head_mask IH]; intros i new_x Hlen Hd;
    cbn [expand_loop mask_fits].
  - by rewrite expand_rows_nil, <- Hd, take_drop.
  - destruct (x !! i) as [row|] eqn:Hx.
    + destruct (full_drop_lookup _ _ _ _ _ Hd Hx) as [Hn Hd'].
      rewrite (row_length_Some _ _ _ Hx).
      rewrite (expand_row_loop_spec x pad i row mask_row 0 new_x _ (-1) Hx Hn)
        by (rewrite ?length_replicate; done || lia).
      destruct (row_fits (length row) 0 mask_row); [|done].
      cbn [mbind result_bind andb].
      rewrite IH; [|by rewrite length_insert
                   |by rewrite drop_insert_lt by lia].
      destruct (mask_fits x (S i) head_mask); [|done].
      f_equal. rewrite (drop_S _ _ _ Hx). cbn [expand_rows].
      assert (i < length new_x)%nat as Hi by (by eapply lookup_lt_Some).
      rewrite (take_S_r (<[i:=_]> new_x) i _)
        by (by rewrite list_lookup_insert_eq).
      rewrite take_insert_ge by lia. rewrite <- app_assoc. simpl.
      do 2 f_equal. unfold expand_row.
      by rewrite drop_replicate.
    + rewrite (row_length_None _ _ Hx).
      rewrite expand_row_loop_no_row by done.
      destruct (row_fits 0 0 mask_row); [|done].
      cbn [mbind result_bind andb].
      assert (length x ≤ i)%nat as Hi by (by apply lookup_ge_None_1).
      rewrite IH; [|done|by rewrite !drop_ge by lia].
      destruct (mask_fits x (S i) head_mask); [|done].
      by rewrite !take_ge, !drop_ge by lia.
Qed.

Lemma expand_result x pad head_mask :
  expand_with_head_mask true head_mask x pad
  = if mask_fits x 0 head_mask then Ok (expand_rows pad head_mask x)
    else Raise IndexError.
Proof.
  unfold expand_with_head_mask. cbn [negb].
  rewrite (expand_loop_spec x pad head_mask 0 (full x pad));
    [done|by unfold full; rewrite length_fmap|done].
Qed.

Lemma expand_rows_lookup pad head_mask x (i : nat) :
  expand_rows pad head_mask x !! i
  = (λ row, match head_mask !! i with
            | Some mask_row => expand_row pad mask_row row
            | None => replicate (length row) pad
            end) <$> x !! i.
Proof.
  revert head_mask i. induction x as [|row x IH]; intros head_mask i;
    [done|].
  destruct head_mask as [|mask_row head_mask]; destruct i as [|i]; simpl;
    try done.
  all: rewrite IH; by rewrite ?lookup_nil.
Qed.

Lemma expand_values_length pad row (k : Z) rest :
  length (expand_values pad row k rest) = length rest.
Proof.
  revert k. induction rest as [|m rest IH]; intros k; simpl; [done|].
  by rewrite IH.
Qed.

Lemma expand_values_lookup pad row (k : Z) rest (j : nat) :
  (j < length rest)%nat →
  expand_values pad row k rest !! j
  = Some (default pad
            (item row (k + Z.of_nat (count_heads (take (S j) rest))))).
Proof.
  revert k j. induction rest as [|m rest IH]; intros k j Hj;
    [simpl in Hj; lia|].
  cbn [expand_values]. destruct j as [|j].
  - cbn [take count_heads lookup list_lookup]. do 3 f_equal.
    destruct (m =? 1); simpl; lia.
  - cbn [length] in Hj. cbn [lookup list_lookup]. rewrite IH by lia.
    do 3 f_equal. cbn [take count_heads]. destruct (m =? 1); lia.
Qed.

Lemma row_fits_true (n j : nat) rest :
  row_fits n j rest = true ↔ ∀ j' : nat, (j' < length rest → j + j' < n)%nat.
Proof.
  destruct rest as [|m rest]; cbn [row_fits].
  - split; [simpl; lia|done].
  - rewrite Nat.leb_le. cbn [length]. split.
    + intros H j' Hj'. lia.
    + intros H. specialize (H (length rest)). lia.
Qed.

Lemma row_fits_false (n j : nat) rest :
  row_fits n j rest = false →
  ∃ j' : nat, (j' < length rest)%nat ∧ (n ≤ j + j')%nat.
Proof.
  destruct rest as [|m rest]; cbn [row_fits]; [done|].
  rewrite Nat.leb_gt. cbn [length]. intros H.
  exists (length rest). lia.
Qed.

Lemma mask_fits_true {B : Type} (x : list (list B)) (i : nat) head_mask :
  mask_fits x i head_mask = true ↔
  ∀ i' j : nat, is_Some (entry head_mask i' j) → is_Some (entry x (i + i') j).
Proof.
  revert i. induction head_mask as [|mask_row head_mask IH]; intros i;
    cbn [mask_fits].
  - split; [|done]. intros _ i' j [m H]. unfold entry in H.
    by rewrite lookup_nil in H.
  - rewrite andb_true_iff, IH, row_fits_true. split.
    + intros [Hrow Hrest] [|i'] j Hj.
      * rewrite Nat.add_0_r. apply entry_is_Some.
        apply (Hrow j). by apply lookup_lt_is_Some.
      * replace (i + S i')%nat with (S i + i')%nat by lia. by apply Hrest.
    + intros H. split.
      * intros j Hj. apply lookup_lt_is_Some in Hj.
        specialize (H 0%nat j Hj). rewrite Nat.add_0_r in H.
        by apply entry_is_Some in H.
      * intros i' j Hj. specialize (H (S i') j Hj).
        by replace (i + S i')%nat with (S i + i')%nat in H by lia.
Qed.

Lemma mask_fits_false {B : Type} (x : list (list B)) (i : nat) head_mask :
  mask_fits x i head_mask = false →
  ∃ i' j : nat, is_Some (entry head_mask i' j) ∧ entry x (i + i') j = None.
Proof.
  revert i. induction head_mask as [|mask_row head_mask IH]; intros i;
    cbn [mask_fits]; [done|].
  rewrite andb_false_iff. intros [Hrow|Hrest].
  - destruct (row_fits_false _ _ _ Hrow) as (j & Hj & Hn).
    exists 0%nat, j. split; [by apply lookup_lt_is_Some|].
    rewrite Nat.add_0_r. apply entry_None. lia.
  - destruct (IH _ Hrest) as (i' & j & Hj & Hn). exists (S i'), j.
    split; [done|]. by replace (i + S i')%nat with (S i + i')%nat by lia.
Qed.

End HeadMaskExpand.

Section HeadMaskShapes.
Context {A : Type}.
Implicit Types (x y : list (list A)) (row : list A) (pad : A).
Implicit Types (mask_row : list Z) (head_mask : list (list Z)).

Lemma same_shape_row_length {B C : Type} (m : list (list B))
    (x : list (list C)) (i : nat) :
  same_shape m x → row_length m i = row_length x i.
Proof.
  unfold same_shape, row_length. intros H.
  apply (f_equal (.!! i)) in H. rewrite !list_lookup_fmap in H.
  destruct (m !! i), (x !! i); simpl in *; congruence.
Qed.

Lemma same_shape_entry {B C : Type} (m : list (list B)) (x : list (list C))
    (i j : nat) :
  same_shape m x → is_Some (entry m i j) → is_Some (entry x i j).
Proof.
  intros H. rewrite !entry_is_Some. by rewrite (same_shape_row_length m x).
Qed.

Lemma compress_row_length pad mask_row row :
  length (compress_row pad mask_row row) = length row.
Proof.
  unfold compress_row. rewrite length_app, length_replicate.
  pose proof (head_values_length mask_row row). lia.
Qed.

Lemma compress_rows_shape pad head_mask x :
  same_shape (compress_rows pad head_mask x) x.
Proof.
  apply list_eq. intros i.
  rewrite !list_lookup_fmap, compress_rows_lookup.
  destruct (x !! i) as [row|]; simpl; [|done]. f_equal.
  destruct (head_mask !! i).
  - apply compress_row_length.
  - apply length_replicate.
Qed.

Lemma mask_fits_row {B : Type} (x : list (list B)) head_mask (i : nat)
    mask_row (row : list B) :
  mask_fits x 0 head_mask = true →
  head_mask !! i = Some mask_row → x !! i = Some row →
  (length mask_row ≤ length row)%nat.
Proof.
  intros Hfit Hm Hx. destruct (decide (length mask_row = 0)%nat); [lia|].
  assert (is_Some (entry x i (length mask_row - 1))) as Hs.
  { apply (proj1 (mask_fits_true x 0 head_mask) Hfit i).
    unfold entry. rewrite Hm. simpl. apply lookup_lt_is_Some. lia. }
  apply entry_is_Some in Hs. rewrite (row_length_Some _ _ _ Hx) in Hs. lia.
Qed.

Lemma mask_fits_has_row {B : Type} (x : list (list B)) head_mask (i j : nat) :
  mask_fits x 0 head_mask = true → is_Some (entry head_mask i j) →
  ∃ row : list B, x !! i = Some row ∧ (j < length row)%nat.
Proof.
  intros Hfit Hm.
  pose proof (proj1 (mask_fits_true x 0 head_mask) Hfit i j Hm) as Hs.
  simpl in Hs. destruct Hs as [v Hv]. unfold entry in Hv.
  destruct (x !! i) as [row|]; [|done]. exists row. split; [done|].
  by eapply lookup_lt_Some.
Qed.

Lemma expand_rows_shape pad head_mask x :
  mask_fits x 0 head_mask = true →
  same_shape (expand_rows pad head_mask x) x.
Proof.
  intros Hfit. apply list_eq. intros i.
  rewrite !list_lookup_fmap, expand_rows_lookup.
  destruct (x !! i) as [row|] eqn:Hx; simpl; [|done]. f_equal.
  destruct (head_mask !! i) as [mask_row|] eqn:Hm.
  - unfold expand_row.
    rewrite length_app, expand_values_length, length_replicate.
    pose proof (mask_fits_row x head_mask i mask_row row Hfit Hm Hx). lia.
  - apply length_replicate.
Qed.

Lemma expand_rows_entry pad head_mask x (i j : nat) mask_row row :
  head_mask !! i = Some mask_row → x !! i = Some row →
  (j < length mask_row)%nat →
  entry (expand_rows pad head_mask x) i j
  = Some (default pad
            (item row (Z.of_nat (count_heads (take (S j) mask_row)) - 1))).
Proof.
  intros Hm Hx Hj. unfold entry. rewrite expand_rows_lookup, Hx, Hm. simpl.
  unfold expand_row.
  rewrite lookup_app_l by (by rewrite expand_values_length).
  rewrite expand_values_lookup by done. do 3 f_equal. lia.
Qed.

Lemma count_heads_none mask_row :
  (∀ t : nat, mask_row !! t ≠ Some 1) → count_heads mask_row = 0%nat.
Proof.
  induction mask_row as [|m mask_row IH]; intros H; [done|].
  cbn [count_heads]. rewrite IH by (intros t; apply (H (S t))).
  destruct (Z.eqb_spec m 1) as [->|]; [|done]. by destruct (H 0%nat).
Qed.

Lemma count_heads_upto mask_row (j j' : nat) :
  (j' ≤ j)%nat → mask_row !! j' = Some 1 →
  (∀ t : nat, (j' < t ≤ j)%nat → mask_row !! t ≠ Some 1) →
  count_heads (take (S j) mask_row) = S (count_heads (take j' mask_row)).
Proof.
  revert j j'. induction mask_row as [|m mask_row IH]; intros j j' Hle Hj' Hno;
    [done|].
  destruct j' as [|j'].
  - injection Hj' as ->. cbn [take count_heads].
    rewrite count_heads_none; [done|].
    intros t Ht. destruct (decide (t < j)%nat) as [Hlt|Hge].
    + rewrite lookup_take_lt in Ht by done.
      apply (Hno (S t)); [lia|done].
    + rewrite lookup_take_ge in Ht by lia. done.
  - destruct j as [|j]; [lia|]. cbn [take count_heads].
    rewrite (IH j j'); [lia|lia|done|].
    intros t Ht. apply (Hno (S t)). lia.
Qed.

Lemma head_values_lookup mask_row row (j : nat) :
  mask_row !! j = Some 1 →
  head_values mask_row row !! count_heads (take j mask_row) = row !! j.
Proof.
  revert row j. induction mask_row as [|m mask_row IH]; intros row j Hj;
    [done|].
  destruct row as [|v row].
  { cbn [head_values]. by rewrite !lookup_nil. }
  cbn [head_values]. destruct j as [|j].
  - injection Hj as ->. done.
  - cbn [take count_heads]. simpl in Hj. destruct (m =? 1).
    + simpl. by apply IH.
    + simpl. by apply IH.
Qed.

End HeadMaskShapes.

(** X23.  Whenever [compress_with_head_mask] returns, its result has the
    shape of [x]; a row that the mask covers holds the entries of [x] at the
    positions where the mask is 1, in their order, followed by the pad
    value, and a row beyond the mask holds the pad value only. *)
Theorem compress_moves_heads_to_the_front {A : Type} (head_mask : list (list Z))
    (x y : list (list A)) (pad_value : A) :
  compress_with_head_mask true head_mask x pad_value = Ok y →
  same_shape y x
  ∧ ∀ (i : nat) (row : list A), x !! i = Some row →
      y !! i
      = Some (match head_mask !! i with
              | Some mask_row =>
                  head_values mask_row row
                  ++ replicate (length row - length (head_values mask_row row))
                       pad_value
              | None => replicate (length row) pad_value
              end).
Proof.
  rewrite compress_result. destruct (mask_within x 0 head_mask); [|done].
  intros [= <-]. split; [apply compress_rows_shape|].
  intros i row Hx. by rewrite compress_rows_lookup, Hx.
Qed.

Lemma compress_moves_heads_to_the_front_witness :
  same_shape [[10; 30; 0; 0]; [0; 0; 0; 0]] [[10; 20; 30; 40]; [50; 60; 70; 80]]
  ∧ ∀ (i : nat) (row : list Z),
      [[10; 20; 30; 40]; [50; 60; 70; 80]] !! i = Some row →
      [[10; 30; 0; 0]; [0; 0; 0; 0]] !! i
      = Some (match [[1; 0; 1; 0]] !! i with
              | Some mask_row =>
                  head_values mask_row row
                  ++ replicate (length row - length (head_values mask_row row)) 0
              | None => replicate (length row) 0
              end).
Proof.
  exact (compress_moves_heads_to_the_front [[1; 0; 1; 0]]
           [[10; 20; 30; 40]; [50; 60; 70; 80]]
           [[10; 30; 0; 0]; [0; 0; 0; 0]] 0 eq_refl).
Defined.

(** X24.  [compress_with_head_mask] raises [IndexError] exactly when the
    mask holds a 1 at a position where [x] has no entry; a mask that is
    larger than [x] is harmless as long as it is not 1 outside of [x]. *)
Theorem compress_raises_on_head_outside {A : Type} (head_mask : list (list Z))
    (x : list (list A)) (pad_value : A) :
  compress_with_head_mask true head_mask x pad_value = Raise IndexError
  ↔ ∃ i j : nat, entry head_mask i j = Some 1 ∧ entry x i j = None.
Proof.
  rewrite compress_result.
  destruct (mask_within x 0 head_mask) eqn:E; split.
  - discriminate.
  - intros (i & j & Hm & Hx).
    destruct (proj1 (mask_within_true x 0 head_mask) E i j Hm) as [v Hv].
    simpl in Hv. congruence.
  - intros _. destruct (mask_within_false _ _ _ E) as (i & j & Hm & Hx).
    by exists i, j.
  - done.
Qed.

(** X25.  Whenever [expand_with_head_mask] returns, its result has the shape
    of [x]; at a position of the mask it holds the entry of the row of [x]
    whose index is the number of 1s in the mask row up to and including that
    position, less one, so that before the first 1 the index is -1 and the
    last entry of the row is taken; and outside the mask it holds the pad
    value. *)
Theorem expand_repeats_the_last_head {A : Type} (head_mask : list (list Z))
    (x y : list (list A)) (pad_value : A) :
  expand_with_head_mask true head_mask x pad_value = Ok y →
  same_shape y x
  ∧ (∀ (i j : nat) (mask_row : list Z),
       head_mask !! i = Some mask_row → (j < length mask_row)%nat →
       ∃ row v,
         x !! i = Some row
         ∧ item row (Z.of_nat (count_heads (take (S j) mask_row)) - 1) = Some v
         ∧ entry y i j = Some v)
  ∧ (∀ i j : nat, entry head_mask i j = None → is_Some (entry x i j) →
       entry y i j = Some pad_value).
Proof.
  rewrite expand_result. destruct (mask_fits x 0 head_mask) eqn:Hfit; [|done].
  intros [= <-]. split; [by apply expand_rows_shape|]. split.
  - intros i j mask_row Hm Hj.
    destruct (mask_fits_has_row x head_mask i j Hfit) as (row & Hx & Hjr).
    { unfold entry. rewrite Hm. simpl. by apply lookup_lt_is_Some. }
    pose proof (count_heads_length (take (S j) mask_row)) as Hc.
    rewrite length_take in Hc.
    destruct (item_is_Some row
                (Z.of_nat (count_heads (take (S j) mask_row)) - 1))
      as [v Hv]; [lia|].
    exists row, v. split; [done|]. split; [done|].
    rewrite (expand_rows_entry pad_value head_mask x i j mask_row row) by done.
    by rewrite Hv.
  - intros i j Hm [v Hv]. unfold entry in *.
    rewrite expand_rows_lookup.
    destruct (x !! i) as [row|] eqn:Hx; [|done]. simpl in *.
    apply lookup_lt_Some in Hv.
    destruct (head_mask !! i) as [mask_row|] eqn:Hmi; simpl in Hm.
    + apply lookup_ge_None_1 in Hm. unfold expand_row.
      rewrite lookup_app_r by (by rewrite expand_values_length).
      rewrite expand_values_length. apply lookup_replicate_2. lia.
    + by apply lookup_replicate_2.
Qed.

Lemma expand_repeats_the_last_head_witness :
  same_shape [[10; 10; 30; 30]] [[10; 30; 0; 0]]
  ∧ (∀ (i j : nat) (mask_row : list Z),
       [[1; 0; 1; 0]] !! i = Some mask_row → (j < length mask_row)%nat →
       ∃ row v,
         [[10; 30; 0; 0]] !! i = Some row
         ∧ item row (Z.of_nat (count_heads (take (S j) mask_row)) - 1) = Some v
         ∧ entry [[10; 10; 30; 30]] i j = Some v)
  ∧ (∀ i j : nat, entry [[1; 0; 1; 0]] i j = None →
       is_Some (entry [[10; 30; 0; 0]] i j) →
       entry [[10; 10; 30; 30]] i j = Some 7).
Proof.
  exact (expand_repeats_the_last_head [[1; 0; 1; 0]] [[10; 30; 0; 0]]
           [[10; 10; 30; 30]] 7 eq_refl).
Defined.

(** X26.  [expand_with_head_mask] raises [IndexError] exactly when the mask
    has a position, whatever it holds, where [x] has no entry. *)
Theorem expand_raises_on_mask_outside {A : Type} (head_mask : list (list Z))
    (x : list (list A)) (pad_value : A) :
  expand_with_head_mask true head_mask x pad_value = Raise IndexError
  ↔ ∃ i j : nat, is_Some (entry head_mask i j) ∧ entry x i j = None.
Proof.
  rewrite expand_result.
  destruct (mask_fits x 0 head_mask) eqn:E; split.
  - discriminate.
  - intros (i & j & Hm & Hx).
    destruct (proj1 (mask_fits_true x 0 head_mask) E i j Hm) as [v Hv].
    simpl in Hv. congruence.
  - intros _. destruct (mask_fits_false _ _ _ E) as (i & j & Hm & Hx).
    by exists i, j.
  - done.
Qed.

(** X27.  Expanding what was compressed restores the head entries: for a
    mask of the shape of [x] both calls return, and the result holds, at
    every position at or after a 1 of the mask, the entry of [x] at the
    nearest 1 at or before it; in particular it agrees with [x] wherever the
    mask is 1. *)
Theorem expand_undoes_compress_at_heads {A : Type} (head_mask : list (list Z))
    (x : list (list A)) (pad_value pad_value' : A) :
  same_shape head_mask x →
  ∃ c y,
    compress_with_head_mask true head_mask x pad_value = Ok c
    ∧ expand_with_head_mask true head_mask c pad_value' = Ok y
    ∧ same_shape y x
    ∧ ∀ i j j' : nat,
        (j' ≤ j)%nat → entry head_mask i j' = Some 1 →
        is_Some (entry head_mask i j) →
        (∀ t : nat, (j' < t ≤ j)%nat → entry head_mask i t ≠ Some 1) →
        entry y i j = entry x i j'.
Proof.
  intros Hshape.
  assert (mask_within x 0 head_mask = true) as Hwithin.
  { apply mask_within_true. intros i j Hm. simpl.
    apply (same_shape_entry head_mask x i j Hshape). by rewrite Hm. }
  set (c := compress_rows pad_value head_mask x).
  assert (same_shape c x) as Hc by apply compress_rows_shape.
  assert (mask_fits c 0 head_mask = true) as Hfits.
  { apply mask_fits_true. intros i j Hm. simpl.
    apply (same_shape_entry head_mask c i j); [|done].
    unfold same_shape in *. congruence. }
  exists c, (expand_rows pad_value' head_mask c).
  split; [by rewrite compress_result, Hwithin|].
  split; [by rewrite expand_result, Hfits|].
  split.
  { pose proof (expand_rows_shape pad_value' head_mask c Hfits) as Hy.
    unfold same_shape in *. congruence. }
  intros i j j' Hle Hj' Hj Hno.
  unfold entry in Hj', Hj, Hno.
  destruct (head_mask !! i) as [mask_row|] eqn:Hm; [|by destruct Hj].
  simpl in Hj', Hj, Hno. apply lookup_lt_is_Some in Hj.
  destruct (same_shape_entry head_mask x i j' Hshape) as [v Hv].
  { unfold entry. rewrite Hm. simpl. by rewrite Hj'. }
  rewrite Hv. unfold entry in Hv.
  destruct (x !! i) as [row|] eqn:Hx; [|done]. simpl in Hv.
  assert (c !! i = Some (compress_row pad_value mask_row row)) as Hci.
  { unfold c. by rewrite compress_rows_lookup, Hx, Hm. }
  rewrite (expand_rows_entry pad_value' head_mask c i j mask_row _ Hm Hci Hj).
  rewrite (count_heads_upto mask_row j j' Hle Hj' Hno).
  replace (Z.of_nat (S (count_heads (take j' mask_row))) - 1)
    with (Z.of_nat (count_heads (take j' mask_row))) by lia.
  rewrite item_nat. unfold compress_row.
  pose proof (head_values_lookup mask_row row j' Hj') as Hh.
  rewrite Hv in Hh.
  by rewrite (lookup_app_l_Some _ _ _ _ Hh).
Qed.

Lemma expand_undoes_compress_at_heads_witness :
  ∃ c y,
    compress_with_head_mask true [[1; 0; 1; 0]] [[10; 20; 30; 40]] 0 = Ok c
    ∧ expand_with_head_mask true [[1; 0; 1; 0]] c (-1) = Ok y
    ∧ same_shape y [[10; 20; 30; 40]]
    ∧ ∀ i j j' : nat,
        (j' ≤ j)%nat → entry [[1; 0; 1; 0]] i j' = Some 1 →
        is_Some (entry [[1; 0; 1; 0]] i j) →
        (∀ t : nat, (j' < t ≤ j)%nat → entry [[1; 0; 1; 0]] i t ≠ Some 1) →
        entry y i j = entry [[10; 20; 30; 40]] i j'.
Proof.
  exact (expand_undoes_compress_at_heads [[1; 0; 1; 0]] [[10; 20; 30; 40]]
           0 (-1) eq_refl).
Defined.

(** * Corpus conversion: tagging the tokens *)

Lemma same_token_refl (tok : PosToken) : same_token tok tok.
Proof. by unfold same_token. Qed.

Lemma same_token_trans (t1 t2 t3 : PosToken) :
  same_token t1 t2 → same_token t2 t3 → same_token t1 t3.
Proof.
  unfold same_token. intros (? & ? & ?) (? & ? & ?). repeat split; congruence.
Qed.

Lemma tag_token_cases (tag : Annotation) (found_start : bool) (tok : PosToken) :
  same_token tok (tag_token tag found_start tok).1
  ∧ (pos_tags (tag_token tag found_start tok).1 = pos_tags tok
     ∨ touched_by tag tok (tag_token tag found_start tok).1).
Proof.
  unfold tag_token, touched_by.
  destruct (Z.eqb_spec (pos_start tok) (ann_start tag)) as [Hs|Hs].
  { split; [done|]. right. left. done. }
  destruct found_start; cbn [andb]; [|split; [done|by left]].
  destruct (Z.ltb_spec (ann_start tag) (pos_start tok)); cbn [andb];
    [|split; [done|by left]].
  destruct (Z.leb_spec (pos_end tok) (ann_end tag)); cbn [andb];
    [|split; [done|by left]].
  split; [done|]. right. right. done.
Qed.

Lemma tag_tokens_cons (tag : Annotation) (tok : PosToken) (rest : list PosToken)
    (found_start : bool) :
  tag_tokens tag (tok :: rest) found_start
  = if pos_end tok =? ann_end tag then
      ((tag_token tag found_start tok).1 :: rest,
       (tag_token tag found_start tok).2, true)
    else
      ((tag_token tag found_start tok).1
         :: (tag_tokens tag rest (tag_token tag found_start tok).2).1.1,
       (tag_tokens tag rest (tag_token tag found_start tok).2).1.2,
       (tag_tokens tag rest (tag_token tag found_start tok).2).2).
Proof.
  cbn [tag_tokens]. destruct (tag_token tag found_start tok) as [tok' fs].
  destruct (pos_end tok =? ann_end tag); [done|]. cbn [fst snd].
  by destruct (tag_tokens tag rest fs) as [[rest' fs'] fe].
Qed.

Lemma Forall2_diag {X : Type} (R : X → X → Prop) (l : list X) :
  (∀ x, R x x) → Forall2 R l l.
Proof. intros HR. induction l; constructor; auto. Qed.

Lemma Forall2_compose {X : Type} (R1 R2 R3 : X → X → Prop) (l1 l2 l3 : list X) :
  (∀ x y z, R1 x y → R2 y z → R3 x z) →
  Forall2 R1 l1 l2 → Forall2 R2 l2 l3 → Forall2 R3 l1 l3.
Proof.
  intros HR H12. revert l3. induction H12 as [|x y l1 l2 Hxy _ IH];
    intros l3 H23; inversion H23; subst; constructor; eauto.
Qed.

Lemma tag_tokens_frame (tag : Annotation) (token_with_pos : list PosToken)
    (found_start : bool) :
  Forall2 (λ tok tok', same_token tok tok'
                       ∧ (pos_tags tok' = pos_tags tok ∨ touched_by tag tok tok'))
    token_with_pos (tag_tokens tag token_with_pos found_start).1.1.
Proof.
  revert found_start.
  induction token_with_pos as [|tok rest IH]; intros found_start.
  - constructor.
  - rewrite tag_tokens_cons.
    destruct (pos_end tok =? ann_end tag); cbn [fst].
    + constructor; [apply tag_token_cases|].
      apply Forall2_diag. intros x. split; [apply same_token_refl|by left].
    + constructor; [apply tag_token_cases|apply IH].
Qed.

Lemma assign_tags_cons (tag : Annotation) (anns : list Annotation)
    (token_with_pos : list PosToken) (error_cnt : nat) :
  assign_tags (tag :: anns) token_with_pos error_cnt
  = assign_tags anns (tag_tokens tag token_with_pos false).1.1
      (if negb ((tag_tokens tag token_with_pos false).1.2
                && (tag_tokens tag token_with_pos false).2)
       then S error_cnt else error_cnt).
Proof.
  unfold assign_tags. cbn [foldl assign_tags_step].
  by destruct (tag_tokens tag token_with_pos false) as [[toks fs] fe].
Qed.

Lemma assign_tags_frame (anns : list Annotation) (token_with_pos : list PosToken)
    (error_cnt : nat) :
  Forall2 (λ tok tok', same_token tok tok'
                       ∧ (pos_tags tok' = pos_tags tok
                          ∨ ∃ tag, tag ∈ anns ∧ touched_by tag tok tok'))
    token_with_pos (assign_tags anns token_with_pos error_cnt).1.
Proof.
  revert token_with_pos error_cnt.
  induction anns as [|tag anns IH]; intros token_with_pos error_cnt.
  - apply Forall2_diag. intros x. split; [apply same_token_refl|by left].
  - rewrite assign_tags_cons.
    eapply Forall2_compose;
      [|apply (tag_tokens_frame tag token_with_pos false)|apply IH].
    intros t t1 t' [Hs1 H1] [Hs2 H2]. split; [by eapply same_token_trans|].
    destruct H2 as [H2|(tag' & Hin & H2)].
    + destruct H1 as [H1|H1]; [left; congruence|].
      right. exists tag. split; [apply list_elem_of_here|].
      unfold touched_by in *. by rewrite H2.
    + right. exists tag'. split; [by apply list_elem_of_further|].
      destruct Hs1 as (_ & Hst & Hen). unfold touched_by in *.
      by rewrite <- Hst, <- Hen.
Qed.

(** ** Tokens that follow one another *)

Lemma sorted_from_elem (lo : Z) (token_with_pos : list PosToken) (tok : PosToken) :
  sorted_from lo token_with_pos → tok ∈ token_with_pos →
  lo ≤ pos_start tok ∧ pos_start tok < pos_end tok.
Proof.
  revert lo. induction token_with_pos as [|t rest IH]; intros lo Hs Hin.
  - by apply elem_of_nil in Hin.
  - destruct Hs as (Hlo & Hne & Hrest). apply elem_of_cons in Hin as [->|Hin];
      [done|].
    destruct (IH _ Hrest Hin). lia.
Qed.

Lemma has_start_true (tag : Annotation) (token_with_pos : list PosToken) :
  has_start tag token_with_pos = true
  ↔ ∃ tok, tok ∈ token_with_pos ∧ pos_start tok = ann_start tag.
Proof.
  unfold has_start. induction token_with_pos as [|t rest IH]; cbn [existsb].
  - split; [done|]. intros (tok & Hin & _). by apply elem_of_nil in Hin.
  - rewrite orb_true_iff, IH, Z.eqb_eq. split.
    + intros [H|(tok & Hin & H)].
      * exists t. split; [apply list_elem_of_here|done].
      * exists tok. split; [by apply list_elem_of_further|done].
    + intros (tok & Hin & H). apply elem_of_cons in Hin as [->|Hin];
        [by left|right; eauto].
Qed.

Lemma has_start_beyond (tag : Annotation) (lo : Z) (rest : list PosToken) :
  sorted_from lo rest → ann_start tag < lo → has_start tag rest = false.
Proof.
  intros Hs Hlo. apply not_true_is_false. intros H.
  apply has_start_true in H as (tok & Hin & H).
  destruct (sorted_from_elem _ _ _ Hs Hin). lia.
Qed.

Lemma tag_token_beyond (tag : Annotation) (found_start : bool) (tok : PosToken) :
  ann_start tag < ann_end tag → ann_end tag ≤ pos_start tok →
  pos_start tok < pos_end tok →
  (tag_token tag found_start tok).1 = tok.
Proof.
  intros Hne Hlo Htok. unfold tag_token.
  destruct (Z.eqb_spec (pos_start tok) (ann_start tag)); [lia|].
  destruct (Z.leb_spec (pos_end tok) (ann_end tag)); [lia|].
  by rewrite andb_false_r.
Qed.

Lemma map_tag_token_beyond (tag : Annotation) (found_start : bool)
    (rest : list PosToken) :
  ann_start tag < ann_end tag → sorted_from (ann_end tag) rest →
  map (λ tok, (tag_token tag found_start tok).1) rest = rest.
Proof.
  intros Hne Hs. rewrite <- (map_id rest) at 2.
  apply map_ext_in. intros tok Hin. apply list_elem_of_In in Hin.
  destruct (sorted_from_elem _ _ _ Hs Hin).
  by apply tag_token_beyond.
Qed.

(** One annotation over tokens that follow one another: every token is
    tagged with the knowledge whether some token starts the annotation, and
    the loop finds the end when some token ends where the annotation does. *)
Lemma tag_tokens_sorted (tag : Annotation) (lo : Z)
    (token_with_pos : list PosToken) (found_start : bool) :
  sorted_from lo token_with_pos → ann_start tag < ann_end tag →
  (found_start = true → ann_start tag < lo) →
  (tag_tokens tag token_with_pos found_start).1.1
  = map (λ tok,
           (tag_token tag (found_start || has_start tag token_with_pos) tok).1)
      token_with_pos
  ∧ (tag_tokens tag token_with_pos found_start).2 = has_end tag token_with_pos
  ∧ ((tag_tokens tag token_with_pos found_start).2 = true →
     (tag_tokens tag token_with_pos found_start).1.2
     = found_start || has_start tag token_with_pos).
Proof.
  revert lo found_start.
  induction token_with_pos as [|tok rest IH]; intros lo found_start Hs Hne Hfs.
  { cbn. split; [done|]. split; [done|]. discriminate. }
  destruct Hs as (Hlo & Htok & Hrest).
  rewrite tag_tokens_cons. unfold has_start, has_end. cbn [existsb map].
  fold (has_start tag rest). fold (has_end tag rest).
  destruct (Z.eqb_spec (pos_start tok) (ann_start tag)) as [Hst|Hst].
  - (* the token starts the annotation *)
    assert (∀ b, tag_token tag b tok
                 = (set_tags (String.append "B-" (ann_tag tag)) tok, true))
      as Htt.
    { intros b. unfold tag_token.
      by rewrite (proj2 (Z.eqb_eq _ _) Hst). }
    rewrite ?Htt. cbn [fst snd orb]. rewrite ?orb_true_r, ?Htt.
    cbn [fst].
    destruct (Z.eqb_spec (pos_end tok) (ann_end tag)) as [Hen|Hen];
      cbn [fst snd orb].
    + split; [|done]. f_equal. symmetry. apply map_tag_token_beyond; [done|].
      by rewrite <- Hen.
    + destruct (IH (pos_end tok) true Hrest Hne) as (H1 & H2 & H3); [lia|].
      split; [by rewrite H1|]. split; [done|]. intros Hfe.
      by rewrite (H3 Hfe).
  - (* the token does not start the annotation *)
    assert ((tag_token tag found_start tok).2 = found_start) as Hsnd.
    { unfold tag_token. rewrite (proj2 (Z.eqb_neq _ _) Hst).
      by destruct (found_start && (ann_start tag <? pos_start tok)
                   && (pos_end tok <=? ann_end tag)). }
    assert ((tag_token tag (found_start || has_start tag rest) tok).1
            = (tag_token tag found_start tok).1) as Hfst.
    { destruct (has_start tag rest) eqn:Hhs; [|by rewrite orb_false_r].
      apply has_start_true in Hhs as (u & Hin & Hu).
      destruct (sorted_from_elem _ _ _ Hrest Hin).
      unfold tag_token. rewrite (proj2 (Z.eqb_neq _ _) Hst).
      assert ((ann_start tag <? pos_start tok) = false) as ->
        by (apply Z.ltb_ge; lia).
      by rewrite !andb_false_r. }
    rewrite Hsnd. cbn [orb]. rewrite Hfst.
    destruct (Z.eqb_spec (pos_end tok) (ann_end tag)) as [Hen|Hen];
      cbn [fst snd orb].
    + assert (has_start tag rest = false) as Hno.
      { apply (has_start_beyond tag (pos_end tok)); [done|lia]. }
      split; [|by rewrite Hno, orb_false_r].
      f_equal. symmetry. apply map_tag_token_beyond; [done|].
      by rewrite <- Hen.
    + destruct (IH (pos_end tok) found_start Hrest Hne) as (H1 & H2 & H3).
      { intros Hf. specialize (Hfs Hf). lia. }
      split; [by rewrite H1|]. by split.
Qed.

Lemma lookup_map {X Y : Type} (f : X → Y) (l : list X) (i : nat) :
  map f l !! i = f <$> l !! i.
Proof.
  revert i. induction l as [|x l IH]; intros [|i]; simpl; auto.
Qed.

Lemma tag_token_start (tag : Annotation) (b : bool) (tok : PosToken) :
  pos_start (tag_token tag b tok).1 = pos_start tok.
Proof. by destruct (tag_token_cases tag b tok) as [(_ & ? & _) _]. Qed.

Lemma tag_token_end (tag : Annotation) (b : bool) (tok : PosToken) :
  pos_end (tag_token tag b tok).1 = pos_end tok.
Proof. by destruct (tag_token_cases tag b tok) as [(_ & _ & ?) _]. Qed.

Lemma has_start_map (tag : Annotation) (f : PosToken → PosToken)
    (token_with_pos : list PosToken) :
  (∀ tok, pos_start (f tok) = pos_start tok) →
  has_start tag (map f token_with_pos) = has_start tag token_with_pos.
Proof.
  intros Hf. unfold has_start.
  induction token_with_pos as [|t rest IH]; cbn [map existsb]; [done|].
  by rewrite Hf, IH.
Qed.

Lemma has_end_map (tag : Annotation) (f : PosToken → PosToken)
    (token_with_pos : list PosToken) :
  (∀ tok, pos_end (f tok) = pos_end tok) →
  has_end tag (map f token_with_pos) = has_end tag token_with_pos.
Proof.
  intros Hf. unfold has_end.
  induction token_with_pos as [|t rest IH]; cbn [map existsb]; [done|].
  by rewrite Hf, IH.
Qed.

Lemma sorted_from_map (lo : Z) (f : PosToken → PosToken)
    (token_with_pos : list PosToken) :
  (∀ tok, pos_start (f tok) = pos_start tok) →
  (∀ tok, pos_end (f tok) = pos_end tok) →
  sorted_from lo token_with_pos → sorted_from lo (map f token_with_pos).
Proof.
  intros Hs He. revert lo.
  induction token_with_pos as [|t rest IH]; intros lo; cbn [map sorted_from];
    [done|].
  rewrite Hs, He. intros (? & ? & ?). auto.
Qed.

Lemma tag_through_ext (s1 s2 : Annotation → bool) (anns : list Annotation)
    (tok : PosToken) :
  (∀ tag, s1 tag = s2 tag) → tag_through s1 anns tok = tag_through s2 anns tok.
Proof.
  intros Hs. revert tok. unfold tag_through.
  induction anns as [|tag anns IH]; intros tok; cbn [foldl]; [done|].
  by rewrite Hs, IH.
Qed.

(** All annotations over tokens that follow one another. *)
Lemma assign_tags_sorted (lo : Z) (anns : list Annotation)
    (token_with_pos : list PosToken) (error_cnt : nat) :
  sorted_from lo token_with_pos →
  Forall (λ tag, ann_start tag < ann_end tag) anns →
  assign_tags anns token_with_pos error_cnt
  = (map (tag_through (λ tag, has_start tag token_with_pos) anns)
       token_with_pos,
     (error_cnt
      + length (filter (λ tag, aligned token_with_pos tag = false) anns))%nat).
Proof.
  revert token_with_pos error_cnt.
  induction anns as [|tag anns IH]; intros token_with_pos error_cnt Hs Hne.
  - unfold assign_tags, tag_through. cbn [foldl]. rewrite map_id.
    f_equal. simpl. lia.
  - apply Forall_cons in Hne as [Htag Hne].
    rewrite assign_tags_cons.
    destruct (tag_tokens_sorted tag lo token_with_pos false Hs Htag)
      as (H1 & H2 & H3); [done|].
    cbn [orb] in H1, H3. rewrite H1.
    set (f := λ tok, (tag_token tag (has_start tag token_with_pos) tok).1).
    assert (∀ tok, pos_start (f tok) = pos_start tok) as Hfs
      by (intros tok; apply tag_token_start).
    assert (∀ tok, pos_end (f tok) = pos_end tok) as Hfe
      by (intros tok; apply tag_token_end).
    rewrite IH by (done || by apply sorted_from_map).
    f_equal.
    + rewrite map_map. apply map_ext. intros tok.
      rewrite (tag_through_ext _ (λ tag, has_start tag token_with_pos))
        by (intros tag'; by apply has_start_map).
      done.
    + rewrite (list_filter_iff _ (λ tag, aligned token_with_pos tag = false)).
      2:{ intros tag'. unfold aligned.
          by rewrite has_start_map, has_end_map. }
      assert ((tag_tokens tag token_with_pos false).1.2
              && (tag_tokens tag token_with_pos false).2
              = aligned token_with_pos tag) as ->.
      { unfold aligned. rewrite <- H2.
        destruct ((tag_tokens tag token_with_pos false).2) eqn:Hfe';
          [by rewrite H3|by rewrite !andb_false_r]. }
      destruct (aligned token_with_pos tag) eqn:Hal; cbn [negb].
      * rewrite filter_cons_False by (by rewrite Hal). done.
      * rewrite filter_cons_True by done. cbn [length]. lia.
Qed.

Lemma chained_elem (lo : Z) (anns : list Annotation) (tag : Annotation) :
  chained lo anns → Forall (λ tag, ann_start tag < ann_end tag) anns →
  tag ∈ anns → lo ≤ ann_start tag.
Proof.
  revert lo. induction anns as [|a anns IH]; intros lo Hc Hne Hin.
  - by apply elem_of_nil in Hin.
  - destruct Hc as [Hlo Hc]. apply Forall_cons in Hne as [Ha Hne].
    apply elem_of_cons in Hin as [->|Hin]; [done|].
    specialize (IH _ Hc Hne Hin). lia.
Qed.

Lemma tag_through_cons (starts : Annotation → bool) (tag : Annotation)
    (anns : list Annotation) (tok : PosToken) :
  tag_through starts (tag :: anns) tok
  = tag_through starts anns (tag_token tag (starts tag) tok).1.
Proof. done. Qed.

Lemma tag_through_spec (starts : Annotation → bool) (lo : Z)
    (anns : list Annotation) (tok : PosToken) :
  chained lo anns → Forall (λ tag, ann_start tag < ann_end tag) anns →
  pos_start tok < pos_end tok →
  same_token tok (tag_through starts anns tok)
  ∧ (∀ tag, tag ∈ anns → pos_start tok = ann_start tag →
       pos_tags (tag_through starts anns tok)
       = TagStr (String.append "B-" (ann_tag tag)))
  ∧ (∀ tag, tag ∈ anns → starts tag = true →
       ann_start tag < pos_start tok → pos_end tok ≤ ann_end tag →
       pos_tags (tag_through starts anns tok)
       = TagStr (String.append "I-" (ann_tag tag)))
  ∧ ((∀ tag, tag ∈ anns →
        pos_start tok ≠ ann_start tag
        ∧ ¬ (starts tag = true ∧ ann_start tag < pos_start tok
             ∧ pos_end tok ≤ ann_end tag)) →
     pos_tags (tag_through starts anns tok) = pos_tags tok).
Proof.
  revert lo tok. induction anns as [|a anns IH]; intros lo tok Hc Hne Htok.
  { split; [apply same_token_refl|]. split; [|split]; [| |done].
    - intros tag Hin. by apply elem_of_nil in Hin.
    - intros tag Hin. by apply elem_of_nil in Hin. }
  destruct Hc as [Hlo Hc]. apply Forall_cons in Hne as [Ha Hne].
  rewrite tag_through_cons.
  set (t1 := (tag_token a (starts a) tok).1).
  assert (pos_start t1 = pos_start tok) as Hst by apply tag_token_start.
  assert (pos_end t1 = pos_end tok) as Hen by apply tag_token_end.
  destruct (IH (ann_end a) t1 Hc Hne) as (Hsame & HB & HI & Hkeep); [lia|].
  assert (∀ tag, tag ∈ anns → ann_end a ≤ ann_start tag) as Hlater.
  { intros tag Hin. by apply (chained_elem _ anns). }
  split; [|split; [|split]].
  - eapply same_token_trans; [|exact Hsame].
    by destruct (tag_token_cases a (starts a) tok).
  - intros tag Hin Hs. apply elem_of_cons in Hin as [->|Hin].
    + rewrite Hkeep.
      * unfold t1, tag_token. by rewrite (proj2 (Z.eqb_eq _ _) Hs).
      * intros tag' Hin'. specialize (Hlater _ Hin'). split; lia.
    + apply HB; [done|lia].
  - intros tag Hin Hstarts Hlt Hle. apply elem_of_cons in Hin as [->|Hin].
    + rewrite Hkeep.
      * unfold t1, tag_token.
        rewrite (proj2 (Z.eqb_neq _ _)) by lia. rewrite Hstarts.
        rewrite (proj2 (Z.ltb_lt _ _) Hlt), (proj2 (Z.leb_le _ _) Hle). done.
      * intros tag' Hin'. specialize (Hlater _ Hin'). split; lia.
    + apply HI; [done..|lia|lia].
  - intros Hnone.
    assert (t1 = tok) as Ht1.
    { destruct (Hnone a) as [Hs Hin]; [apply list_elem_of_here|].
      unfold t1, tag_token. rewrite (proj2 (Z.eqb_neq _ _) Hs).
      destruct (starts a); cbn [andb]; [|done].
      destruct (Z.ltb_spec (ann_start a) (pos_start tok)); cbn [andb]; [|done].
      destruct (Z.leb_spec (pos_end tok) (ann_end a)); [|done].
      by destruct Hin. }
    rewrite Hkeep; [by rewrite Ht1|].
    intros tag Hin. rewrite Hst, Hen.
    apply Hnone. by apply list_elem_of_further.
Qed.

(** X28.  The tagging loop of [make_entry_context] changes nothing but tags,
    and whatever the tokens and annotations are, a token's tags are either
    left as they were or read B- and the type of an annotation that starts
    where the token starts, or I- and the type of an annotation that starts
    before the token and ends no earlier than it. *)
Theorem tagging_writes_annotation_tags_only (anns : list Annotation)
    (token_with_pos : list PosToken) (error_cnt i : nat) (tok' : PosToken) :
  (assign_tags anns token_with_pos error_cnt).1 !! i = Some tok' →
  ∃ tok,
    token_with_pos !! i = Some tok
    ∧ same_token tok tok'
    ∧ (pos_tags tok' = pos_tags tok
       ∨ ∃ tag, tag ∈ anns
           ∧ ((pos_tags tok' = TagStr (String.append "B-" (ann_tag tag))
               ∧ pos_start tok = ann_start tag)
              ∨ (pos_tags tok' = TagStr (String.append "I-" (ann_tag tag))
                 ∧ ann_start tag < pos_start tok
                 ∧ pos_end tok ≤ ann_end tag))).
Proof.
  intros Hi.
  destruct (Forall2_lookup_r _ _ _ _ _
              (assign_tags_frame anns token_with_pos error_cnt) Hi)
    as (tok & Htok & Hsame & Htags).
  exists tok. split; [done|]. split; [done|]. exact Htags.
Qed.

Lemma tagging_writes_annotation_tags_only_witness :
  ∃ tok,
    sample_token_with_pos !! 1%nat = Some tok
    ∧ same_token tok (mkPosToken "Smith" (TagStr "I-PER") 5 10)
    ∧ (pos_tags (mkPosToken "Smith" (TagStr "I-PER") 5 10) = pos_tags tok
       ∨ ∃ tag, tag ∈ sample_annotations
           ∧ ((pos_tags (mkPosToken "Smith" (TagStr "I-PER") 5 10)
               = TagStr (String.append "B-" (ann_tag tag))
               ∧ pos_start tok = ann_start tag)
              ∨ (pos_tags (mkPosToken "Smith" (TagStr "I-PER") 5 10)
                 = TagStr (String.append "I-" (ann_tag tag))
                 ∧ ann_start tag < pos_start tok
                 ∧ pos_end tok ≤ ann_end tag))).
Proof.
  exact (tagging_writes_annotation_tags_only sample_annotations
           sample_token_with_pos 0 1 (mkPosToken "Smith" (TagStr "I-PER") 5 10)
           eq_refl).
Defined.

(** X29.  When the tokens follow one another, none of them empty, and the
    annotations are not empty and none starts before the one before it
    ends, the tagging loop tags exactly by position: a token that starts
    where an annotation starts reads B- and its type; a token that lies
    after the start of an annotation and ends by its end reads I- and its
    type, provided some token starts the annotation; every other token
    keeps its tags. *)
Theorem tags_follow_the_annotations (lo lo' : Z) (anns : list Annotation)
    (token_with_pos : list PosToken) (error_cnt i : nat) (tok : PosToken) :
  sorted_from lo token_with_pos → chained lo' anns →
  Forall (λ tag, ann_start tag < ann_end tag) anns →
  token_with_pos !! i = Some tok →
  ∃ tok',
    (assign_tags anns token_with_pos error_cnt).1 !! i = Some tok'
    ∧ same_token tok tok'
    ∧ (∀ tag, tag ∈ anns → pos_start tok = ann_start tag →
         pos_tags tok' = TagStr (String.append "B-" (ann_tag tag)))
    ∧ (∀ tag, tag ∈ anns → has_start tag token_with_pos = true →
         ann_start tag < pos_start tok → pos_end tok ≤ ann_end tag →
         pos_tags tok' = TagStr (String.append "I-" (ann_tag tag)))
    ∧ ((∀ tag, tag ∈ anns →
          pos_start tok ≠ ann_start tag
          ∧ ¬ (has_start tag token_with_pos = true
               ∧ ann_start tag < pos_start tok
               ∧ pos_end tok ≤ ann_end tag)) →
       pos_tags tok' = pos_tags tok).
Proof.
  intros Hs Hc Hne Hi.
  rewrite (assign_tags_sorted lo anns token_with_pos error_cnt Hs Hne).
  cbn [fst]. rewrite lookup_map, Hi. cbn [fmap option_fmap option_map].
  eexists. split; [done|].
  apply (tag_through_spec _ lo'); [done..|].
  apply list_elem_of_lookup_2 in Hi.
  by destruct (sorted_from_elem _ _ _ Hs Hi).
Qed.

Lemma tags_follow_the_annotations_witness :
  ∃ tok',
    (assign_tags sample_annotations sample_token_with_pos 0).1 !! 1%nat
    = Some tok'
    ∧ same_token (mkPosToken "Smith" (TagList ["O"]) 5 10) tok'
    ∧ (∀ tag, tag ∈ sample_annotations →
         pos_start (mkPosToken "Smith" (TagList ["O"]) 5 10) = ann_start tag →
         pos_tags tok' = TagStr (String.append "B-" (ann_tag tag)))
    ∧ (∀ tag, tag ∈ sample_annotations →
         has_start tag sample_token_with_pos = true →
         ann_start tag < pos_start (mkPosToken "Smith" (TagList ["O"]) 5 10) →
         pos_end (mkPosToken "Smith" (TagList ["O"]) 5 10) ≤ ann_end tag →
         pos_tags tok' = TagStr (String.append "I-" (ann_tag tag)))
    ∧ ((∀ tag, tag ∈ sample_annotations →
          pos_start (mkPosToken "Smith" (TagList ["O"]) 5 10) ≠ ann_start tag
          ∧ ¬ (has_start tag sample_token_with_pos = true
               ∧ ann_start tag
                 < pos_start (mkPosToken "Smith" (TagList ["O"]) 5 10)
               ∧ pos_end (mkPosToken "Smith" (TagList ["O"]) 5 10)
                 ≤ ann_end tag)) →
       pos_tags tok' = pos_tags (mkPosToken "Smith" (TagList ["O"]) 5 10)).
Proof.
  refine (tags_follow_the_annotations 0 0 sample_annotations
            sample_token_with_pos 0 1
            (mkPosToken "Smith" (TagList ["O"]) 5 10) _ _ _ eq_refl).
  - simpl. lia.
  - simpl. lia.
  - repeat (constructor; [simpl; lia|]). constructor.
Defined.

(** ** The boundary errors, whatever the annotations *)

Lemma has_end_true (tag : Annotation) (token_with_pos : list PosToken) :
  has_end tag token_with_pos = true
  ↔ ∃ tok, tok ∈ token_with_pos ∧ pos_end tok = ann_end tag.
Proof.
  unfold has_end. induction token_with_pos as [|t rest IH]; cbn [existsb].
  - split; [done|]. intros (tok & Hin & _). by apply elem_of_nil in Hin.
  - rewrite orb_true_iff, IH, Z.eqb_eq. split.
    + intros [H|(tok & Hin & H)].
      * exists t. split; [apply list_elem_of_here|done].
      * exists tok. split; [by apply list_elem_of_further|done].
    + intros (tok & Hin & H). apply elem_of_cons in Hin as [->|Hin];
        [by left|right; eauto].
Qed.

(** One annotation over tokens that follow one another: the loop finds the
    end when some token ends where the annotation does, and it has then
    found the start when some token starts where the annotation does and
    the annotation is not empty. *)
Lemma tag_tokens_flags (tag : Annotation) (lo : Z)
    (token_with_pos : list PosToken) (found_start : bool) :
  sorted_from lo token_with_pos →
  (tag_tokens tag token_with_pos found_start).2 = has_end tag token_with_pos
  ∧ ((tag_tokens tag token_with_pos found_start).2 = true →
     (tag_tokens tag token_with_pos found_start).1.2
     = found_start
       || (has_start tag token_with_pos && (ann_start tag <? ann_end tag))).
Proof.
  revert lo found_start.
  induction token_with_pos as [|tok rest IH]; intros lo found_start Hs.
  { cbn. split; [done|]. discriminate. }
  destruct Hs as (Hlo & Htok & Hrest).
  rewrite tag_tokens_cons. unfold has_start, has_end. cbn [existsb].
  fold (has_start tag rest). fold (has_end tag rest).
  destruct (Z.eqb_spec (pos_start tok) (ann_start tag)) as [Hst|Hst].
  - assert (tag_token tag found_start tok
            = (set_tags (String.append "B-" (ann_tag tag)) tok, true)) as Htt.
    { unfold tag_token. by rewrite (proj2 (Z.eqb_eq _ _) Hst). }
    rewrite Htt. cbn [fst snd orb andb].
    destruct (Z.eqb_spec (pos_end tok) (ann_end tag)) as [Hen|Hen];
      cbn [fst snd orb].
    + split; [done|]. intros _.
      rewrite (proj2 (Z.ltb_lt _ _)) by lia. by rewrite orb_true_r.
    + destruct (IH (pos_end tok) true Hrest) as (H2 & H3).
      split; [done|]. intros Hfe. rewrite (H3 Hfe). cbn [orb].
      rewrite H2 in Hfe. apply has_end_true in Hfe as (w & Hin & Hw).
      destruct (sorted_from_elem _ _ _ Hrest Hin).
      rewrite (proj2 (Z.ltb_lt _ _)) by lia. by rewrite orb_true_r.
  - assert ((tag_token tag found_start tok).2 = found_start) as Hsnd.
    { unfold tag_token. rewrite (proj2 (Z.eqb_neq _ _) Hst).
      by destruct (found_start && (ann_start tag <? pos_start tok)
                   && (pos_end tok <=? ann_end tag)). }
    rewrite Hsnd. cbn [orb].
    destruct (Z.eqb_spec (pos_end tok) (ann_end tag)) as [Hen|Hen];
      cbn [fst snd orb].
    + split; [done|]. intros _.
      destruct (has_start tag rest) eqn:Hhs; [|by rewrite orb_false_r].
      apply has_start_true in Hhs as (u & Hin & Hu).
      destruct (sorted_from_elem _ _ _ Hrest Hin).
      rewrite (proj2 (Z.ltb_ge _ _)) by lia. by rewrite orb_false_r.
    + by destruct (IH (pos_end tok) found_start Hrest) as (H2 & H3).
Qed.

Lemma has_start_same (tag : Annotation) (l l' : list PosToken) :
  Forall2 same_token l l' → has_start tag l' = has_start tag l.
Proof.
  unfold has_start. induction 1 as [|t t' l l' (_ & Hst & _) _ IH];
    cbn [existsb]; [done|].
  by rewrite Hst, IH.
Qed.

Lemma has_end_same (tag : Annotation) (l l' : list PosToken) :
  Forall2 same_token l l' → has_end tag l' = has_end tag l.
Proof.
  unfold has_end. induction 1 as [|t t' l l' (_ & _ & Hen) _ IH];
    cbn [existsb]; [done|].
  by rewrite Hen, IH.
Qed.

Lemma sorted_from_same (lo : Z) (l l' : list PosToken) :
  Forall2 same_token l l' → sorted_from lo l → sorted_from lo l'.
Proof.
  intros H. revert lo. induction H as [|t t' l l' (_ & Hst & Hen) _ IH];
    intros lo; cbn [sorted_from]; [done|].
  rewrite Hst, Hen. intros (? & ? & ?). auto.
Qed.

Lemma tag_tokens_same (tag : Annotation) (token_with_pos : list PosToken)
    (found_start : bool) :
  Forall2 same_token token_with_pos
    (tag_tokens tag token_with_pos found_start).1.1.
Proof.
  eapply Forall2_impl; [apply tag_tokens_frame|]. by intros t t' [H _].
Qed.

Lemma assign_tags_errors (lo : Z) (anns : list Annotation)
    (token_with_pos : list PosToken) (error_cnt : nat) :
  sorted_from lo token_with_pos →
  (assign_tags anns token_with_pos error_cnt).2
  = (error_cnt
     + length (filter (λ tag, (ann_start tag <? ann_end tag)%Z
                              && aligned token_with_pos tag = false) anns))%nat.
Proof.
  revert token_with_pos error_cnt.
  induction anns as [|tag anns IH]; intros token_with_pos error_cnt Hs.
  - unfold assign_tags. simpl. lia.
  - rewrite assign_tags_cons.
    pose proof (tag_tokens_same tag token_with_pos false) as Hsame.
    destruct (tag_tokens_flags tag lo token_with_pos false Hs) as (H2 & H3).
    cbn [orb] in H3.
    rewrite IH by (by eapply sorted_from_same).
    rewrite (list_filter_iff _
               (λ tag, (ann_start tag <? ann_end tag)%Z
                       && aligned token_with_pos tag = false)).
    2:{ intros tag'. unfold aligned.
        by rewrite (has_start_same _ _ _ Hsame), (has_end_same _ _ _ Hsame). }
    assert ((tag_tokens tag token_with_pos false).1.2
            && (tag_tokens tag token_with_pos false).2
            = (ann_start tag <? ann_end tag) && aligned token_with_pos tag)
      as ->.
    { unfold aligned. rewrite <- H2.
      destruct ((tag_tokens tag token_with_pos false).2) eqn:Hfe.
      - rewrite (H3 eq_refl).
        by destruct (has_start tag token_with_pos),
             (ann_start tag <? ann_end tag).
      - by rewrite !andb_false_r. }
    destruct ((ann_start tag <? ann_end tag) && aligned token_with_pos tag)
      eqn:Hal; cbn [negb].
    + rewrite filter_cons_False by (by rewrite Hal). done.
    + rewrite filter_cons_True by done. cbn [length]. lia.
Qed.

(** X30.  When the tokens follow one another, none of them empty, the
    tagging loop counts one boundary error for every annotation that is
    empty (it does not start before it ends) or that does not both start
    where some token starts and end where some token ends, and none for the
    others, whatever the annotations are. *)
Theorem boundary_errors_count_misaligned (lo : Z) (anns : list Annotation)
    (token_with_pos : list PosToken) (error_cnt : nat) :
  sorted_from lo token_with_pos →
  (assign_tags anns token_with_pos error_cnt).2
  = (error_cnt
     + length (filter (λ tag, (ann_start tag <? ann_end tag)%Z
                              && aligned token_with_pos tag = false) anns))%nat.
Proof.
  intros Hs.
  by rewrite (assign_tags_errors lo anns token_with_pos error_cnt Hs).
Qed.

Lemma boundary_errors_count_misaligned_witness :
  (assign_tags
     [mkAnnotation "PER" 0 10 "John Smith"; mkAnnotation "ACT" 12 15 "uns";
      mkAnnotation "END" 15 15 "-"]
     sample_token_with_pos 2).2
  = (2 + length
           (filter (λ tag, (ann_start tag <? ann_end tag)%Z
                           && aligned sample_token_with_pos tag = false)
              [mkAnnotation "PER" 0 10 "John Smith";
               mkAnnotation "ACT" 12 15 "uns";
               mkAnnotation "END" 15 15 "-"]))%nat.
Proof.
  refine (boundary_errors_count_misaligned 0
            [mkAnnotation "PER" 0 10 "John Smith";
             mkAnnotation "ACT" 12 15 "uns"; mkAnnotation "END" 15 15 "-"]
            sample_token_with_pos 2 _).
  simpl. lia.
Defined.
